(** * ERC-20 transfer indexer: shallow embedding and verified properties

  The first part embeds the Go packages of the service, one module per
  package, preceded by the library functions they call:

  - [GoInt]       fixed-width integer arithmetic of Go ([int], [uint64]);
  - [strconv], [hexutil], [common], [big], [primitive], [types], [mongo],
    [sync]        the functions of the standard library, go-ethereum and
                  the MongoDB driver that the service calls;
  - [models]      the Transfer record and the query parameters;
  - [ethereum]    the log parser ([parser.go]), the circuit breaker of one
                  RPC provider ([provider.go]) and the provider pool with
                  failover ([client.go]);
  - [headercache] the cache of block time stamps ([cache.go]);
  - [fetcher]     the fetcher of the transfer logs of a block range
                  ([fetcher.go]);
  - [cache]       the Redis cache of the last processed block;
  - [bson]        the filter documents the repository sends;
  - [repository]  the MongoDB repository: bulk insertion of transfers,
                  the write-through cursor and the transfer query;
  - [stream]      the event bus with its replay buffer and its cleanup;
  - [service]     the ingestion tick, its adaptive batch size and the
                  block the loop starts with;
  - [transfer_service], [handler]
                  the read API for transfers;
  - [config]      the configuration of the environment and the provider
                  file;
  - [main]        the service and the pool [main] builds from them;
  - [examples]    concrete configurations used in examples.

  The second part states and proves the properties.

  Conventions.  Every method is embedded as a pure function on an explicit
  state; a mutated receiver is returned as the new state.  Calls that leave
  the process (RPC, Redis, MongoDB, the wall clock) take their observed
  outcome as an argument, so a theorem quantified over these arguments
  holds for every behaviour of the collaborator.  Metrics and log output
  are not part of the state.  A lock that a method takes and releases
  without calling another method of the same object in between is not
  part of the state either: such a method is one atomic step.  The lock
  of the provider pool is part of the pool, because [SelectProvider]
  calls [GetHealthyProviders] while it holds it.  A goroutine started by
  a method runs to its end before the next step; the one exception is
  the removal of an expired entry that the time-stamp cache starts in the
  background: the fetcher's environment says whether it runs before or
  after the entry is stored anew.  Where the fetcher and the ingestion
  tick call the RPC client, the outcome of the call is an argument; these
  are the calls of the single client, since the calls of the provider
  pool do not return. *)

From Stdlib Require Import ZArith Lia Bool Ascii String.
From Stdlib Require Import DecimalString DecimalN DecimalPos.
From Stdlib.Strings Require Import Byte.
From stdpp Require Import base numbers option list strings gmap sorting.

Open Scope Z_scope.

(* ===================================================================== *)
(** * Fixed-width integers *)
(* ===================================================================== *)

Module GoInt.

Definition max_int64 : Z := 2 ^ 63 - 1.
Definition min_int64 : Z := - 2 ^ 63.
Definition max_uint64 : Z := 2 ^ 64 - 1.

(** Arithmetic on [uint64] is modulo 2^64. *)
Definition wrap_uint64 (z : Z) : Z := z mod 2 ^ 64.

(** Arithmetic on [int] (64 bits, two's complement) wraps around. *)
Definition wrap_int64 (z : Z) : Z := (z + 2 ^ 63) mod 2 ^ 64 - 2 ^ 63.

Definition is_int64 (z : Z) : Prop := min_int64 <= z <= max_int64.
Definition is_uint64 (z : Z) : Prop := 0 <= z <= max_uint64.

(** Conversion [uint64(i)] of a signed value. *)
Definition uint64_of_int (i : Z) : Z := wrap_uint64 i.

End GoInt.

(* ===================================================================== *)
(** * Library functions the service calls *)
(* ===================================================================== *)

(** [strconv.ParseUint(s, 10, 64)] and [strconv.FormatUint(n, 10)]. *)
Module strconv.

(** Base 10, 64 bits: a non-empty string of digits whose value fits. *)
Definition ParseUint (s : string) : option Z :=
  match s with
  | EmptyString => None
  | _ =>
      match NilEmpty.uint_of_string s with
      | Some d =>
          let n := Z.of_N (N.of_uint d) in
          if n <=? GoInt.max_uint64 then Some n else None
      | None => None
      end
  end.

Definition FormatUint (n : Z) : string :=
  NilZero.string_of_uint (N.to_uint (Z.to_N n)).

(** The value of a non-empty string of decimal digits. *)
Definition digits (s : string) : option Z :=
  match s with
  | EmptyString => None
  | _ => (fun d => Z.of_N (N.of_uint d)) <$> NilEmpty.uint_of_string s
  end.

(** [strconv.Atoi]: base 10, an optional sign, the range of [int]. *)
Definition Atoi (s : string) : option Z :=
  match s with
  | String "-"%char rest =>
      n ← digits rest; if n <=? 2 ^ 63 then Some (- n) else None
  | String "+"%char rest =>
      n ← digits rest; if n <=? GoInt.max_int64 then Some n else None
  | _ => n ← digits s; if n <=? GoInt.max_int64 then Some n else None
  end.

End strconv.

(** Byte strings, hexadecimal text and [strings.ToLower] on ASCII text. *)
Module hexutil.

#[global] Instance byte_eq_dec : EqDecision byte.
Proof.
  intros x y. destruct (Byte.eqb x y) eqn:E.
  - left. by apply Byte.byte_dec_bl.
  - right. intros ->. by rewrite (Byte.byte_dec_lb eq_refl) in E.
Defined.

Definition hex_char (n : N) : ascii :=
  nth (N.to_nat n) (list_ascii_of_string "0123456789abcdef") "0"%char.

Definition hex_of_byte (b : byte) : list ascii :=
  let n := Byte.to_N b in [hex_char (n / 16); hex_char (n mod 16)]%N.

(** Two lower-case digits per byte, most significant nibble first. *)
Definition hex_chars (bs : list byte) : list ascii :=
  flat_map hex_of_byte bs.

(** [hexutil.Encode]: ["0x"] followed by the lower-case digits. *)
Definition Encode (bs : list byte) : string :=
  append "0x" (string_of_list_ascii (hex_chars bs)).

Definition hex_val (c : ascii) : option N :=
  let n := N_of_ascii c in
  if (48 <=? n)%N && (n <=? 57)%N then Some (n - 48)%N
  else if (97 <=? n)%N && (n <=? 102)%N then Some (n - 87)%N
  else if (65 <=? n)%N && (n <=? 70)%N then Some (n - 55)%N
  else None.

Definition byte_of_N (n : N) : byte :=
  match Byte.of_N n with Some b => b | None => "000"%byte end.

(** Decoding of an even number of hexadecimal digits. *)
Fixpoint decode_chars (cs : list ascii) : list byte :=
  match cs with
  | hi :: lo :: rest =>
      match hex_val hi, hex_val lo with
      | Some h, Some l => byte_of_N (16 * h + l)%N :: decode_chars rest
      | _, _ => []
      end
  | _ => []
  end.

(** [strings.ToLower] on one ASCII character. *)
Definition lower_char (c : ascii) : ascii :=
  let n := N_of_ascii c in
  if (65 <=? n)%N && (n <=? 90)%N then ascii_of_N (n + 32) else c.

Definition ToLower (s : string) : string :=
  string_of_list_ascii (map lower_char (list_ascii_of_string s)).

(** The sixteen characters [hex_char] produces. *)
Definition is_hex_digit (c : ascii) : Prop :=
  exists n, (n < 16)%N /\ c = hex_char n.

End hexutil.

(** go-ethereum [common]: 32-byte hashes and 20-byte addresses. *)
Module common.

Definition HashLength : nat := 32.
Definition AddressLength : nat := 20.

(** [SetBytes] of a fixed array of [n] bytes: a longer input is cropped
    from the left, a shorter one is left-padded with zeros. *)
Definition set_bytes (n : nat) (b : list byte) : list byte :=
  if (n <? length b)%nat then drop (length b - n)%nat b
  else replicate (n - length b)%nat "000"%byte ++ b.

Definition BytesToAddress (b : list byte) : list byte :=
  set_bytes AddressLength b.

Definition BytesToHash (b : list byte) : list byte :=
  set_bytes HashLength b.

(** [HexToHash] of a ["0x"]-prefixed string with an even number of
    digits. *)
Definition HexToHash (s : string) : list byte :=
  BytesToHash (hexutil.decode_chars (drop 2 (list_ascii_of_string s))).

(** [Hash.Hex]. *)
Definition HashHex (h : list byte) : string := hexutil.Encode h.

Section Checksum.
(** Keccak-256 of the forty hexadecimal digits of an address. *)
Variable keccak256 : list ascii -> list byte.

(** The EIP-55 pass of [Address.checksumHex]: digit [i] is turned to
    upper case when it is a letter and nibble [i] of the hash is above
    7. *)
Fixpoint checksum_chars (hash : list byte) (i : nat) (cs : list ascii)
    : list ascii :=
  match cs with
  | [] => []
  | c :: cs' =>
      let hashByte := Byte.to_N (nth (i / 2) hash "000"%byte) in
      let nibble :=
        if Nat.even i then (hashByte / 16)%N else (hashByte mod 16)%N in
      (if (57 <? N_of_ascii c)%N && (7 <? nibble)%N
       then ascii_of_N (N_of_ascii c - 32)
       else c) :: checksum_chars hash (S i) cs'
  end.

(** [Address.Hex]. *)
Definition AddressHex (a : list byte) : string :=
  let digits := hexutil.hex_chars a in
  append "0x"
    (string_of_list_ascii (checksum_chars (keccak256 digits) 0 digits)).
End Checksum.

End common.

(** [math/big]: the operations of [big.Int] and [big.Float] the parser
  uses.  A [big.Int] is a [Z]. *)
Module big.

(** [Int.SetBytes]: the big-endian unsigned integer of a byte slice. *)
Definition SetBytes (data : list byte) : Z :=
  foldl (fun acc b => acc * 256 + Z.of_N (Byte.to_N b)) 0 data.

(** [Int.String] of a non-negative integer. *)
Definition String (x : Z) : string :=
  NilZero.string_of_uint (N.to_uint (Z.to_N x)).

(** [Int.BitLen]. *)
Definition BitLen (x : Z) : Z := if x =? 0 then 0 else Z.log2 x + 1.

(** Round-to-nearest-even of the quotient [a / b] of two positive
    integers to [p] significant bits: the result [(m, e)] stands for
    [m * 2^e] with [2^(p-1) <= m < 2^p]. *)
Definition rne_quo (a b p : Z) : Z * Z :=
  if a =? 0 then (0, 0)
  else
    let d := Z.log2 a - Z.log2 b in
    let L :=
      if b * 2 ^ Z.max d 0 <=? a * 2 ^ Z.max (- d) 0 then d else d - 1 in
    let e := L - p + 1 in
    let num := a * 2 ^ Z.max (- e) 0 in
    let den := b * 2 ^ Z.max e 0 in
    let q := num / den in
    let r := num mod den in
    let q' :=
      if den <? 2 * r then q + 1
      else if 2 * r =? den then (if Z.odd q then q + 1 else q)
      else q in
    if q' =? 2 ^ p then (2 ^ (p - 1), e + 1) else (q', e).

(** A [big.Float]: precision in bits and the value [mant * 2^exp]. *)
Record Float := mkFloat { prec : Z; mant : Z; exp : Z }.

(** [new(big.Float).SetInt(x)]: exact, precision [max(x.BitLen(), 64)]. *)
Definition SetInt (x : Z) : Float :=
  {| prec := Z.max (BitLen x) 64; mant := x; exp := 0 |}.

(** [new(big.Float).Quo(x, y)]: precision [max(x.prec, y.prec)], rounding
    to nearest even. *)
Definition Quo (x y : Float) : Float :=
  let p := Z.max (prec x) (prec y) in
  let '(m, e) := rne_quo (mant x) (mant y) p in
  {| prec := p; mant := m; exp := e + exp x - exp y |}.

(** A finite [float64]: [f_mant * 2^f_exp] with a significand of at most
    53 bits. *)
Record float64 := mkFloat64 { f_mant : Z; f_exp : Z }.

(** [Float.Float64]: the nearest [float64], ties to even, for values in
    the normal range of the format. *)
Definition Float64 (x : Float) : float64 :=
  let '(m, e) := rne_quo (mant x) 1 53 in
  {| f_mant := m; f_exp := e + exp x |}.

End big.

(** [bson/primitive]: [Decimal128] holds a significand of at most 34
  decimal digits and a decimal exponent. *)
Module primitive.

Record Decimal128 := mkDecimal128 { significand : Z; exponent : Z }.

Definition MaxDecimal128Exp : Z := 6111.
Definition maxS : Z := 10 ^ 34 - 1.

(** [NewDecimal128(0, 0)]: all bits clear, which is zero with the
    smallest exponent. *)
Definition NewDecimal128_zero : Decimal128 :=
  {| significand := 0; exponent := -6176 |}.

(** [ParseDecimal128FromBigInt]: while the significand exceeds 34 digits
    a trailing zero is moved into the exponent; a non-zero digit that
    would be lost is an error. *)
Fixpoint reduce (fuel : nat) (bi e : Z) : option Decimal128 :=
  if bi <=? maxS then Some {| significand := bi; exponent := e |}
  else
    match fuel with
    | O => None
    | S fuel' =>
        if negb (bi mod 10 =? 0) then None
        else if MaxDecimal128Exp <? e + 1 then None
        else reduce fuel' (bi / 10) (e + 1)
    end.

(** [ParseDecimal128] on a string of decimal digits (the strings
    [big.Int.String] produces for non-negative integers). *)
Definition ParseDecimal128 (s : string) : option Decimal128 :=
  match s with
  | EmptyString => None
  | _ =>
      match NilEmpty.uint_of_string s with
      | Some d => reduce (String.length s) (Z.of_N (N.of_uint d)) 0
      | None => None
      end
  end.

(** The number a Decimal128 stands for: [significand * 10^exponent]. *)
Definition represents (d : Decimal128) (v : Z) : Prop :=
  if 0 <=? exponent d
  then significand d * 10 ^ exponent d = v
  else significand d = v * 10 ^ (- exponent d).

Definition max_uint256 : Z := 2 ^ 256 - 1.

End primitive.

(* ===================================================================== *)
(** * Package models *)
(* ===================================================================== *)

Module models.

(** The [_id] field is assigned by the database and is not modelled.
    Instants are Unix times. *)
Record Transfer := mkTransfer {
  EventSignature : string;
  Token : string;
  From : string;
  To : string;
  Value : primitive.Decimal128;
  ValueString : string;
  ValueDecimal : big.float64;
  BlockNumber : Z;
  TxHash : string;
  TxIndex : Z;
  LogIndex : Z;
  Timestamp : Z;
  CreatedAt : Z
}.

Record ProcessedBlock := mkProcessedBlock {
  PBlockNumber : Z;
  ProcessedAt : Z
}.

(** The query parameters of the read API; [QToken], [QFrom] and [QTo]
    are the fields [Token], [From] and [To], a nil pointer is [None]. *)
Record TransferQueryParams := mkTransferQueryParams {
  QToken : string;
  QFrom : string;
  QTo : string;
  StartBlock : option Z;
  EndBlock : option Z;
  StartTime : option Z;
  EndTime : option Z;
  Limit : Z;
  Offset : Z
}.

End models.

(** go-ethereum [core/types]: a raw log. *)
Module types.

Record Log := mkLog {
  Address : list byte;
  Topics : list (list byte);
  Data : list byte;
  BlockNumber : Z;
  TxHash : list byte;
  TxIndex : Z;
  Index : Z
}.

End types.

(** Go [sync]: the read-write lock, as the goroutine sees it that runs
    the embedded methods. *)
Module sync.

(** The lock is free, held by a writer, or held by [readers] readers.
    It is not reentrant: a goroutine that holds it and asks for it again
    waits like any other. *)
Inductive RWMutex :=
| Unlocked
| WriteLocked
| ReadLocked (readers : nat).

(** [Lock] and [RLock]: the lock once it is taken; [None] when the
    caller has to wait for a holder to release it. *)
Definition Lock (m : RWMutex) : option RWMutex :=
  match m with
  | Unlocked => Some WriteLocked
  | WriteLocked | ReadLocked _ => None
  end.

Definition RLock (m : RWMutex) : option RWMutex :=
  match m with
  | Unlocked => Some (ReadLocked 1)
  | ReadLocked readers => Some (ReadLocked (S readers))
  | WriteLocked => None
  end.

(** [Unlock] by the writer and [RUnlock] by a reader. *)
Definition Unlock (m : RWMutex) : RWMutex := Unlocked.

Definition RUnlock (m : RWMutex) : RWMutex :=
  match m with
  | ReadLocked (S (S readers)) => ReadLocked (S readers)
  | _ => Unlocked
  end.

End sync.

(* ===================================================================== *)
(** * Package ethereum: parser, provider circuit breaker, provider pool *)
(* ===================================================================== *)

Module ethereum.
Import GoInt.

(** ** parser.go *)

Definition ERC20TransferEventSignature : list byte :=
  common.HexToHash
    "0xddf252ad1be2c89b69c2b068fc378daa952ba7f163c4a11628f55a4df523b3ef".

Definition EventSignatureTransfer : string := "Transfer".

Inductive ParseError :=
| ErrTopicCount (got : nat)
| ErrNotTransfer
| ErrDataLength (got : nat).

(** [parseValueDecimal]: the wei amount divided by 10^18 with [big.Float]
    arithmetic, converted to [float64]. *)
Definition parseValueDecimal (value : Z) : big.float64 :=
  let divisor := big.SetInt (10 ^ 18) in
  let valueFloat := big.SetInt value in
  big.Float64 (big.Quo valueFloat divisor).

Section Parser.
Variable keccak256 : list ascii -> list byte.

(** [ParseTransferLog log blockTime]; [now] is the reading of
    [time.Now()] stored in [CreatedAt]. *)
Definition ParseTransferLog (now : Z) (log : types.Log) (blockTime : Z)
    : models.Transfer + ParseError :=
  match types.Topics log with
  | [topic0; topic1; topic2] =>
      if negb (bool_decide (topic0 = ERC20TransferEventSignature))
      then inr ErrNotTransfer
      else
        let from := common.BytesToAddress topic1 in
        let to := common.BytesToAddress topic2 in
        if negb (length (types.Data log) =? 32)%nat
        then inr (ErrDataLength (length (types.Data log)))
        else
          let value := big.SetBytes (types.Data log) in
          let valueStr := big.String value in
          let decimalValue :=
            match primitive.ParseDecimal128 valueStr with
            | Some d => d
            | None => primitive.NewDecimal128_zero
            end in
          inl {| models.EventSignature := EventSignatureTransfer;
                 models.Token :=
                   hexutil.ToLower
                     (common.AddressHex keccak256 (types.Address log));
                 models.From :=
                   hexutil.ToLower (common.AddressHex keccak256 from);
                 models.To :=
                   hexutil.ToLower (common.AddressHex keccak256 to);
                 models.Value := decimalValue;
                 models.ValueString := valueStr;
                 models.ValueDecimal := parseValueDecimal value;
                 models.BlockNumber := types.BlockNumber log;
                 models.TxHash := common.HashHex (types.TxHash log);
                 models.TxIndex := types.TxIndex log;
                 models.LogIndex := types.Index log;
                 models.Timestamp := blockTime;
                 models.CreatedAt := now |}
  | topics => inr (ErrTopicCount (length topics))
  end.
End Parser.

(** ** provider.go *)

Inductive ProviderState := StateHealthy | StateUnhealthy | StateHalfOpen.

#[global] Instance ProviderState_eq_dec : EqDecision ProviderState.
Proof. solve_decision. Defined.

(** Times and durations are integers (nanoseconds); [time.Since t] at
    clock reading [now] is [now - t]. *)
Record Provider := mkProvider {
  Name : string;
  URL : string;
  Weight : Z;
  MaxRange : Z;
  Timeout : Z;
  state : ProviderState;
  failureCount : Z;
  successCount : Z;
  lastFailureTime : Z;
  lastSuccessTime : Z;
  failureThreshold : Z;
  successThreshold : Z;
  timeout : Z;
  halfOpenMaxCalls : Z;
  halfOpenCalls : Z
}.

Record CircuitBreakerConfig := mkCircuitBreakerConfig {
  FailureThreshold : Z;
  SuccessThreshold : Z;
  CBTimeout : Z;
  HalfOpenMaxCalls : Z
}.

Definition DefaultCircuitBreakerConfig : CircuitBreakerConfig :=
  {| FailureThreshold := 5; SuccessThreshold := 2;
     CBTimeout := 60 * 1000000000; HalfOpenMaxCalls := 3 |}.

(** [NewProvider] once the dial succeeded: the breaker starts Healthy with
    zeroed counters and zero time stamps. *)
Definition NewProvider (name url : string) (weight maxRange tmo : Z)
    (cb : CircuitBreakerConfig) : Provider :=
  {| Name := name; URL := url; Weight := weight; MaxRange := maxRange;
     Timeout := tmo;
     state := StateHealthy; failureCount := 0; successCount := 0;
     lastFailureTime := 0; lastSuccessTime := 0;
     failureThreshold := FailureThreshold cb;
     successThreshold := SuccessThreshold cb;
     timeout := CBTimeout cb;
     halfOpenMaxCalls := HalfOpenMaxCalls cb;
     halfOpenCalls := 0 |}.

(** Rebuilds a provider with new values for the fields the breaker
    mutates; the configuration fields are copied. *)
Definition with_breaker (p : Provider) (st : ProviderState)
    (fc sc lft lst hoc : Z) : Provider :=
  {| Name := Name p; URL := URL p; Weight := Weight p;
     MaxRange := MaxRange p; Timeout := Timeout p;
     state := st; failureCount := fc; successCount := sc;
     lastFailureTime := lft; lastSuccessTime := lst;
     failureThreshold := failureThreshold p;
     successThreshold := successThreshold p;
     timeout := timeout p;
     halfOpenMaxCalls := halfOpenMaxCalls p;
     halfOpenCalls := hoc |}.

(** [IsHealthy]: Healthy and HalfOpen answer true; an Unhealthy provider
    whose last failure is older than [timeout] moves to HalfOpen (with
    [halfOpenCalls] zeroed) and answers true. *)
Definition IsHealthy (now : Z) (p : Provider) : bool * Provider :=
  match state p with
  | StateHealthy => (true, p)
  | StateUnhealthy =>
      if timeout p <? now - lastFailureTime p
      then (true,
            with_breaker p StateHalfOpen (failureCount p) (successCount p)
              (lastFailureTime p) (lastSuccessTime p) 0)
      else (false, p)
  | StateHalfOpen => (true, p)
  end.

Definition RecordSuccess (now : Z) (p : Provider) : Provider :=
  let sc := wrap_int64 (successCount p + 1) in
  match state p with
  | StateHalfOpen =>
      let hoc := wrap_int64 (halfOpenCalls p + 1) in
      if successThreshold p <=? sc
      then with_breaker p StateHealthy 0 0 (lastFailureTime p) now 0
      else with_breaker p StateHalfOpen 0 sc (lastFailureTime p) now hoc
  | StateUnhealthy =>
      with_breaker p StateHalfOpen 0 sc (lastFailureTime p) now
        (halfOpenCalls p)
  | StateHealthy =>
      with_breaker p StateHealthy 0 sc (lastFailureTime p) now
        (halfOpenCalls p)
  end.

Definition RecordFailure (now : Z) (p : Provider) : Provider :=
  let fc := wrap_int64 (failureCount p + 1) in
  match state p with
  | StateHalfOpen =>
      with_breaker p StateUnhealthy fc 0 now (lastSuccessTime p) 0
  | st =>
      if failureThreshold p <=? fc
      then with_breaker p StateUnhealthy fc 0 now (lastSuccessTime p)
             (halfOpenCalls p)
      else with_breaker p st fc 0 now (lastSuccessTime p)
             (halfOpenCalls p)
  end.

(** A run of consecutive calls, one clock reading per call. *)
Definition failures (times : list Z) (p : Provider) : Provider :=
  foldl (fun q t => RecordFailure t q) p times.

Definition successes (times : list Z) (p : Provider) : Provider :=
  foldl (fun q t => RecordSuccess t q) p times.

(** The three counters the breaker keeps. *)
Definition counters_reset (p : Provider) : Prop :=
  failureCount p = 0 /\ successCount p = 0 /\ halfOpenCalls p = 0.

(** ** client.go: ProviderPool *)

Record ProviderPool := mkPool {
  providers : list Provider;
  mu : sync.RWMutex;
  current : Z
}.

(** [sort.Slice] with [Weight i > Weight j]: descending weights.  The
    sort of the library is not stable, so the order among providers of
    equal weight is its choice; an insertion sort stands for it, and no
    statement below depends on the order among equal weights. *)
Fixpoint insert_by_weight (p : Provider) (l : list Provider) : list Provider :=
  match l with
  | [] => [p]
  | q :: l' =>
      if Weight q <=? Weight p then p :: q :: l'
      else q :: insert_by_weight p l'
  end.

Definition sort_by_weight (l : list Provider) : list Provider :=
  foldr insert_by_weight [] l.

Definition NewProviderPool (ps : list Provider) : ProviderPool :=
  {| providers := sort_by_weight ps; mu := sync.Unlocked; current := 0 |}.

Definition set_provider (pool : ProviderPool) (i : nat) (p : Provider)
    : ProviderPool :=
  {| providers := <[i := p]> (providers pool); mu := mu pool;
     current := current pool |}.

Definition with_mu (pool : ProviderPool) (m : sync.RWMutex) : ProviderPool :=
  {| providers := providers pool; mu := m; current := current pool |}.

(** The loop of [GetHealthyProviders]: every provider is asked
    [IsHealthy] in pool order.  The pool holds pointers, so the answer
    is the list of positions of the healthy providers, and the providers
    that moved to HalfOpen during the scan are updated in the pool. *)
Fixpoint healthy_scan (now : Z) (i : nat) (ps : list Provider)
    : list nat * list Provider :=
  match ps with
  | [] => ([], [])
  | p :: rest =>
      let '(h, p') := IsHealthy now p in
      let '(idxs, rest') := healthy_scan now (S i) rest in
      (if h then i :: idxs else idxs, p' :: rest')
  end.

(** [GetHealthyProviders]: [p.mu.RLock()], the loop, and the deferred
    [p.mu.RUnlock()].  [None]: the call waits for the lock and does not
    return while the lock is held by a writer. *)
Definition GetHealthyProviders (now : Z) (pool : ProviderPool)
    : option (list nat * ProviderPool) :=
  match sync.RLock (mu pool) with
  | None => None
  | Some m =>
      let '(idxs, ps') := healthy_scan now 0 (providers pool) in
      Some (idxs,
            {| providers := ps'; mu := sync.RUnlock m;
               current := current pool |})
  end.

(** What [SelectProvider] hands back: a provider with a nil error, the
    first provider together with a non-nil error ("all providers
    unhealthy, using ... as fallback"), or nil with an error.  Indexing
    [healthy] with a negative remainder panics.  [Blocked]: the call
    does not return, its goroutine waits for the lock of the pool. *)
Inductive Selection :=
| Selected (i : nat)
| FallbackWithError (i : nat)
| NoProviders
| IndexPanic
| Blocked.

(** [SelectProvider]: [p.mu.Lock()], then [p.GetHealthyProviders()],
    which asks for [p.mu.RLock()] while the caller holds the lock as
    writer, then the choice among the healthy providers, and the
    deferred [p.mu.Unlock()].  With the result comes the pool as the
    call leaves it. *)
Definition SelectProvider (now : Z) (pool : ProviderPool)
    : Selection * ProviderPool :=
  match sync.Lock (mu pool) with
  | None => (Blocked, pool)
  | Some m =>
      match GetHealthyProviders now (with_mu pool m) with
      | None => (Blocked, with_mu pool m)
      | Some (healthy, pool1) =>
          let unlocked := sync.Unlock (mu pool1) in
          match healthy with
          | _ :: _ =>
              let idx := Z.rem (current pool1) (Z.of_nat (length healthy)) in
              if idx <? 0 then (IndexPanic, with_mu pool1 unlocked)
              else
                match healthy !! Z.to_nat idx with
                | Some i =>
                    (Selected i,
                     {| providers := providers pool1; mu := unlocked;
                        current := wrap_int64 (current pool1 + 1) |})
                | None => (IndexPanic, with_mu pool1 unlocked)
                end
          | [] =>
              match providers pool1 with
              | _ :: _ => (FallbackWithError 0, with_mu pool1 unlocked)
              | [] => (NoProviders, with_mu pool1 unlocked)
              end
          end
      end
  end.

(** Observed behaviour of the outside world during one pool operation,
    indexed by the attempt number: the clock when the provider is
    selected and when the outcome is recorded, the outcome of the RPC if
    it is made on the provider at a given position ([None] is an error),
    and whether the caller's context is done after a failed call. *)
Record CallEnv (A : Type) := mkCallEnv {
  select_time : nat -> Z;
  record_time : nat -> Z;
  rpc : nat -> nat -> option A;
  ctx_done : nat -> bool
}.
Arguments select_time {A}.
Arguments record_time {A}.
Arguments rpc {A}.
Arguments ctx_done {A}.

(** How a pool operation ends: with the answer of a provider, with one
    of its three errors, with a panic, or not at all ([PoolBlocked]: the
    goroutine waits in [SelectProvider]). *)
Inductive PoolResult (A : Type) :=
| PoolOk (served : nat) (v : A)
| PoolNoHealthy
| PoolCancelled
| PoolAllFailed
| PoolPanic
| PoolBlocked.
Arguments PoolOk {A}.
Arguments PoolNoHealthy {A}.
Arguments PoolCancelled {A}.
Arguments PoolAllFailed {A}.
Arguments PoolPanic {A}.
Arguments PoolBlocked {A}.

(** The range test of [FilterLogs]: [blockRange > provider.MaxRange]. *)
Definition exceeds_range (costHint : option Z) (p : Provider) : bool :=
  match costHint with
  | Some blockRange => MaxRange p <? blockRange
  | None => false
  end.

(** The attempt loop shared by [FilterLogs], [BlockByNumber] and
    [HeaderByNumber]; only [FilterLogs] has the range test.  [fuel] is
    the number of attempts left, [n] is [len(p.providers)].  Besides the
    result and the final pool the function returns the positions of the
    providers whose client was called, in call order. *)
Fixpoint attempt_loop {A : Type} (env : CallEnv A) (costHint : option Z)
    (n fuel attempt : nat) (pool : ProviderPool)
    (attemptedProviders : gset string) (called : list nat)
    : PoolResult A * ProviderPool * list nat :=
  match fuel with
  | O => (PoolAllFailed, pool, called)
  | S fuel' =>
      match SelectProvider (select_time env attempt) pool with
      | (Selected i, pool1) =>
          match providers pool1 !! i with
          | None => (PoolPanic, pool1, called)
          | Some p =>
              if exceeds_range costHint p then
                attempt_loop env costHint n fuel' (S attempt) pool1
                  ({[Name p]} ∪ attemptedProviders) called
              else if bool_decide (Name p ∈ attemptedProviders)
                      && (attempt <? n)%nat then
                attempt_loop env costHint n fuel' (S attempt) pool1
                  attemptedProviders called
              else
                match rpc env attempt i with
                | Some v =>
                    (PoolOk i v,
                     set_provider pool1 i
                       (RecordSuccess (record_time env attempt) p),
                     called ++ [i])
                | None =>
                    let pool2 :=
                      set_provider pool1 i
                        (RecordFailure (record_time env attempt) p) in
                    if ctx_done env attempt
                    then (PoolCancelled, pool2, called ++ [i])
                    else
                      attempt_loop env costHint n fuel' (S attempt) pool2
                        ({[Name p]} ∪ attemptedProviders) (called ++ [i])
                end
          end
      | (FallbackWithError _, pool1) => (PoolNoHealthy, pool1, called)
      | (NoProviders, pool1) => (PoolNoHealthy, pool1, called)
      | (IndexPanic, pool1) => (PoolPanic, pool1, called)
      | (Blocked, pool1) => (PoolBlocked, pool1, called)
      end
  end.

(** [blockRange := query.ToBlock.Uint64() - query.FromBlock.Uint64() + 1]
    in [uint64] arithmetic. *)
Definition blockRange (fromBlock toBlock : Z) : Z :=
  wrap_uint64 (toBlock - fromBlock + 1).

Definition FilterLogs {A : Type} (env : CallEnv A) (pool : ProviderPool)
    (fromBlock toBlock : Z) : PoolResult A * ProviderPool * list nat :=
  let n := length (providers pool) in
  attempt_loop env (Some (blockRange fromBlock toBlock)) n (n * 2) 0
    pool ∅ [].

Definition BlockByNumber {A : Type} (env : CallEnv A) (pool : ProviderPool)
    : PoolResult A * ProviderPool * list nat :=
  let n := length (providers pool) in
  attempt_loop env None n (n * 2) 0 pool ∅ [].

Definition HeaderByNumber {A : Type} (env : CallEnv A) (pool : ProviderPool)
    : PoolResult A * ProviderPool * list nat :=
  let n := length (providers pool) in
  attempt_loop env None n (n * 2) 0 pool ∅ [].

(** ** Notions used in the statements about this package *)

(** The three ways a log violates the parse contract. *)
Definition malformed (log : types.Log) : Prop :=
  length (types.Topics log) <> 3%nat \/
  types.Topics log !! 0%nat <> Some ERC20TransferEventSignature \/
  length (types.Data log) <> 32%nat.

(** The states a provider can be in after any sequence of calls of its
    three methods, starting from [p0]. *)
Inductive reachable (p0 : Provider) : Provider -> Prop :=
| reach_new : reachable p0 p0
| reach_IsHealthy now p :
    reachable p0 p -> reachable p0 (IsHealthy now p).2
| reach_RecordSuccess now p :
    reachable p0 p -> reachable p0 (RecordSuccess now p)
| reach_RecordFailure now p :
    reachable p0 p -> reachable p0 (RecordFailure now p).

(** What holds of the counters in every reachable state, for thresholds
    [T] (failures) and [ST] (successes). *)
Definition breaker_inv (T ST : Z) (p : Provider) : Prop :=
  failureThreshold p = T /\ successThreshold p = ST /\
  match state p with
  | StateHealthy => 0 <= failureCount p < Z.max T 1
  | StateUnhealthy => successCount p = 0
  | StateHalfOpen => 0 <= successCount p < Z.max ST 2
  end.

(** A failure while probing returns to Unhealthy and resets all three
    counters. *)
Definition probing_failure_resets (now : Z) (p : Provider) : Prop :=
  state p = StateHalfOpen ->
  state (RecordFailure now p) = StateUnhealthy /\
  counters_reset (RecordFailure now p).

(** Every provider is Unhealthy and its breaker timeout has not elapsed
    at the clock reading [now]: none is selectable. *)
Definition all_tripped (now : Z) (pool : ProviderPool) : Prop :=
  Forall (fun p => state p = StateUnhealthy /\
                   (timeout p <? now - lastFailureTime p) = false)
    (providers pool).

End ethereum.

(* ===================================================================== *)
(** * Package ethereum, cache.go: the cache of block time stamps *)
(* ===================================================================== *)

Module headercache.

Record cachedHeader := mkCachedHeader {
  timestamp : Z;
  expiresAt : Z
}.

Record BlockHeaderCache := mkBlockHeaderCache {
  cache : gmap Z cachedHeader;
  ttl : Z
}.

Definition NewBlockHeaderCache (ttl : Z) : BlockHeaderCache :=
  {| cache := ∅; ttl := ttl |}.

(** [Get] at the clock reading [now]: the time stamp of a block that is
    cached and not expired.  The flag tells whether the entry was found
    expired, in which case the goroutine [go c.Delete(blockNumber)] is
    started. *)
Definition Get (now blockNumber : Z) (c : BlockHeaderCache)
    : option Z * bool :=
  match cache c !! blockNumber with
  | None => (None, false)
  | Some cached =>
      if expiresAt cached <? now then (None, true)
      else (Some (timestamp cached), false)
  end.

(** The method [Set]. *)
Definition Set_ (now blockNumber stamp : Z) (c : BlockHeaderCache)
    : BlockHeaderCache :=
  {| cache := <[blockNumber := {| timestamp := stamp;
                                  expiresAt := now + ttl c |}]> (cache c);
     ttl := ttl c |}.

Definition Delete (blockNumber : Z) (c : BlockHeaderCache)
    : BlockHeaderCache :=
  {| cache := delete blockNumber (cache c); ttl := ttl c |}.

Definition Clear (c : BlockHeaderCache) : BlockHeaderCache :=
  {| cache := ∅; ttl := ttl c |}.

Definition Size (c : BlockHeaderCache) : nat := size (cache c).

(** [Get] followed by the removal it started, if any. *)
Definition GetAndExpire (now blockNumber : Z) (c : BlockHeaderCache)
    : option Z * BlockHeaderCache :=
  let '(r, started) := Get now blockNumber c in
  (r, if started then Delete blockNumber c else c).

End headercache.

(* ===================================================================== *)
(** * Package ethereum, fetcher.go: from a block range to transfers *)
(* ===================================================================== *)

Module fetcher.
Import GoInt.

(** The RPC client is represented by the outcomes of its calls in
    [FetchEnv]; a call that does not return, as every call made through
    a provider pool, is not among them. *)
Record Fetcher := mkFetcher { cache : headercache.BlockHeaderCache }.

(** [NewFetcher]: a cache with a time-to-live of five minutes. *)
Definition NewFetcher : Fetcher :=
  {| cache := headercache.NewBlockHeaderCache (5 * 60 * 1000000000) |}.

(** What one call of [FetchTransferLogs] observes: the outcome of
    [FilterLogs] for the range and of [BlockByNumber] for a block (the
    [Time()] of the block; [None] is an error), the clock at the cache
    lookup and in the parser for the log at a position, the clock when
    the time stamp of a block is stored, and whether the removal of an
    expired entry runs only after the new time stamp of that block was
    stored. *)
Record FetchEnv := mkFetchEnv {
  filter_logs : Z -> Z -> option (list types.Log);
  block_time : Z -> option Z;
  lookup_clock : nat -> Z;
  parse_clock : nat -> Z;
  store_clock : Z -> Z;
  delete_late : Z -> bool
}.

Inductive FetchError :=
| ErrFilterLogs
| ErrGetBlock
| ErrMissingTimestamp.

(** A successful call returns the transfers and leaves the cache in a
    new state; [requested] lists the blocks whose header was requested.
    After a failed header request the cache depends on which of the
    other requests had completed, and is not part of the result. *)
Inductive FetchResult :=
| FetchOk (transfers : list models.Transfer) (f : Fetcher)
    (requested : list Z)
| FetchFailed (e : FetchError).

(** The first loop: every block number is looked up once, at its first
    log.  The result is the local map of time stamps, the blocks to
    fetch, and the blocks whose entry was found expired. *)
Fixpoint scan_blocks (env : FetchEnv) (c : headercache.BlockHeaderCache)
    (i : nat) (logs : list types.Log) (uniqueBlocks : gset Z)
    (blockTimestamps : gmap Z Z) (blocksToFetch expired : list Z)
    : gmap Z Z * list Z * list Z :=
  match logs with
  | [] => (blockTimestamps, blocksToFetch, expired)
  | log :: rest =>
      let bn := types.BlockNumber log in
      if bool_decide (bn ∈ uniqueBlocks) then
        scan_blocks env c (S i) rest uniqueBlocks blockTimestamps
          blocksToFetch expired
      else
        match headercache.Get (lookup_clock env i) bn c with
        | (Some stamp, _) =>
            scan_blocks env c (S i) rest ({[bn]} ∪ uniqueBlocks)
              (<[bn := stamp]> blockTimestamps) blocksToFetch expired
        | (None, started) =>
            scan_blocks env c (S i) rest ({[bn]} ∪ uniqueBlocks)
              blockTimestamps (blocksToFetch ++ [bn])
              (if started then expired ++ [bn] else expired)
        end
  end.

(** The header requests: each block's time stamp
    [time.Unix(int64(block.Time()), 0)] is stored in the cache and in
    the local map; one failed request fails the call. *)
Fixpoint fetch_headers (env : FetchEnv) (blocksToFetch : list Z)
    (c : headercache.BlockHeaderCache) (blockTimestamps : gmap Z Z)
    : option (headercache.BlockHeaderCache * gmap Z Z) :=
  match blocksToFetch with
  | [] => Some (c, blockTimestamps)
  | bn :: rest =>
      match block_time env bn with
      | None => None
      | Some t =>
          let stamp := wrap_int64 t in
          fetch_headers env rest
            (headercache.Set_ (store_clock env bn) bn stamp c)
            (<[bn := stamp]> blockTimestamps)
      end
  end.

Definition run_deletes (blocks : list Z) (c : headercache.BlockHeaderCache)
    : headercache.BlockHeaderCache :=
  foldl (fun c bn => headercache.Delete bn c) c blocks.

Section Fetch.
Variable keccak256 : list ascii -> list byte.

(** The last loop: a log without time stamp is an error, a log the
    parser refuses is skipped. *)
Fixpoint parse_logs (env : FetchEnv) (i : nat) (logs : list types.Log)
    (blockTimestamps : gmap Z Z) : option (list models.Transfer) :=
  match logs with
  | [] => Some []
  | log :: rest =>
      match blockTimestamps !! types.BlockNumber log with
      | None => None
      | Some stamp =>
          transfers ← parse_logs env (S i) rest blockTimestamps;
          match ethereum.ParseTransferLog keccak256 (parse_clock env i)
                  log stamp with
          | inl transfer => Some (transfer :: transfers)
          | inr _ => Some transfers
          end
      end
  end.

Definition FetchTransferLogs (env : FetchEnv) (f : Fetcher)
    (fromBlock toBlock : Z) : FetchResult :=
  match filter_logs env fromBlock toBlock with
  | None => FetchFailed ErrFilterLogs
  | Some [] => FetchOk [] f []
  | Some logs =>
      let '(blockTimestamps, blocksToFetch, expired) :=
        scan_blocks env (cache f) 0 logs ∅ ∅ [] [] in
      let early := filter (fun bn => delete_late env bn = false) expired in
      let late := filter (fun bn => delete_late env bn = true) expired in
      match fetch_headers env blocksToFetch (run_deletes early (cache f))
              blockTimestamps with
      | None => FetchFailed ErrGetBlock
      | Some (c, stamps) =>
          match parse_logs env 0 logs stamps with
          | None => FetchFailed ErrMissingTimestamp
          | Some transfers =>
              FetchOk transfers {| cache := run_deletes late c |}
                blocksToFetch
          end
      end
  end.
End Fetch.

(** [GetBlockTimestamp]. *)
Definition GetBlockTimestamp (env : FetchEnv) (blockNumber : Z)
    : option Z :=
  wrap_int64 <$> block_time env blockNumber.

(** ** Notions used in the statements about this package *)

(** The parts of a successful result. *)
Definition transfers_of (r : FetchResult) : list models.Transfer :=
  match r with FetchOk transfers _ _ => transfers | FetchFailed _ => [] end.

Definition fetcher_of (f : Fetcher) (r : FetchResult) : Fetcher :=
  match r with FetchOk _ f' _ => f' | FetchFailed _ => f end.

Definition requested_of (r : FetchResult) : list Z :=
  match r with FetchOk _ _ requested => requested | FetchFailed _ => [] end.

(** The entry of a block is usable at the clock reading [now]. *)
Definition fresh (c : headercache.BlockHeaderCache) (now bn : Z) : Prop :=
  exists h, headercache.cache c !! bn = Some h /\
            now <= headercache.expiresAt h.

(** The position of the first log of a block. *)
Fixpoint first_index (bn : Z) (logs : list types.Log) : option nat :=
  match logs with
  | [] => None
  | log :: rest =>
      if bool_decide (types.BlockNumber log = bn) then Some 0%nat
      else S <$> first_index bn rest
  end.

(** The time stamp the fetcher attaches to the logs of a block: the
    cached one when the entry is usable at the lookup, which happens at
    the first log of the block, and the one of the fetched header
    otherwise. *)
Definition stamp_of (env : FetchEnv) (c : headercache.BlockHeaderCache)
    (logs : list types.Log) (bn : Z) : option Z :=
  i ← first_index bn logs;
  match headercache.Get (lookup_clock env i) bn c with
  | (Some stamp, _) => Some stamp
  | (None, _) => wrap_int64 <$> block_time env bn
  end.

(** What a call is expected to return for the logs of the range: log by
    log, the transfer the parser makes of it with the time stamp of its
    block; a log the parser refuses gives nothing. *)
Definition expected_transfers (keccak256 : list ascii -> list byte)
    (env : FetchEnv) (c : headercache.BlockHeaderCache)
    (logs : list types.Log) : list models.Transfer :=
  omap (fun il : nat * types.Log =>
          stamp ← stamp_of env c logs (types.BlockNumber il.2);
          match ethereum.ParseTransferLog keccak256 (parse_clock env il.1)
                  il.2 stamp with
          | inl transfer => Some transfer
          | inr _ => None
          end)
       (imap pair logs).

End fetcher.

(* ===================================================================== *)
(** * Package cache: the Redis look-aside cache *)
(* ===================================================================== *)

Module cache.

Definition keyLastBlock : string := "ethereum:last_block".

(** The Redis client is represented by the database it talks to, a map
    from keys to string values that is passed to every command together
    with the flag [up]: whether this command reaches the server and is
    answered. *)
Record RedisCache := mkRedisCache { enabled : bool }.

Inductive Error :=
| ErrCacheDisabled
| ErrRedisCommand
| ErrInvalidBlockNumber.

Definition GetLastProcessedBlock (r : RedisCache) (up : bool)
    (db : gmap string string) : Z + Error :=
  if negb (enabled r) then inr ErrCacheDisabled
  else if negb up then inr ErrRedisCommand
  else
    match db !! keyLastBlock with
    | None => inl 0
    | Some val =>
        match strconv.ParseUint val with
        | Some blockNum => inl blockNum
        | None => inr ErrInvalidBlockNumber
        end
    end.

Definition SetLastProcessedBlock (r : RedisCache) (up : bool)
    (blockNumber : Z) (db : gmap string string)
    : option Error * gmap string string :=
  if negb (enabled r) then (Some ErrCacheDisabled, db)
  else if negb up then (Some ErrRedisCommand, db)
  else (None, <[keyLastBlock := strconv.FormatUint blockNumber]> db).

End cache.

(* ===================================================================== *)
(** * The MongoDB driver: errors and unordered bulk insertion *)
(* ===================================================================== *)

Module mongo.

Record WriteError := mkWriteError {
  WIndex : nat;
  Code : Z;
  Message : string
}.

(** The errors a bulk write can return: the exception that collects the
    per-document write errors and the write-concern error, a command
    error of the server, or an error that is no server error. *)
Inductive Error :=
| BulkWriteException (writeErrors : list WriteError)
    (writeConcernError : option WriteError)
| CommandError (code : Z) (message : string)
| ClientError.

Definition errors_of (e : Error) : list WriteError :=
  match e with
  | BulkWriteException wes wce =>
      match wce with Some w => w :: wes | None => wes end
  | CommandError c m => [{| WIndex := 0; Code := c; Message := m |}]
  | ClientError => []
  end.

(** [HasErrorCode]: some collected error has the code. *)
Definition HasErrorCode (e : Error) (code : Z) : bool :=
  existsb (fun w => Code w =? code) (errors_of e).

Definition contains (sub s : string) : bool :=
  match String.index 0 sub s with Some _ => true | None => false end.

Definition HasErrorCodeWithMessage (e : Error) (code : Z) (msg : string)
    : bool :=
  existsb (fun w => (Code w =? code) && contains msg (Message w))
    (errors_of e).

Definition IsDuplicateKeyError (e : Error) : bool :=
  HasErrorCode e 11000 || HasErrorCode e 11001 || HasErrorCode e 12582
  || HasErrorCodeWithMessage e 16460 " E11000 ".

End mongo.

(** A [bson.M] as the repository builds it for a query is a
    [gmap string bson.Cond]: a key is mapped to a string the field must
    equal, or to a document of comparison operators with their bounds. *)
Module bson.

Inductive Cond :=
| Eq (s : string)
| Ops (ops : gmap string Z).

End bson.

(* ===================================================================== *)
(** * Package repository *)
(* ===================================================================== *)

Module repository.

(** The [BlockCache] field is nil or the Redis cache. *)
Record MongoRepository := mkRepo { cache : option cache.RedisCache }.

(** The two collections and the Redis database. *)
Record World := mkWorld {
  transfersColl : list models.Transfer;
  processedColl : list models.ProcessedBlock;
  redis : gmap string string
}.

Inductive Error :=
| ErrBulkWrite (cause : mongo.Error)
| ErrFindOne
| ErrUpdateOne.

(** *** InsertTransfers *)

(** Key of the unique index [(tx_hash, log_index)]. *)
Definition index_key (t : models.Transfer) : string * Z :=
  (models.TxHash t, models.LogIndex t).

Definition has_key (t : models.Transfer) (coll : list models.Transfer)
    : bool :=
  existsb (fun u => bool_decide (index_key u = index_key t)) coll.

(** Server behaviour during one bulk write: an error of the whole
    command (nothing is written), an error the server raises for the
    document at a position for a reason other than the unique index, and
    a write-concern error. *)
Record BulkEnv := mkBulkEnv {
  command_error : option mongo.Error;
  doc_error : nat -> option Z;
  write_concern_error : option Z
}.

(** Unordered insertion: every document is tried; a document whose key
    is already present is rejected with code 11000 and the others are
    stored. *)
Fixpoint insert_unordered (doc_err : nat -> option Z) (i : nat)
    (docs coll : list models.Transfer)
    : list models.Transfer * list mongo.WriteError :=
  match docs with
  | [] => (coll, [])
  | d :: rest =>
      match doc_err i with
      | Some code =>
          let '(coll', es) := insert_unordered doc_err (S i) rest coll in
          (coll', mongo.mkWriteError i code "" :: es)
      | None =>
          if has_key d coll then
            let '(coll', es) := insert_unordered doc_err (S i) rest coll in
            (coll',
             mongo.mkWriteError i 11000 "E11000 duplicate key error" :: es)
          else insert_unordered doc_err (S i) rest (coll ++ [d])
      end
  end.

Definition BulkWrite (env : BulkEnv) (docs coll : list models.Transfer)
    : option mongo.Error * list models.Transfer :=
  match command_error env with
  | Some e => (Some e, coll)
  | None =>
      let '(coll', es) := insert_unordered (doc_error env) 0 docs coll in
      let wce :=
        (fun c => mongo.mkWriteError 0 c "") <$> write_concern_error env in
      match es, wce with
      | [], None => (None, coll')
      | _, _ => (Some (mongo.BulkWriteException es wce), coll')
      end
  end.

Definition InsertTransfers (r : MongoRepository) (env : BulkEnv)
    (transfers : list models.Transfer) (w : World)
    : option Error * World :=
  match transfers with
  | [] => (None, w)
  | _ =>
      let '(err, coll') := BulkWrite env transfers (transfersColl w) in
      let w' := {| transfersColl := coll';
                   processedColl := processedColl w;
                   redis := redis w |} in
      match err with
      | Some e =>
          if mongo.IsDuplicateKeyError e then (None, w')
          else (Some (ErrBulkWrite e), w')
      | None => (None, w')
      end
  end.

(** *** The cursor *)

(** Outcome of the calls one cursor operation makes: the Redis command on
    the calling path, the MongoDB command, the Redis command of the
    detached warm-up, and the clock. *)
Record CursorEnv := mkCursorEnv {
  redis_up : bool;
  mongo_up : bool;
  warmup_up : bool;
  now : Z
}.

(** [FindOne] with sort [block_number: -1]: the document with the
    greatest block number, if any. *)
Definition find_last (coll : list models.ProcessedBlock)
    : option models.ProcessedBlock :=
  foldl (fun best d =>
           match best with
           | Some b =>
               if models.PBlockNumber b <? models.PBlockNumber d
               then Some d else Some b
           | None => Some d
           end) None coll.

(** [UpdateOne] with filter [block_number = n], [$set] of both fields
    and upsert. *)
Definition upsert_block (n t : Z) (coll : list models.ProcessedBlock)
    : list models.ProcessedBlock :=
  if existsb (fun d => models.PBlockNumber d =? n) coll
  then map (fun d => if models.PBlockNumber d =? n
                     then models.mkProcessedBlock n t else d) coll
  else coll ++ [models.mkProcessedBlock n t].

Definition with_redis (w : World) (db : gmap string string) : World :=
  {| transfersColl := transfersColl w;
     processedColl := processedColl w;
     redis := db |}.

Definition GetLastProcessedBlock (r : MongoRepository) (env : CursorEnv)
    (w : World) : (Z + Error) * World :=
  let hit :=
    match cache r with
    | Some c =>
        match cache.GetLastProcessedBlock c (redis_up env) (redis w) with
        | inl blockNum => Some blockNum
        | inr _ => None
        end
    | None => None
    end in
  match hit with
  | Some blockNum => (inl blockNum, w)
  | None =>
      if negb (mongo_up env) then (inr ErrFindOne, w)
      else
        match find_last (processedColl w) with
        | None => (inl 0, w)
        | Some processed =>
            let n := models.PBlockNumber processed in
            let w' :=
              match cache r with
              | Some c =>
                  if 0 <? n
                  then with_redis w
                         (cache.SetLastProcessedBlock c (warmup_up env) n
                            (redis w)).2
                  else w
              | None => w
              end in
            (inl n, w')
        end
  end.

Definition SetLastProcessedBlock (r : MongoRepository) (env : CursorEnv)
    (blockNumber : Z) (w : World) : option Error * World :=
  if negb (mongo_up env) then (Some ErrUpdateOne, w)
  else
    let w1 := {| transfersColl := transfersColl w;
                 processedColl :=
                   upsert_block blockNumber (now env) (processedColl w);
                 redis := redis w |} in
    match cache r with
    | Some c =>
        (None,
         with_redis w1
           (cache.SetLastProcessedBlock c (redis_up env) blockNumber
              (redis w1)).2)
    | None => (None, w1)
    end.

(** The cache is present and enabled. *)
Definition enabled_cache (c : cache.RedisCache) : Prop :=
  cache.enabled c = true.

(** The server raises no error of its own: the only write errors are
    those of the unique index. *)
Definition no_faults (env : BulkEnv) : Prop :=
  command_error env = None /\ (forall i, doc_error env i = None) /\
  write_concern_error env = None.

(** A run of [InsertTransfers] calls, as the ingestion loop makes them,
    each with what its bulk write observes. *)
Fixpoint insert_batches (r : MongoRepository)
    (calls : list (BulkEnv * list models.Transfer)) (w : World)
    : list (option Error) * World :=
  match calls with
  | [] => ([], w)
  | call :: rest =>
      let '(err, w1) := InsertTransfers r call.1 call.2 w in
      let '(errs, w2) := insert_batches r rest w1 in
      (err :: errs, w2)
  end.

(** *** QueryTransfers *)

(** [start["$lte"] = bound] when the key already holds a document of
    operators, a new document otherwise. *)
Definition with_lte (key : string) (bound : Z) (filter : gmap string bson.Cond)
    : gmap string bson.Cond :=
  match filter !! key with
  | Some (bson.Ops start) =>
      <[key := bson.Ops (<["$lte" := bound]> start)]> filter
  | _ => <[key := bson.Ops {["$lte" := bound]}]> filter
  end.

Definition buildFilter (params : models.TransferQueryParams)
    : gmap string bson.Cond :=
  let filter : gmap string bson.Cond := ∅ in
  let filter :=
    if bool_decide (models.QToken params <> "")
    then <["token" := bson.Eq (models.QToken params)]> filter
    else filter in
  let filter :=
    if bool_decide (models.QFrom params <> "")
    then <["from" := bson.Eq (models.QFrom params)]> filter
    else filter in
  let filter :=
    if bool_decide (models.QTo params <> "")
    then <["to" := bson.Eq (models.QTo params)]> filter
    else filter in
  let filter :=
    match models.StartBlock params with
    | Some b => <["block_number" := bson.Ops {["$gte" := b]}]> filter
    | None => filter
    end in
  let filter :=
    match models.EndBlock params with
    | Some b => with_lte "block_number" b filter
    | None => filter
    end in
  let filter :=
    match models.StartTime params with
    | Some t => <["timestamp" := bson.Ops {["$gte" := t]}]> filter
    | None => filter
    end in
  match models.EndTime params with
  | Some t => with_lte "timestamp" t filter
  | None => filter
  end.

(** The stored document of a transfer, by BSON key: its string fields
    and its integer and date fields. *)
Definition field_string (t : models.Transfer) (key : string)
    : option string :=
  if bool_decide (key = "event_signature") then Some (models.EventSignature t)
  else if bool_decide (key = "token") then Some (models.Token t)
  else if bool_decide (key = "from") then Some (models.From t)
  else if bool_decide (key = "to") then Some (models.To t)
  else if bool_decide (key = "value_string") then Some (models.ValueString t)
  else if bool_decide (key = "tx_hash") then Some (models.TxHash t)
  else None.

Definition field_number (t : models.Transfer) (key : string) : option Z :=
  if bool_decide (key = "block_number") then Some (models.BlockNumber t)
  else if bool_decide (key = "tx_index") then Some (models.TxIndex t)
  else if bool_decide (key = "log_index") then Some (models.LogIndex t)
  else if bool_decide (key = "timestamp") then Some (models.Timestamp t)
  else if bool_decide (key = "created_at") then Some (models.CreatedAt t)
  else None.

(** The server's reading of a filter: every key must hold, a document
    of operators holds when each operator does. *)
Definition op_holds (v : Z) (op : string * Z) : bool :=
  if bool_decide (op.1 = "$gte") then op.2 <=? v
  else if bool_decide (op.1 = "$lte") then v <=? op.2
  else false.

Definition cond_holds (t : models.Transfer) (kc : string * bson.Cond)
    : bool :=
  match kc.2 with
  | bson.Eq s => bool_decide (field_string t kc.1 = Some s)
  | bson.Ops ops =>
      match field_number t kc.1 with
      | Some v => forallb (op_holds v) (map_to_list ops)
      | None => false
      end
  end.

Definition matches (filter : gmap string bson.Cond) (t : models.Transfer)
    : bool :=
  forallb (cond_holds t) (map_to_list filter).

(** The sort [{block_number: -1, log_index: 1}]. *)
Definition precedes (a b : models.Transfer) : Prop :=
  models.BlockNumber b < models.BlockNumber a \/
  (models.BlockNumber a = models.BlockNumber b /\
   models.LogIndex a <= models.LogIndex b).

#[global] Instance precedes_dec a b : Decision (precedes a b).
Proof. unfold precedes. apply _. Defined.

#[global] Instance precedes_trans : Transitive precedes.
Proof. intros a b c. unfold precedes. lia. Qed.

#[global] Instance precedes_total : Total precedes.
Proof. intros a b. unfold precedes. lia. Qed.

(** Outcome of the commands of one query: [CountDocuments], [Find], and
    the decoding of the found documents; [single_batch] is the number of
    documents the server puts into the one batch it returns when it is
    asked for a single batch. *)
Record QueryEnv := mkQueryEnv {
  count_up : bool;
  find_up : bool;
  decode_ok : bool;
  single_batch : nat
}.

Inductive QueryError :=
| ErrCount
| ErrFind
| ErrDecode.

(** [QueryTransfers]: the count of all matching documents, then the
    page.  The server refuses a negative skip; a limit of 0 is no limit.
    For a negative limit the driver sends its absolute value and asks
    for a single batch: the server returns the first documents only, as
    many as it puts into one batch and at most that absolute value.  The
    order of documents that agree on both sort keys is the server's
    choice; a merge sort of the collection order is taken as the model.
    Both commands see the same collection. *)
Definition QueryTransfers (r : MongoRepository) (env : QueryEnv)
    (params : models.TransferQueryParams) (w : World)
    : (list models.Transfer * Z) + QueryError :=
  let filter := buildFilter params in
  if negb (count_up env) then inr ErrCount
  else
    let found := List.filter (matches filter) (transfersColl w) in
    let count := Z.of_nat (length found) in
    if negb (find_up env) || (models.Offset params <? 0) then inr ErrFind
    else
      let sorted := merge_sort precedes found in
      let skipped := drop (Z.to_nat (models.Offset params)) sorted in
      let page :=
        if models.Limit params =? 0 then skipped
        else if 0 <? models.Limit params
        then take (Z.to_nat (models.Limit params)) skipped
        else take (Nat.min (Z.to_nat (Z.abs (models.Limit params)))
                     (single_batch env)) skipped in
      if negb (decode_ok env) then inr ErrDecode else inl (page, count).

(** What the parameters of a query ask of a transfer. *)
Definition satisfies (params : models.TransferQueryParams)
    (t : models.Transfer) : Prop :=
  (models.QToken params = "" \/ models.Token t = models.QToken params) /\
  (models.QFrom params = "" \/ models.From t = models.QFrom params) /\
  (models.QTo params = "" \/ models.To t = models.QTo params) /\
  (forall b, models.StartBlock params = Some b -> b <= models.BlockNumber t) /\
  (forall b, models.EndBlock params = Some b -> models.BlockNumber t <= b) /\
  (forall b, models.StartTime params = Some b -> b <= models.Timestamp t) /\
  (forall b, models.EndTime params = Some b -> models.Timestamp t <= b).

(** The part of the filter [buildFilter] makes of the three address
    parameters. *)
Definition address_filter (tk fr to : string) : gmap string bson.Cond :=
  let filter : gmap string bson.Cond := ∅ in
  let filter :=
    if bool_decide (tk <> "") then <["token" := bson.Eq tk]> filter
    else filter in
  let filter :=
    if bool_decide (fr <> "") then <["from" := bson.Eq fr]> filter
    else filter in
  if bool_decide (to <> "") then <["to" := bson.Eq to]> filter else filter.

(** The parameters of a page of a query. *)
Definition page_of (params : models.TransferQueryParams) (limit offset : Z)
    : models.TransferQueryParams :=
  {| models.QToken := models.QToken params;
     models.QFrom := models.QFrom params;
     models.QTo := models.QTo params;
     models.StartBlock := models.StartBlock params;
     models.EndBlock := models.EndBlock params;
     models.StartTime := models.StartTime params;
     models.EndTime := models.EndTime params;
     models.Limit := limit;
     models.Offset := offset |}.

End repository.

(* ===================================================================== *)
(** * Package stream: the event bus *)
(* ===================================================================== *)

Module stream.

(** A client channel [chan []byte]: its capacity and the messages sent
    but not yet received.  A send that does not block succeeds exactly
    when there is room; receivers are not part of the model, so a send
    on a channel of capacity 0 never succeeds. *)
Record Chan := mkChan {
  capacity : Z;
  queue : list (list byte)
}.

(** Channels are the keys of the [clients] map; [next_chan] numbers the
    channels [Subscribe] makes so that each one is a new key. *)
Record Stream := mkStream {
  clients : gmap nat Chan;
  buffer : list models.Transfer;
  bufferSize : Z;
  next_chan : nat
}.

(** [NewStream]; [make] panics on a negative capacity. *)
Definition NewStream (size : Z) : option Stream :=
  if size <? 0 then None
  else Some {| clients := ∅; buffer := []; bufferSize := size;
               next_chan := 0 |}.

(** The dynamic type of the argument of [Publish]. *)
Inductive Payload :=
| TransferPtr (t : models.Transfer)
| OtherValue.

Definition has_room (c : Chan) : bool :=
  Z.of_nat (length (queue c)) <? capacity c.

(** [select { case clientChan <- data: default: }]. *)
Definition try_send (data : list byte) (c : Chan) : Chan :=
  if has_room c
  then {| capacity := capacity c; queue := queue c ++ [data] |}
  else c.

Section Marshal.
(** [json.Marshal] of a transfer; [None] is an error. *)
Variable marshal : models.Transfer -> option (list byte).

Definition Publish (s : Stream) (transfer : Payload) : Stream :=
  match transfer with
  | OtherValue => s
  | TransferPtr t =>
      if bool_decide (size (clients s) = 0%nat) then
        if Z.of_nat (length (buffer s)) <? bufferSize s
        then {| clients := clients s; buffer := buffer s ++ [t];
                bufferSize := bufferSize s; next_chan := next_chan s |}
        else s
      else
        match marshal t with
        | None => s
        | Some data =>
            {| clients := try_send data <$> clients s;
               buffer := buffer s; bufferSize := bufferSize s;
               next_chan := next_chan s |}
        end
  end.

(** The registration part of [Subscribe]: a new channel of capacity
    [bufferSize] is added to the clients. *)
Definition Subscribe (s : Stream) : nat * Stream :=
  let ch := next_chan s in
  (ch,
   {| clients := <[ch := mkChan (bufferSize s) []]> (clients s);
      buffer := buffer s; bufferSize := bufferSize s;
      next_chan := S ch |}).

(** The goroutine [Subscribe] starts: the buffered transfers are sent
    in order; one that cannot be marshalled is skipped; when the
    channel has no room and nobody receives, the one-second timer fires
    and the goroutine returns. *)
Fixpoint replay_send (buffered : list models.Transfer) (c : Chan) : Chan :=
  match buffered with
  | [] => c
  | t :: rest =>
      match marshal t with
      | None => replay_send rest c
      | Some data =>
          if has_room c
          then replay_send rest
                 {| capacity := capacity c; queue := queue c ++ [data] |}
          else c
      end
  end.

Definition replay (ch : nat) (s : Stream) : Stream :=
  {| clients := alter (replay_send (buffer s)) ch (clients s);
     buffer := buffer s; bufferSize := bufferSize s;
     next_chan := next_chan s |}.

(** A subscription followed at once by its replay. *)
Definition SubscribeAndReplay (s : Stream) : nat * Stream :=
  let '(ch, s') := Subscribe s in (ch, replay ch s').

(** What is waiting in a client's channel. *)
Definition pending (ch : nat) (s : Stream) : list (list byte) :=
  match clients s !! ch with
  | Some c => queue c
  | None => []
  end.
End Marshal.

(** The [cleanup] function returned by [Subscribe]. *)
Definition cleanup (ch : nat) (s : Stream) : Stream :=
  {| clients := delete ch (clients s); buffer := buffer s;
     bufferSize := bufferSize s; next_chan := next_chan s |}.

Definition ClientCount (s : Stream) : nat := size (clients s).

Definition ClearBuffer (s : Stream) : Stream :=
  {| clients := clients s; buffer := []; bufferSize := bufferSize s;
     next_chan := next_chan s |}.

(** One tick of [StartBackgroundCleanup]: without clients, a buffer
    longer than half its size is cut to [buffer[len(buffer)/2:]]. *)
Definition StartBackgroundCleanup_tick (s : Stream) : Stream :=
  if bool_decide (ClientCount s = 0%nat) && (0 <? length (buffer s))%nat then
    if Z.quot (bufferSize s) 2 <? Z.of_nat (length (buffer s))
    then {| clients := clients s;
            buffer := drop (length (buffer s) / 2) (buffer s);
            bufferSize := bufferSize s; next_chan := next_chan s |}
    else s
  else s.

(** Publishing a sequence of transfers, oldest first. *)
Definition publish_all (marshal : models.Transfer -> option (list byte))
    (s : Stream) (ts : list models.Transfer) : Stream :=
  foldl (fun st t => Publish marshal st (TransferPtr t)) s ts.

(** The replay buffer as the specification words it: a bounded ring that
    keeps the most recent [n] records, dropping the oldest on overflow. *)
Definition spec_ring (n : Z) (ts : list models.Transfer)
    : list models.Transfer :=
  drop (length ts - Z.to_nat n)%nat ts.

End stream.

(* ===================================================================== *)
(** * Package service: the ingestion loop and its adaptive batch size *)
(* ===================================================================== *)

Module service.
Import GoInt.

Record IngestionService := mkService {
  startBlock : Z;
  blockBatchSize : Z;
  resetStartBlock : bool;
  adaptiveBatch : bool;
  batchMinSize : Z;
  batchMaxSize : Z;
  batchSuccessStreak : Z;
  batchFailureBackoff : Z;
  currentBatchSize : Z;
  successCount : Z;
  failureCount : Z
}.

Definition NewIngestionService (startBlock blockBatchSize : Z)
    (resetStartBlock adaptiveBatch : bool)
    (batchMinSize batchMaxSize batchSuccessStreak batchFailureBackoff : Z)
    : IngestionService :=
  let currentSize := if blockBatchSize =? 0 then 10 else blockBatchSize in
  {| startBlock := startBlock; blockBatchSize := blockBatchSize;
     resetStartBlock := resetStartBlock; adaptiveBatch := adaptiveBatch;
     batchMinSize := batchMinSize; batchMaxSize := batchMaxSize;
     batchSuccessStreak := batchSuccessStreak;
     batchFailureBackoff := batchFailureBackoff;
     currentBatchSize := currentSize;
     successCount := 0; failureCount := 0 |}.

Definition with_adaptive (s : IngestionService) (size sc fc : Z)
    : IngestionService :=
  {| startBlock := startBlock s; blockBatchSize := blockBatchSize s;
     resetStartBlock := resetStartBlock s;
     adaptiveBatch := adaptiveBatch s;
     batchMinSize := batchMinSize s; batchMaxSize := batchMaxSize s;
     batchSuccessStreak := batchSuccessStreak s;
     batchFailureBackoff := batchFailureBackoff s;
     currentBatchSize := size; successCount := sc; failureCount := fc |}.

Definition adjustBatchSizeOnSuccess (s : IngestionService)
    : IngestionService :=
  let sc := wrap_int64 (successCount s + 1) in
  if batchSuccessStreak s <=? sc then
    let doubled := wrap_uint64 (currentBatchSize s * 2) in
    let newSize :=
      if batchMaxSize s <? doubled then batchMaxSize s else doubled in
    if negb (newSize =? currentBatchSize s)
    then with_adaptive s newSize 0 0
    else with_adaptive s (currentBatchSize s) sc 0
  else with_adaptive s (currentBatchSize s) sc 0.

(** [None] is the run-time panic of an integer division by zero. *)
Definition adjustBatchSizeOnFailure (s : IngestionService)
    : option IngestionService :=
  let fc := wrap_int64 (failureCount s + 1) in
  let divisor := uint64_of_int (batchFailureBackoff s) in
  if divisor =? 0 then None
  else
    let quotient := currentBatchSize s / divisor in
    let newSize :=
      if quotient <? batchMinSize s then batchMinSize s else quotient in
    if negb (newSize =? currentBatchSize s)
    then Some (with_adaptive s newSize 0 0)
    else Some (with_adaptive s (currentBatchSize s) 0 fc).

(** Outcome of the calls one tick makes: the latest block number, the
    transfers fetched for the chosen range, the bulk insertion and the
    cursor write ([None] and [false] are errors). *)
Record TickEnv := mkTickEnv {
  latest : option Z;
  fetched : option (list models.Transfer);
  insert_ok : bool;
  cursor_ok : bool
}.

Inductive TickError :=
| ErrLatestBlock
| ErrFetch
| ErrInsert
| ErrSetLastProcessed.

(** The local [batchSize] of [processBlocks]. *)
Definition tick_batch_size (s : IngestionService) : Z :=
  if currentBatchSize s =? 0
  then (if blockBatchSize s =? 0 then 10 else blockBatchSize s)
  else currentBatchSize s.

Definition tick_to_block (s : IngestionService) (fromBlock latestBlock : Z)
    : Z :=
  let toBlock := wrap_uint64 (fromBlock + tick_batch_size s - 1) in
  if latestBlock <? toBlock then latestBlock else toBlock.

Definition on_failure (s : IngestionService) : option IngestionService :=
  if adaptiveBatch s then adjustBatchSizeOnFailure s else Some s.

(** [processBlocks]: the new service state, the block to continue from
    and the error, if any; [None] is a panic. *)
Definition processBlocks (s : IngestionService) (env : TickEnv)
    (fromBlock : Z) : option (IngestionService * Z * option TickError) :=
  match latest env with
  | None => Some (s, fromBlock, Some ErrLatestBlock)
  | Some latestBlock =>
      if latestBlock <? fromBlock then Some (s, fromBlock, None)
      else
        let toBlock := tick_to_block s fromBlock latestBlock in
        match fetched env with
        | None =>
            s' ← on_failure s; Some (s', fromBlock, Some ErrFetch)
        | Some transfers =>
            if (0 <? length transfers)%nat && negb (insert_ok env) then
              s' ← on_failure s; Some (s', fromBlock, Some ErrInsert)
            else if negb (cursor_ok env) then
              Some (s, fromBlock, Some ErrSetLastProcessed)
            else
              let s' :=
                if adaptiveBatch s then adjustBatchSizeOnSuccess s else s in
              Some (s', wrap_uint64 (toBlock + 1), None)
        end
  end.

(** The ticks of [Start] after the first block was chosen: a failed tick
    keeps the current block.  The result lists the batch size each tick
    started with. *)
Fixpoint run (s : IngestionService) (currentBlock : Z) (envs : list TickEnv)
    : option (list Z * IngestionService * Z) :=
  match envs with
  | [] => Some ([], s, currentBlock)
  | env :: rest =>
      '(s', nextBlock, err) ← processBlocks s env currentBlock;
      '(sizes, s'', blk) ←
        run s' (match err with None => nextBlock | Some _ => currentBlock end)
          rest;
      Some (tick_batch_size s :: sizes, s'', blk)
  end.

(** The block [Start] begins with: the configured start block when a
    reset is asked for or nothing was processed yet, the block after the
    last processed one otherwise.  The repository is asked only without
    reset. *)
Definition Start_block (s : IngestionService)
    (r : repository.MongoRepository) (env : repository.CursorEnv)
    (w : repository.World)
    : (Z + repository.Error) * repository.World :=
  if resetStartBlock s then (inl (startBlock s), w)
  else
    match repository.GetLastProcessedBlock r env w with
    | (inr e, w') => (inr e, w')
    | (inl lastBlock, w') =>
        (inl (if 0 <? lastBlock then wrap_uint64 (lastBlock + 1)
              else startBlock s), w')
    end.

(** ** Notions used in the statements about this package *)

(** The configuration an adjustment never changes. *)
Definition same_config (s s' : IngestionService) : Prop :=
  blockBatchSize s' = blockBatchSize s /\
  adaptiveBatch s' = adaptiveBatch s /\
  batchMinSize s' = batchMinSize s /\
  batchMaxSize s' = batchMaxSize s /\
  batchSuccessStreak s' = batchSuccessStreak s /\
  batchFailureBackoff s' = batchFailureBackoff s.

(** The batch size a tick uses when the current size is zero. *)
Definition fallback_size (s : IngestionService) : Z :=
  if blockBatchSize s =? 0 then 10 else blockBatchSize s.

(** Adaptive mode with a usable divisor and sizes inside [[lo, hi]]. *)
Definition bounded (lo hi : Z) (s : IngestionService) : Prop :=
  adaptiveBatch s = true /\
  batchMinSize s = lo /\ batchMaxSize s = hi /\
  1 <= batchFailureBackoff s <= max_int64 /\
  lo <= fallback_size s <= hi /\
  lo <= currentBatchSize s <= hi.

(** A tick that runs to the end: blocks are available, the fetch works,
    the insertion (made only for a non-empty batch) works and the cursor
    is written. *)
Definition tick_succeeds (env : TickEnv) (fromBlock : Z) : Prop :=
  exists l ts,
    latest env = Some l /\ fromBlock <= l /\ fetched env = Some ts /\
    (ts = [] \/ insert_ok env = true) /\ cursor_ok env = true.

(** A tick that fails in the fetch or in the insertion. *)
Definition tick_adaptive_failure (env : TickEnv) (fromBlock : Z) : Prop :=
  exists l,
    latest env = Some l /\ fromBlock <= l /\
    (fetched env = None \/
     exists ts, fetched env = Some ts /\ ts <> [] /\ insert_ok env = false).

(** The first batch size as the specification words it: the configured
    size clamped into [[lo, hi]]. *)
Definition spec_initial_size (blockBatchSize lo hi : Z) : Z :=
  Z.max lo (Z.min blockBatchSize hi).

(** The batch sizes of a run and the size it ends with. *)
Definition sizes_of (r : option (list Z * IngestionService * Z))
    : option (list Z * Z) :=
  '(sizes, s, _) ← r; Some (sizes, currentBatchSize s).

End service.

(* ===================================================================== *)
(** * Package service: the transfer service of the read API *)
(* ===================================================================== *)

Module transfer_service.

Inductive Error :=
| ErrInsertTransfers (cause : repository.Error)
| ErrQueryTransfers (cause : repository.QueryError).

Definition ProcessTransfers (r : repository.MongoRepository)
    (env : repository.BulkEnv) (transfers : list models.Transfer)
    (w : repository.World) : option Error * repository.World :=
  match transfers with
  | [] => (None, w)
  | _ =>
      match repository.InsertTransfers r env transfers w with
      | (Some e, w') => (Some (ErrInsertTransfers e), w')
      | (None, w') => (None, w')
      end
  end.

(** The limit the repository is asked with: 100 for a limit of 0 or
    less, at most 1000. *)
Definition effective_limit (limit : Z) : Z :=
  let limit := if limit <=? 0 then 100 else limit in
  if 1000 <? limit then 1000 else limit.

Definition with_limit (params : models.TransferQueryParams) (limit : Z)
    : models.TransferQueryParams :=
  {| models.QToken := models.QToken params;
     models.QFrom := models.QFrom params;
     models.QTo := models.QTo params;
     models.StartBlock := models.StartBlock params;
     models.EndBlock := models.EndBlock params;
     models.StartTime := models.StartTime params;
     models.EndTime := models.EndTime params;
     models.Limit := limit;
     models.Offset := models.Offset params |}.

Definition QueryTransfers (r : repository.MongoRepository)
    (env : repository.QueryEnv) (params : models.TransferQueryParams)
    (w : repository.World) : (list models.Transfer * Z) + Error :=
  let params := with_limit params (effective_limit (models.Limit params)) in
  match repository.QueryTransfers r env params w with
  | inr e => inr (ErrQueryTransfers e)
  | inl (transfers, total) => inl (transfers, total)
  end.

End transfer_service.

(* ===================================================================== *)
(** * Package handler: GET /api/v1/transfers *)
(* ===================================================================== *)

Module handler.

(** [c.Query(key)]: the value of the key in the query string, or the
    empty string. *)
Definition Query (q : gmap string string) (key : string) : string :=
  default "" (q !! key).

Inductive Response :=
| StatusOK (data : list models.Transfer) (total limit offset : Z)
| StatusInternalServerError.

Section Handler.
(** [time.Parse(time.RFC3339, s)] as Unix time; [None] is an error.
    Instants with a fraction of a second are outside the model. *)
Variable parse_time : string -> option Z.

(** A parameter that is absent, empty or refused by its parser is
    ignored. *)
Definition query_params (q : gmap string string)
    : models.TransferQueryParams :=
  {| models.QToken := Query q "token";
     models.QFrom := Query q "from";
     models.QTo := Query q "to";
     models.StartBlock := strconv.ParseUint (Query q "start_block");
     models.EndBlock := strconv.ParseUint (Query q "end_block");
     models.StartTime :=
       if bool_decide (Query q "start_time" <> "")
       then parse_time (Query q "start_time") else None;
     models.EndTime :=
       if bool_decide (Query q "end_time" <> "")
       then parse_time (Query q "end_time") else None;
     models.Limit := default 100 (strconv.Atoi (Query q "limit"));
     models.Offset := default 0 (strconv.Atoi (Query q "offset")) |}.

Definition GetTransfers (r : repository.MongoRepository)
    (env : repository.QueryEnv) (q : gmap string string)
    (w : repository.World) : Response :=
  let params := query_params q in
  match transfer_service.QueryTransfers r env params w with
  | inr _ => StatusInternalServerError
  | inl (transfers, total) =>
      StatusOK transfers total (models.Limit params) (models.Offset params)
  end.
End Handler.

End handler.

(* ===================================================================== *)
(** * Package config: environment and provider file *)
(* ===================================================================== *)

Module config.
Import GoInt.

Record ServerConfig := mkServerConfig { Port : string }.

Record EthereumConfig := mkEthereumConfig {
  RPCURL : string;
  RPCConfig : string
}.

Record MongoDBConfig := mkMongoDBConfig {
  URI : string;
  Database : string
}.

(** The fields [URI] and [Enabled] of [RedisConfig]. *)
Record RedisConfig := mkRedisConfig {
  RedisURI : string;
  RedisEnabled : bool
}.

Record LoggingConfig := mkLoggingConfig {
  Level : string;
  ToFile : bool;
  FilePath : string;
  Format : string;
  MaxSizeMB : Z;
  MaxBackups : Z;
  MaxAgeDays : Z
}.

Record IngestionConfig := mkIngestionConfig {
  StartBlock : Z;
  PollInterval : Z;
  BlockBatchSize : Z;
  ResetStartBlock : bool;
  AdaptiveBatch : bool;
  BatchMinSize : Z;
  BatchMaxSize : Z;
  BatchSuccessStreak : Z;
  BatchFailureBackoff : Z
}.

(** The fields [Enabled], [Type], [Route], [BufferSize] and [Port] of
    [StreamingConfig]. *)
Record StreamingConfig := mkStreamingConfig {
  StreamEnabled : bool;
  StreamType : string;
  Route : string;
  BufferSize : Z;
  StreamPort : string
}.

Record Config := mkConfig {
  Server : ServerConfig;
  Ethereum : EthereumConfig;
  MongoDB : MongoDBConfig;
  Redis : RedisConfig;
  Ingestion : IngestionConfig;
  Logging : LoggingConfig;
  Streaming : StreamingConfig
}.

Inductive LoadError :=
| ErrStartBlock
| ErrPollInterval
| ErrBlockBatchSize
| ErrBatchMinSize
| ErrBatchMaxSize
| ErrBatchSuccessStreak
| ErrBatchFailureBackoff
| ErrNoRPC.

(** The process environment, after the optional [.env] file was merged
    into it, is a map; an unset variable reads as the empty string. *)
Definition getEnv (env : gmap string string) (key defaultValue : string)
    : string :=
  match env !! key with
  | Some value => if bool_decide (value <> "") then value else defaultValue
  | None => defaultValue
  end.

Definition flag (value : string) : bool :=
  bool_decide (value = "true") || bool_decide (value = "1").

(** A value that must parse, with the error to return otherwise. *)
Definition parsed {A : Type} (e : LoadError) (o : option A)
    : A + LoadError :=
  match o with Some a => inl a | None => inr e end.

Definition bind {A B : Type} (x : A + LoadError) (k : A -> B + LoadError)
    : B + LoadError :=
  match x with inl a => k a | inr e => inr e end.

Notation "x <<- e ; k" := (bind e (fun x => k))
  (at level 20, e at level 100, k at level 200, only parsing).

Definition Load (env : gmap string string) : Config + LoadError :=
  let server := {| Port := getEnv env "SERVER_PORT" "8080" |} in
  let ethereum := {| RPCURL := getEnv env "ETH_RPC_URL" "";
                     RPCConfig := getEnv env "RPC_CONFIG" "" |} in
  let mongodb :=
    {| URI := getEnv env "MONGODB_URI" "mongodb://localhost:27017";
       Database := getEnv env "MONGODB_DB" "ethereum" |} in
  let redis :=
    {| RedisURI := getEnv env "REDIS_URI" "redis://localhost:6379";
       RedisEnabled := flag (getEnv env "USE_REDIS" "true") |} in
  let logging :=
    {| Level := getEnv env "LOG_LEVEL" "info";
       ToFile := flag (getEnv env "LOG_TO_FILE" "false");
       FilePath := getEnv env "LOG_FILE_PATH" "logs/app.log";
       Format := getEnv env "LOG_FORMAT" "text";
       MaxSizeMB :=
         default 100 (strconv.Atoi (getEnv env "LOG_MAX_SIZE_MB" "100"));
       MaxBackups :=
         default 7 (strconv.Atoi (getEnv env "LOG_MAX_BACKUPS" "7"));
       MaxAgeDays :=
         default 30 (strconv.Atoi (getEnv env "LOG_MAX_AGE_DAYS" "30")) |} in
  let streaming :=
    {| StreamEnabled := flag (getEnv env "ENABLE_STREAM" "false");
       StreamType := getEnv env "STREAM_TYPE" "ws";
       Route := getEnv env "STREAM_ROUTE" "/ws";
       BufferSize :=
         default 1024 (strconv.Atoi (getEnv env "STREAM_BUFFER" "1024"));
       StreamPort := getEnv env "STREAM_PORT" "8090" |} in
  startBlock <<-
    parsed ErrStartBlock (strconv.ParseUint (getEnv env "START_BLOCK" "0"));
  pollInterval <<-
    parsed ErrPollInterval (strconv.Atoi (getEnv env "POLL_INTERVAL" "12"));
  blockBatchSize <<-
    parsed ErrBlockBatchSize
      (strconv.ParseUint (getEnv env "BLOCK_BATCH_SIZE" "10"));
  let blockBatchSize := if blockBatchSize =? 0 then 10 else blockBatchSize in
  let blockBatchSize :=
    if 100 <? blockBatchSize then 100 else blockBatchSize in
  let adaptiveBatch := flag (getEnv env "ADAPTIVE_BATCH" "true") in
  batchMinSize <<-
    parsed ErrBatchMinSize
      (strconv.ParseUint (getEnv env "BATCH_MIN_SIZE" "1"));
  batchMaxSize <<-
    parsed ErrBatchMaxSize
      (strconv.ParseUint (getEnv env "BATCH_MAX_SIZE" "100"));
  batchSuccessStreak <<-
    parsed ErrBatchSuccessStreak
      (strconv.Atoi (getEnv env "BATCH_SUCCESS_STREAK" "3"));
  batchFailureBackoff <<-
    parsed ErrBatchFailureBackoff
      (strconv.Atoi (getEnv env "BATCH_FAILURE_BACKOFF" "2"));
  if bool_decide (RPCConfig ethereum = "")
     && bool_decide (RPCURL ethereum = "")
  then inr ErrNoRPC
  else
    inl {| Server := server; Ethereum := ethereum; MongoDB := mongodb;
           Redis := redis;
           Ingestion :=
             {| StartBlock := startBlock;
                PollInterval := wrap_int64 (pollInterval * 1000000000);
                BlockBatchSize := blockBatchSize;
                ResetStartBlock :=
                  flag (getEnv env "RESET_START_BLOCK" "false");
                AdaptiveBatch := adaptiveBatch;
                BatchMinSize :=
                  if adaptiveBatch then batchMinSize else blockBatchSize;
                BatchMaxSize :=
                  if adaptiveBatch then batchMaxSize else blockBatchSize;
                BatchSuccessStreak := batchSuccessStreak;
                BatchFailureBackoff := batchFailureBackoff |};
           Logging := logging; Streaming := streaming |}.

(** ** The provider file *)

Record ProviderConfig := mkProviderConfig {
  Name : string;
  URL : string;
  Weight : Z;
  MaxRange : Z;
  Timeout : Z
}.

(** The field [Timeout] of [CircuitBreakerYAML] is [CBTimeout]. *)
Record CircuitBreakerYAML := mkCircuitBreakerYAML {
  FailureThreshold : Z;
  SuccessThreshold : Z;
  CBTimeout : Z;
  HalfOpenMaxCalls : Z
}.

Record ProvidersConfig := mkProvidersConfig {
  Providers : list ProviderConfig;
  CircuitBreaker : CircuitBreakerYAML
}.

(** What reading and parsing the file gives. *)
Inductive FileOutcome :=
| Unreadable
| Malformed
| Parsed (config : ProvidersConfig).

Inductive ProvidersError :=
| ErrNoFileNoFallback
| ErrFallbackProvider
| ErrParse
| ErrNoProviders
| ErrCreateProvider (name : string)
| ErrNoValidProviders.

Section Dial.
(** Whether [ethclient.Dial] succeeds for a URL. *)
Variable dial : string -> bool.

(** The loop over the configured providers: an entry without URL is
    skipped, zero fields take their defaults, a failed dial ends the
    loop with an error. *)
Fixpoint create_providers (cbConfig : ethereum.CircuitBreakerConfig)
    (configs : list ProviderConfig)
    : list ethereum.Provider + ProvidersError :=
  match configs with
  | [] => inl []
  | pConfig :: rest =>
      if bool_decide (URL pConfig = "") then create_providers cbConfig rest
      else
        let weight := if Weight pConfig =? 0 then 1 else Weight pConfig in
        let maxRange :=
          if MaxRange pConfig =? 0 then 10 else MaxRange pConfig in
        let timeout :=
          if Timeout pConfig =? 0 then 30 * 1000000000
          else Timeout pConfig in
        if negb (dial (URL pConfig))
        then inr (ErrCreateProvider (Name pConfig))
        else
          match create_providers cbConfig rest with
          | inl providers =>
              inl (ethereum.NewProvider (Name pConfig) (URL pConfig)
                     weight maxRange timeout cbConfig :: providers)
          | inr e => inr e
          end
  end.

Definition LoadProvidersFromYAML (file : FileOutcome) (fallbackURL : string)
    : list ethereum.Provider + ProvidersError :=
  match file with
  | Unreadable =>
      if bool_decide (fallbackURL = "") then inr ErrNoFileNoFallback
      else if negb (dial fallbackURL) then inr ErrFallbackProvider
      else
        inl [ethereum.NewProvider "default" fallbackURL 10 10
               (30 * 1000000000) ethereum.DefaultCircuitBreakerConfig]
  | Malformed => inr ErrParse
  | Parsed config =>
      match Providers config with
      | [] => inr ErrNoProviders
      | _ =>
          let cb := CircuitBreaker config in
          let cbConfig :=
            if FailureThreshold cb =? 0
            then ethereum.DefaultCircuitBreakerConfig
            else
              {| ethereum.FailureThreshold := FailureThreshold cb;
                 ethereum.SuccessThreshold := SuccessThreshold cb;
                 ethereum.CBTimeout := CBTimeout cb;
                 ethereum.HalfOpenMaxCalls := HalfOpenMaxCalls cb |} in
          match create_providers cbConfig (Providers config) with
          | inr e => inr e
          | inl [] => inr ErrNoValidProviders
          | inl providers => inl providers
          end
      end
  end.
End Dial.

(** What holds of every provider the loader creates: it has a URL that
    could be dialled, non-zero weight, range and timeout, and a closed
    breaker with a non-zero failure threshold. *)
Definition loaded (dial : string -> bool) (p : ethereum.Provider) : Prop :=
  ethereum.URL p <> "" /\ dial (ethereum.URL p) = true /\
  ethereum.Weight p <> 0 /\ ethereum.MaxRange p <> 0 /\
  ethereum.Timeout p <> 0 /\
  ethereum.state p = ethereum.StateHealthy /\
  ethereum.failureCount p = 0 /\ ethereum.successCount p = 0 /\
  ethereum.failureThreshold p <> 0.

End config.

(* ===================================================================== *)
(** * Package main: how the parts are put together *)
(* ===================================================================== *)

Module main.


(** The provider pool of [main]: built from the provider file when
    [RPC_CONFIG] is set; [None] is the single client of the legacy
    mode. *)
Definition provider_pool (dial : string -> bool)
    (file : config.FileOutcome) (cfg : config.Config)
    : option (ethereum.ProviderPool + config.ProvidersError) :=
  if bool_decide (config.RPCConfig (config.Ethereum cfg) <> "") then
    Some match config.LoadProvidersFromYAML dial file
                 (config.RPCURL (config.Ethereum cfg)) with
         | inl providers => inl (ethereum.NewProviderPool providers)
         | inr e => inr e
         end
  else None.

End main.

(* ===================================================================== *)
(** * Concrete configurations used in examples *)
(* ===================================================================== *)

Module examples.

(** ** Providers and pools *)

Definition cb3 : ethereum.CircuitBreakerConfig :=
  {| ethereum.FailureThreshold := 3; ethereum.SuccessThreshold := 1;
     ethereum.CBTimeout := 60; ethereum.HalfOpenMaxCalls := 3 |}.

Definition provA : ethereum.Provider :=
  ethereum.NewProvider "A" "http://a" 10 5 30 cb3.
Definition provB : ethereum.Provider :=
  ethereum.NewProvider "B" "http://b" 1 100 30 cb3.

(** [provA] after three failures and an [IsHealthy] call made once the
    breaker timeout has passed. *)
Definition probing_provider : ethereum.Provider :=
  (ethereum.IsHealthy 100 (ethereum.failures [1; 2; 3] provA)).2.

(** Every RPC that is made succeeds. *)
Definition env_all_up : ethereum.CallEnv (list nat) :=
  {| ethereum.select_time := fun _ => 10;
     ethereum.record_time := fun _ => 11;
     ethereum.rpc := fun _ _ => Some [7%nat];
     ethereum.ctx_done := fun _ => false |}.

Definition pool_AB : ethereum.ProviderPool :=
  ethereum.NewProviderPool [provB; provA].

Definition pool_tripped : ethereum.ProviderPool :=
  ethereum.NewProviderPool
    [ethereum.failures [1; 2; 3] provB; ethereum.failures [1; 2; 3] provA].

(** ** Logs and transfers *)

(** The 32-byte big-endian form of an integer. *)
Definition uint256_bytes (v : Z) : list byte :=
  (fun i =>
     hexutil.byte_of_N (Z.to_N ((v / 256 ^ Z.of_nat (31 - i)) mod 256)))
    <$> seq 0 32.

Definition sample_address : list byte :=
  replicate 19 "171"%byte ++ ["205"%byte].

Definition sample_log (v : Z) : types.Log :=
  {| types.Address := sample_address;
     types.Topics :=
       [ethereum.ERC20TransferEventSignature;
        replicate 12 "000"%byte ++ sample_address;
        replicate 12 "000"%byte ++ replicate 20 "239"%byte];
     types.Data := uint256_bytes v;
     types.BlockNumber := 7;
     types.TxHash := replicate 32 "018"%byte;
     types.TxIndex := 1;
     types.Index := 2 |}.

Definition sample_transfer (i : Z) : models.Transfer :=
  {| models.EventSignature := "Transfer"; models.Token := "0x01";
     models.From := "0x02"; models.To := "0x03";
     models.Value := primitive.mkDecimal128 i 0;
     models.ValueString := strconv.FormatUint i;
     models.ValueDecimal := big.mkFloat64 0 0;
     models.BlockNumber := 1; models.TxHash := "0xaa"; models.TxIndex := 0;
     models.LogIndex := i; models.Timestamp := 0; models.CreatedAt := 0 |}.

(** The log [sample_log v] in another block. *)
Definition sample_log_at (bn v : Z) : types.Log :=
  {| types.Address := types.Address (sample_log v);
     types.Topics := types.Topics (sample_log v);
     types.Data := types.Data (sample_log v);
     types.BlockNumber := bn;
     types.TxHash := types.TxHash (sample_log v);
     types.TxIndex := types.TxIndex (sample_log v);
     types.Index := types.Index (sample_log v) |}.

(** ** Fetcher *)

(** A stand-in for Keccak-256. *)
Definition no_hash (_ : list ascii) : list byte := [].

(** The range holds three logs, of blocks 7, 8 and 7 again; block 7 was
    produced at 1700000000 and every block twelve seconds after the one
    before; every clock reads 100. *)
Definition fetch_env : fetcher.FetchEnv :=
  {| fetcher.filter_logs := fun _ _ =>
       Some [sample_log_at 7 1; sample_log_at 8 2; sample_log_at 7 3];
     fetcher.block_time := fun bn => Some (1700000000 + 12 * (bn - 7));
     fetcher.lookup_clock := fun _ => 100;
     fetcher.parse_clock := fun _ => 100;
     fetcher.store_clock := fun _ => 100;
     fetcher.delete_late := fun _ => false |}.

(** A fetcher whose cache holds the time stamp of block 7, stored at
    time 50 with a time-to-live of 300. *)
Definition warm_fetcher : fetcher.Fetcher :=
  {| fetcher.cache :=
       headercache.Set_ 50 7 1700000000
         (headercache.NewBlockHeaderCache 300) |}.

(** ** Repository *)

Definition repo_plain : repository.MongoRepository :=
  {| repository.cache := None |}.
Definition repo_cached : repository.MongoRepository :=
  {| repository.cache := Some {| cache.enabled := true |} |}.

Definition world_empty : repository.World :=
  {| repository.transfersColl := []; repository.processedColl := [];
     repository.redis := ∅ |}.
Definition world_one : repository.World :=
  {| repository.transfersColl := [sample_transfer 1];
     repository.processedColl := []; repository.redis := ∅ |}.

Definition env_up : repository.CursorEnv :=
  {| repository.redis_up := true; repository.mongo_up := true;
     repository.warmup_up := true; repository.now := 1 |}.
(** MongoDB answers, the Redis command fails. *)
Definition env_redis_down : repository.CursorEnv :=
  {| repository.redis_up := false; repository.mongo_up := true;
     repository.warmup_up := false; repository.now := 2 |}.

Definition world_after_write : repository.World :=
  (repository.SetLastProcessedBlock repo_cached env_redis_down 100
     world_empty).2.
Definition world_after_two_writes : repository.World :=
  (repository.SetLastProcessedBlock repo_cached env_redis_down 100
     (repository.SetLastProcessedBlock repo_cached env_up 50
        world_empty).2).2.

(** The second document of the batch is rejected by the server with
    code 121 (document validation failure). *)
Definition env_second_rejected : repository.BulkEnv :=
  {| repository.command_error := None;
     repository.doc_error := fun i => if (i =? 1)%nat then Some 121 else None;
     repository.write_concern_error := None |}.

(** The server raises no error of its own. *)
Definition env_no_faults : repository.BulkEnv :=
  {| repository.command_error := None;
     repository.doc_error := fun _ => None;
     repository.write_concern_error := None |}.

(** ** Queries *)

Definition world_three : repository.World :=
  {| repository.transfersColl :=
       [sample_transfer 3; sample_transfer 1; sample_transfer 2];
     repository.processedColl := []; repository.redis := ∅ |}.

Definition query_up : repository.QueryEnv :=
  {| repository.count_up := true; repository.find_up := true;
     repository.decode_ok := true; repository.single_batch := 101 |}.

(** No filter, the given page. *)
Definition all_transfers (limit offset : Z) : models.TransferQueryParams :=
  {| models.QToken := ""; models.QFrom := ""; models.QTo := "";
     models.StartBlock := None; models.EndBlock := None;
     models.StartTime := None; models.EndTime := None;
     models.Limit := limit; models.Offset := offset |}.

(** The query string [?limit=2]. *)
Definition query_limit_2 : gmap string string := {[ "limit" := "2" ]}.

Definition no_time (_ : string) : option Z := None.

(** ** Configuration *)

(** Only the two RPC variables are set. *)
Definition process_env : gmap string string :=
  {[ "ETH_RPC_URL" := "http://node"; "RPC_CONFIG" := "providers.yaml" ]}.

Definition default_config : config.Config :=
  {| config.Server := {| config.Port := "8080" |};
     config.Ethereum := {| config.RPCURL := "http://node";
                           config.RPCConfig := "providers.yaml" |};
     config.MongoDB := {| config.URI := "mongodb://localhost:27017";
                          config.Database := "ethereum" |};
     config.Redis := {| config.RedisURI := "redis://localhost:6379";
                        config.RedisEnabled := true |};
     config.Ingestion :=
       {| config.StartBlock := 0;
          config.PollInterval := 12000000000;
          config.BlockBatchSize := 10;
          config.ResetStartBlock := false;
          config.AdaptiveBatch := true;
          config.BatchMinSize := 1;
          config.BatchMaxSize := 100;
          config.BatchSuccessStreak := 3;
          config.BatchFailureBackoff := 2 |};
     config.Logging :=
       {| config.Level := "info"; config.ToFile := false;
          config.FilePath := "logs/app.log"; config.Format := "text";
          config.MaxSizeMB := 100; config.MaxBackups := 7;
          config.MaxAgeDays := 30 |};
     config.Streaming :=
       {| config.StreamEnabled := false; config.StreamType := "ws";
          config.Route := "/ws"; config.BufferSize := 1024;
          config.StreamPort := "8090" |} |}.

(** A provider file with three entries, the second without URL, and no
    circuit-breaker section; every URL can be dialled. *)
Definition providers_file : config.FileOutcome :=
  config.Parsed
    {| config.Providers :=
         [config.mkProviderConfig "small" "http://s" 1 0 0;
          config.mkProviderConfig "unused" "" 5 0 0;
          config.mkProviderConfig "large" "http://l" 10 100 0];
       config.CircuitBreaker := config.mkCircuitBreakerYAML 0 0 0 0 |}.

Definition dial_ok (_ : string) : bool := true.

Definition file_providers : list ethereum.Provider :=
  [ethereum.NewProvider "small" "http://s" 1 10 (30 * 1000000000)
     ethereum.DefaultCircuitBreakerConfig;
   ethereum.NewProvider "large" "http://l" 10 100 (30 * 1000000000)
     ethereum.DefaultCircuitBreakerConfig].

(** ** Stream *)

(** A stand-in for [json.Marshal]: the log index as one byte. *)
Definition sample_marshal (t : models.Transfer) : option (list byte) :=
  Some [hexutil.byte_of_N (Z.to_N (models.LogIndex t))].

Definition three : list models.Transfer :=
  [sample_transfer 1; sample_transfer 2; sample_transfer 3].

Definition stream_two : stream.Stream :=
  {| stream.clients := ∅; stream.buffer := []; stream.bufferSize := 2;
     stream.next_chan := 0 |}.

(** No client, the buffer full. *)
Definition full_stream : stream.Stream :=
  {| stream.clients := ∅;
     stream.buffer := [sample_transfer 1; sample_transfer 2];
     stream.bufferSize := 2; stream.next_chan := 0 |}.

(** One subscribed client whose channel is full. *)
Definition full_client_stream : stream.Stream :=
  {| stream.clients := {[ 0%nat := stream.mkChan 1 [["009"%byte]] ]};
     stream.buffer := [sample_transfer 1]; stream.bufferSize := 1;
     stream.next_chan := 1 |}.

(** ** Ingestion service *)

Definition service_min20 : service.IngestionService :=
  service.NewIngestionService 0 10 false true 20 100 3 2.

Definition scenario_service : service.IngestionService :=
  service.NewIngestionService 0 4 false true 1 64 3 2.

(** Size at the maximum 64, two successes counted. *)
Definition service_at_max : service.IngestionService :=
  service.with_adaptive
    (service.NewIngestionService 0 64 false true 1 64 3 2) 64 2 0.

Definition tick_success : service.TickEnv :=
  {| service.latest := Some 1000000; service.fetched := Some [];
     service.insert_ok := true; service.cursor_ok := true |}.
Definition tick_fetch_failure : service.TickEnv :=
  {| service.latest := Some 1000000; service.fetched := None;
     service.insert_ok := true; service.cursor_ok := true |}.
(** The cursor cannot be written. *)
Definition tick_cursor_failure : service.TickEnv :=
  {| service.latest := Some 1000000; service.fetched := Some [];
     service.insert_ok := true; service.cursor_ok := false |}.
(** The latest block number cannot be read. *)
Definition tick_head_failure : service.TickEnv :=
  {| service.latest := None; service.fetched := Some [];
     service.insert_ok := true; service.cursor_ok := true |}.

(** Size 2^63, no upper bound below the largest [uint64], streak 1. *)
Definition service_huge : service.IngestionService :=
  service.NewIngestionService 0 (2 ^ 63) false true 1 (2 ^ 64 - 1) 1 2.

(** min=1, max=64, streak=3, divisor=2, initial=4: three successes, one
    failure, three more failures. *)
Definition adaptive_scenario : Prop :=
  service.sizes_of
    (service.run scenario_service 1
       [tick_success; tick_success; tick_success])
    = Some ([4; 4; 4], 8) /\
  service.sizes_of
    (service.run scenario_service 1
       [tick_success; tick_success; tick_success; tick_fetch_failure])
    = Some ([4; 4; 4; 8], 4) /\
  service.sizes_of
    (service.run scenario_service 1
       [tick_success; tick_success; tick_success;
        tick_fetch_failure; tick_fetch_failure;
        tick_fetch_failure; tick_fetch_failure])
    = Some ([4; 4; 4; 8; 4; 2; 1], 1).

End examples.

(* ===================================================================== *)
(** * Part II: properties *)
(* ===================================================================== *)

(* ===================================================================== *)
(** * Fixed-width arithmetic and decimal strings *)
(* ===================================================================== *)

Section GoIntFacts.
Import GoInt.

Lemma wrap_int64_small z : is_int64 z -> wrap_int64 z = z.
Proof.
  unfold is_int64, wrap_int64, min_int64, max_int64. intros H.
  rewrite Z.mod_small; lia.
Qed.

Lemma wrap_int64_succ z : 0 <= z < max_int64 -> wrap_int64 (z + 1) = z + 1.
Proof.
  intros H. apply wrap_int64_small.
  unfold is_int64, min_int64, max_int64 in *. lia.
Qed.

Lemma wrap_uint64_small z : is_uint64 z -> wrap_uint64 z = z.
Proof.
  unfold is_uint64, wrap_uint64, max_uint64. intros H.
  rewrite Z.mod_small; lia.
Qed.
End GoIntFacts.

Section Decimal.
(** Printing a natural number and reading the digits back. *)
Lemma decimal_roundtrip (n : N) :
  let s := NilZero.string_of_uint (N.to_uint n) in
  s <> EmptyString /\ NilEmpty.uint_of_string s = Some (N.to_uint n).
Proof.
  assert (Hnn : N.to_uint n <> Decimal.Nil).
  { destruct n; [done|apply Unsigned.to_uint_nonnil]. }
  cbn zeta.
  assert (Heq : NilZero.string_of_uint (N.to_uint n)
                = NilEmpty.string_of_uint (N.to_uint n)).
  { by destruct (N.to_uint n). }
  rewrite Heq, NilEmpty.usu. split; [|done].
  by destruct (N.to_uint n).
Qed.

Lemma ParseUint_FormatUint n :
  0 <= n <= GoInt.max_uint64 ->
  strconv.ParseUint (strconv.FormatUint n) = Some n.
Proof.
  intros Hn. unfold strconv.ParseUint, strconv.FormatUint.
  destruct (decimal_roundtrip (Z.to_N n)) as [Hne Hrt].
  destruct (NilZero.string_of_uint _) eqn:Hs; [done|].
  rewrite Hrt, DecimalN.Unsigned.of_to, Z2N.id by lia.
  destruct (Z.leb_spec n GoInt.max_uint64); [done|lia].
Qed.

Lemma ParseDecimal128_String v :
  0 <= v ->
  primitive.ParseDecimal128 (big.String v)
    = primitive.reduce (String.length (big.String v)) v 0.
Proof.
  intros Hv. unfold primitive.ParseDecimal128, big.String.
  destruct (decimal_roundtrip (Z.to_N v)) as [Hne Hrt].
  destruct (NilZero.string_of_uint _) eqn:Hs; [done|].
  by rewrite Hrt, DecimalN.Unsigned.of_to, Z2N.id by lia.
Qed.

(** An integer of at most 34 digits is stored exactly. *)
Lemma reduce_small fuel v :
  v <= primitive.maxS ->
  primitive.reduce fuel v 0 = Some (primitive.mkDecimal128 v 0).
Proof.
  intros Hv. destruct fuel; simpl;
    by destruct (Z.leb_spec v primitive.maxS); [|lia].
Qed.

(** A longer integer whose last digit is not zero is refused. *)
Lemma reduce_inexact fuel v :
  primitive.maxS < v -> v mod 10 <> 0 ->
  primitive.reduce fuel v 0 = None.
Proof.
  intros Hv Hm. destruct fuel; simpl;
    destruct (Z.leb_spec v primitive.maxS); try lia; [done|].
  by destruct (Z.eqb_spec (v mod 10) 0).
Qed.

(** No Decimal128, whose significand has at most 34 digits, stands for the
    largest 256-bit integer. *)
Lemma decimal128_cannot_hold_max d :
  0 <= primitive.significand d <= primitive.maxS ->
  ~ primitive.represents d primitive.max_uint256.
Proof.
  intros Hs. unfold primitive.represents.
  assert (Hbig : primitive.maxS < primitive.max_uint256) by (by vm_compute).
  assert (Hodd : primitive.max_uint256 mod 2 = 1) by (by vm_compute).
  assert (Hpos : 0 < primitive.max_uint256) by (by vm_compute).
  destruct (Z.leb_spec 0 (primitive.exponent d)) as [He|He]; intros H.
  - destruct (Z.eq_dec (primitive.exponent d) 0) as [E0|E0].
    + rewrite E0, Z.pow_0_r, Z.mul_1_r in H. lia.
    + replace (primitive.exponent d)
        with (Z.succ (primitive.exponent d - 1)) in H by lia.
      rewrite Z.pow_succ_r in H by lia.
      assert (Hev : primitive.max_uint256 mod 2 = 0); [|lia].
      rewrite <- H.
      replace (primitive.significand d
               * (10 * 10 ^ (primitive.exponent d - 1)))
        with ((primitive.significand d * 5
               * 10 ^ (primitive.exponent d - 1)) * 2) by ring.
      apply Z.mod_mul. lia.
  - assert (1 <= 10 ^ (- primitive.exponent d)).
    { apply (Z.pow_le_mono_r 10 0); lia. }
    nia.
Qed.
End Decimal.

(* ===================================================================== *)
(** * The parser *)
(* ===================================================================== *)

Section Hex.
Import hexutil.

Lemma hex_char_lower n (b : bool) :
  (n < 16)%N ->
  lower_char (if (57 <? N_of_ascii (hex_char n))%N && b
              then ascii_of_N (N_of_ascii (hex_char n) - 32)
              else hex_char n) = hex_char n.
Proof.
  intros Hn. rewrite <- (N2Nat.id n).
  assert (Hk : (N.to_nat n < 16)%nat) by lia.
  generalize dependent (N.to_nat n). intros k Hk. unfold hex_char.
  rewrite Nat2N.id.
  do 16 (destruct k as [|k]; [by destruct b|]). lia.
Qed.

Lemma hex_chars_digits bs : Forall is_hex_digit (hex_chars bs).
Proof.
  induction bs as [|b bs IH]; [constructor|]. simpl.
  pose proof (Byte.to_N_bounded b) as Hb.
  constructor; [|constructor; [|done]].
  - exists (Byte.to_N b / 16)%N. split; [|done].
    apply N.Div0.div_lt_upper_bound. lia.
  - exists (Byte.to_N b mod 16)%N. split; [|done].
    apply N.mod_lt. lia.
Qed.

Lemma lower_checksum hash cs : forall i,
  Forall is_hex_digit cs ->
  map lower_char (common.checksum_chars hash i cs) = cs.
Proof.
  induction cs as [|c cs IH]; intros i H; [done|].
  apply Forall_cons in H as [(n & Hn & ->) H]. simpl. f_equal.
  - apply hex_char_lower, Hn.
  - by apply IH.
Qed.

(** Lower-casing the checksummed form of an address gives its plain
    lower-case hexadecimal form, whatever the checksum is. *)
Lemma ToLower_AddressHex keccak256 a :
  ToLower (common.AddressHex keccak256 a) = Encode a.
Proof.
  unfold ToLower, common.AddressHex, Encode.
  change (list_ascii_of_string (append "0x" ?s))
    with ("0"%char :: "x"%char :: list_ascii_of_string s).
  rewrite list_ascii_of_string_of_list_ascii.
  change (map lower_char ("0"%char :: "x"%char :: ?l))
    with ("0"%char :: "x"%char :: map lower_char l).
  rewrite lower_checksum by apply hex_chars_digits. done.
Qed.
End Hex.

Section Parser.
Import ethereum.
Variable keccak256 : list ascii -> list byte.

(** A well-formed log is parsed into this record: addresses in
    lower-case hexadecimal, the amount as decimal string, as Decimal128
    (zero when the library refuses the string) and as float64, and the
    block time as time stamp. *)
Lemma ParseTransferLog_ok now log blockTime topic1 topic2 :
  types.Topics log = [ERC20TransferEventSignature; topic1; topic2] ->
  length (types.Data log) = 32%nat ->
  ParseTransferLog keccak256 now log blockTime =
    inl {| models.EventSignature := "Transfer";
           models.Token := hexutil.Encode (types.Address log);
           models.From := hexutil.Encode (common.BytesToAddress topic1);
           models.To := hexutil.Encode (common.BytesToAddress topic2);
           models.Value :=
             match primitive.ParseDecimal128
                     (big.String (big.SetBytes (types.Data log))) with
             | Some d => d
             | None => primitive.NewDecimal128_zero
             end;
           models.ValueString := big.String (big.SetBytes (types.Data log));
           models.ValueDecimal :=
             parseValueDecimal (big.SetBytes (types.Data log));
           models.BlockNumber := types.BlockNumber log;
           models.TxHash := hexutil.Encode (types.TxHash log);
           models.TxIndex := types.TxIndex log;
           models.LogIndex := types.Index log;
           models.Timestamp := blockTime;
           models.CreatedAt := now |}.
Proof.
  intros Ht Hd. unfold ParseTransferLog. rewrite Ht, Hd.
  rewrite bool_decide_eq_true_2 by done. simpl negb. cbv iota.
  by rewrite !ToLower_AddressHex.
Qed.

(** The parser fails exactly on malformed logs. *)
Lemma ParseTransferLog_error_iff now log blockTime :
  (exists e, ParseTransferLog keccak256 now log blockTime = inr e)
  <-> malformed log.
Proof.
  unfold malformed. split.
  - intros [e He]. unfold ParseTransferLog in He.
    destruct (types.Topics log) as [|t0 [|t1 [|t2 [|t3 ts]]]]; simpl;
      try (left; lia).
    destruct (decide (t0 = ERC20TransferEventSignature)) as [->|Hne].
    + rewrite bool_decide_eq_true_2 in He by done. simpl in He.
      destruct (Nat.eqb_spec (length (types.Data log)) 32); [done|].
      by right; right.
    + right; left. congruence.
  - intros H.
    destruct (types.Topics log) as [|t0 [|t1 [|t2 [|t3 ts]]]] eqn:Ht;
      try (unfold ParseTransferLog; rewrite Ht; by eauto).
    unfold ParseTransferLog. rewrite Ht.
    destruct (bool_decide (t0 = ERC20TransferEventSignature)) eqn:Hb;
      simpl; [|by eauto].
    apply bool_decide_eq_true_1 in Hb as ->.
    destruct (Nat.eqb_spec (length (types.Data log)) 32) as [He|Hne];
      simpl; [|by eauto].
    destruct H as [H|[H|H]]; simpl in H; done.
Qed.

Lemma BytesToAddress_low20 topic :
  length topic = 32%nat -> common.BytesToAddress topic = drop 12 topic.
Proof.
  intros H. unfold common.BytesToAddress, common.set_bytes,
    common.AddressLength. by rewrite H.
Qed.

Lemma SetBytes_foldl data : forall acc,
  0 <= acc ->
  foldl (fun acc b => acc * 256 + Z.of_N (Byte.to_N b)) acc data
    = acc * 256 ^ Z.of_nat (length data) + big.SetBytes data /\
  0 <= big.SetBytes data < 256 ^ Z.of_nat (length data).
Proof.
  unfold big.SetBytes. induction data as [|b data IH]; intros acc Hacc.
  - simpl. lia.
  - rewrite length_cons, Nat2Z.inj_succ, Z.pow_succ_r by lia. simpl foldl.
    pose proof (Byte.to_N_bounded b) as Hb.
    destruct (IH (acc * 256 + Z.of_N (Byte.to_N b))) as [E1 B1]; [lia|].
    destruct (IH (0 * 256 + Z.of_N (Byte.to_N b))) as [E2 B2]; [lia|].
    rewrite E1, E2. split; [ring|]. nia.
Qed.

(** The value of a 32-byte payload is an unsigned 256-bit integer. *)
Lemma SetBytes_uint256 data :
  length data = 32%nat -> 0 <= big.SetBytes data < 2 ^ 256.
Proof.
  intros H. destruct (SetBytes_foldl data 0) as [_ HB]; [done|].
  rewrite H in HB. exact HB.
Qed.

(** The Decimal128 field is the exact integer for amounts of at most 34
    decimal digits. *)
Lemma ParseTransferLog_value_exact now log blockTime tr :
  ParseTransferLog keccak256 now log blockTime = inl tr ->
  big.SetBytes (types.Data log) <= primitive.maxS ->
  models.Value tr
    = primitive.mkDecimal128 (big.SetBytes (types.Data log)) 0.
Proof.
  intros Hp Hv.
  assert (Hm : ~ malformed log).
  { intros Hm. apply (ParseTransferLog_error_iff now log blockTime) in Hm
      as [e He]. congruence. }
  unfold malformed in Hm.
  destruct (types.Topics log) as [|t0 [|t1 [|t2 [|t3 ts]]]] eqn:Ht;
    try (exfalso; apply Hm; left; simpl; lia).
  destruct (decide (t0 = ERC20TransferEventSignature)) as [->|Hne];
    [|exfalso; apply Hm; right; left; simpl; congruence].
  destruct (decide (length (types.Data log) = 32%nat)) as [Hd|Hd];
    [|exfalso; apply Hm; by right; right].
  rewrite (ParseTransferLog_ok now log blockTime t1 t2 Ht Hd) in Hp.
  injection Hp as <-. simpl.
  pose proof (SetBytes_uint256 _ Hd) as [H0 _].
  by rewrite ParseDecimal128_String, reduce_small.
Qed.
End Parser.

Section ParserExamples.
Import ethereum examples.

(** One token, 10^18 wei: value 1000000000000000000, valueDecimal 1.0. *)
Lemma parse_one_token keccak256 now blockTime :
  exists tr,
    ParseTransferLog keccak256 now (sample_log (10 ^ 18)) blockTime = inl tr /\
    models.From tr = "0xabababababababababababababababababababcd" /\
    models.To tr = "0xefefefefefefefefefefefefefefefefefefefef" /\
    models.Value tr = primitive.mkDecimal128 1000000000000000000 0 /\
    models.ValueString tr = "1000000000000000000" /\
    models.ValueDecimal tr = big.mkFloat64 (2 ^ 52) (-52) /\
    models.Timestamp tr = blockTime.
Proof.
  eexists. split.
  - apply (ParseTransferLog_ok keccak256 now (sample_log (10 ^ 18))
             blockTime _ _ eq_refl).
    by vm_compute.
  - vm_compute. by repeat split.
Qed.

(** C8: [ParseTransferLog] is claimed to return a record whose value is
    the unsigned 256-bit integer of the data.  For the well-formed log
    whose data is 32 bytes 0xff the integer is 2^256 - 1 and the decimal
    string of the record is exact, but the Decimal128 [Value] field is
    zero: the library refuses a 78-digit significand and the parser falls
    back to [NewDecimal128(0, 0)]. *)
Lemma large_value_stored_as_zero keccak256 now blockTime :
  ~ malformed (sample_log (2 ^ 256 - 1)) /\
  big.SetBytes (types.Data (sample_log (2 ^ 256 - 1))) = 2 ^ 256 - 1 /\
  exists tr,
    ParseTransferLog keccak256 now (sample_log (2 ^ 256 - 1)) blockTime
      = inl tr /\
    models.ValueString tr =
      "115792089237316195423570985008687907853269984665640564039457584007913129639935" /\
    models.Value tr = primitive.mkDecimal128 0 (-6176) /\
    ~ primitive.represents (models.Value tr) (2 ^ 256 - 1).
Proof.
  assert (Hok : exists tr,
    ParseTransferLog keccak256 now (sample_log (2 ^ 256 - 1)) blockTime
      = inl tr /\
    models.ValueString tr =
      "115792089237316195423570985008687907853269984665640564039457584007913129639935" /\
    models.Value tr = primitive.mkDecimal128 0 (-6176)).
  { eexists. split.
    - apply (ParseTransferLog_ok keccak256 now (sample_log (2 ^ 256 - 1))
               blockTime _ _ eq_refl).
      by vm_compute.
    - vm_compute. by repeat split. }
  split; [|split; [by vm_compute|]].
  - intros Hm.
    apply (ParseTransferLog_error_iff keccak256 now _ blockTime) in Hm
      as [e He].
    destruct Hok as (tr & Htr & _). congruence.
  - destruct Hok as (tr & Htr & Hs & Hv). exists tr.
    split; [exact Htr|]. split; [exact Hs|]. split; [exact Hv|].
    rewrite Hv. apply decimal128_cannot_hold_max. by vm_compute.
Qed.
End ParserExamples.

(* ===================================================================== *)
(** * The circuit breaker *)
(* ===================================================================== *)

Section Breaker.
Import GoInt ethereum.

Ltac breaker_cases p :=
  destruct p as [? ? ? ? ? st fc sc ? ? fT sT ? ? ?];
  unfold breaker_inv, RecordFailure, RecordSuccess, IsHealthy in *;
  simpl in *; destruct st; simpl in *.

Lemma inv_RecordFailure T ST now p :
  T <= max_int64 ->
  breaker_inv T ST p -> breaker_inv T ST (RecordFailure now p).
Proof.
  intros HT (H1 & H2 & H3). breaker_cases p; subst.
  - rewrite wrap_int64_succ by (unfold max_int64 in *; lia).
    destruct (Z.leb_spec T (fc + 1)); simpl; repeat split; lia.
  - destruct (T <=? _); simpl; auto.
  - auto.
Qed.

Lemma inv_RecordSuccess T ST now p :
  ST <= max_int64 ->
  breaker_inv T ST p -> breaker_inv T ST (RecordSuccess now p).
Proof.
  intros HT (H1 & H2 & H3). breaker_cases p; subst.
  - repeat split; lia.
  - change (wrap_int64 (0 + 1)) with 1. repeat split; lia.
  - rewrite wrap_int64_succ by (unfold max_int64 in *; lia).
    destruct (Z.leb_spec ST (sc + 1)); simpl; repeat split; lia.
Qed.

Lemma inv_IsHealthy T ST now p :
  breaker_inv T ST p -> breaker_inv T ST (IsHealthy now p).2.
Proof.
  intros (H1 & H2 & H3). breaker_cases p; subst; auto.
  destruct (_ <? _); simpl; repeat split; auto; lia.
Qed.

Lemma reachable_inv p0 p :
  failureThreshold p0 <= max_int64 -> successThreshold p0 <= max_int64 ->
  state p0 = StateHealthy -> failureCount p0 = 0 ->
  reachable p0 p ->
  breaker_inv (failureThreshold p0) (successThreshold p0) p.
Proof.
  intros HT HS Hst Hfc Hr. induction Hr.
  - unfold breaker_inv. rewrite Hst, Hfc. repeat split; lia.
  - by apply inv_IsHealthy.
  - by apply inv_RecordSuccess.
  - by apply inv_RecordFailure.
Qed.

Lemma failures_stay_unhealthy times : forall p,
  state p = StateUnhealthy -> state (failures times p) = StateUnhealthy.
Proof.
  induction times as [|t times IH]; intros p Hp; [done|].
  apply IH. unfold RecordFailure. rewrite Hp.
  by destruct (_ <=? _).
Qed.

Lemma RecordFailure_healthy now p :
  state p = StateHealthy -> 0 <= failureCount p < max_int64 ->
  (RecordFailure now p) =
    with_breaker p
      (if failureThreshold p <=? failureCount p + 1
       then StateUnhealthy else StateHealthy)
      (failureCount p + 1) 0 now (lastSuccessTime p) (halfOpenCalls p).
Proof.
  intros Hst Hfc. unfold RecordFailure.
  rewrite Hst, wrap_int64_succ by done. by destruct (_ <=? _).
Qed.

Lemma failures_trip T times : forall p,
  failureThreshold p = T -> T <= max_int64 ->
  state p = StateHealthy -> 0 <= failureCount p < T ->
  T - failureCount p <= Z.of_nat (length times) ->
  state (failures times p) = StateUnhealthy.
Proof.
  induction times as [|t times IH]; intros p HT Hmax Hst Hfc Hlen.
  - simpl in Hlen. lia.
  - rewrite length_cons in Hlen. unfold failures. simpl.
    rewrite RecordFailure_healthy by (done || lia). rewrite HT.
    destruct (Z.leb_spec T (failureCount p + 1)) as [Hge|Hlt].
    + by apply failures_stay_unhealthy.
    + apply IH; simpl; auto; lia.
Qed.

Lemma successes_stay_healthy times : forall p,
  state p = StateHealthy -> state (successes times p) = StateHealthy.
Proof.
  induction times as [|t times IH]; intros p Hp; [done|].
  apply IH. unfold RecordSuccess. by rewrite Hp.
Qed.

Lemma RecordSuccess_half_open now p :
  state p = StateHalfOpen -> 0 <= successCount p < max_int64 ->
  (RecordSuccess now p) =
    if successThreshold p <=? successCount p + 1
    then with_breaker p StateHealthy 0 0 (lastFailureTime p) now 0
    else with_breaker p StateHalfOpen 0 (successCount p + 1)
           (lastFailureTime p) now (wrap_int64 (halfOpenCalls p + 1)).
Proof.
  intros Hst Hsc. unfold RecordSuccess.
  by rewrite Hst, wrap_int64_succ by done.
Qed.

Lemma successes_close ST times : forall p,
  successThreshold p = ST -> ST <= max_int64 ->
  state p = StateHalfOpen -> 0 <= successCount p < Z.max ST 2 ->
  1 <= Z.of_nat (length times) ->
  ST - successCount p <= Z.of_nat (length times) ->
  state (successes times p) = StateHealthy.
Proof.
  induction times as [|t times IH]; intros p HT Hmax Hst Hsc Hpos Hlen.
  - simpl in Hpos. lia.
  - rewrite length_cons in Hlen. unfold successes. simpl.
    rewrite RecordSuccess_half_open by (done || unfold max_int64 in *; lia).
    rewrite HT.
    destruct (Z.leb_spec ST (successCount p + 1)) as [Hge|Hlt].
    + by apply successes_stay_healthy.
    + apply IH; simpl; auto; lia.
Qed.

Lemma RecordFailure_half_open now p :
  state p = StateHalfOpen ->
  (RecordFailure now p) =
    with_breaker p StateUnhealthy (wrap_int64 (failureCount p + 1)) 0 now
      (lastSuccessTime p) 0.
Proof. intros Hst. unfold RecordFailure. by rewrite Hst. Qed.

(** C3, as amended: for a provider reached from a fresh one by any calls,
    with thresholds of at least 1: from Healthy, [failureThreshold]
    consecutive failures lead to Unhealthy; from HalfOpen,
    [successThreshold] consecutive successes lead to Healthy; one failure
    in HalfOpen leads to Unhealthy, zeroes the success counter and the
    half-open call counter, and increments the failure counter. *)
Theorem breaker_transitions (p0 p : Provider) (times : list Z) (now : Z) :
  state p0 = StateHealthy -> failureCount p0 = 0 ->
  1 <= failureThreshold p0 <= max_int64 ->
  1 <= successThreshold p0 <= max_int64 ->
  reachable p0 p ->
  (state p = StateHealthy ->
   Z.of_nat (length times) = failureThreshold p0 ->
   state (failures times p) = StateUnhealthy) /\
  (state p = StateHalfOpen ->
   Z.of_nat (length times) = successThreshold p0 ->
   state (successes times p) = StateHealthy) /\
  (state p = StateHalfOpen ->
   let q := RecordFailure now p in
   state q = StateUnhealthy /\ successCount q = 0 /\ halfOpenCalls q = 0 /\
   failureCount q = wrap_int64 (failureCount p + 1)).
Proof.
  intros Hst0 Hfc0 HT HS Hr.
  destruct (reachable_inv p0 p) as (HpT & HpS & Hinv); try done; try lia.
  split; [|split].
  - intros Hst Hlen. rewrite Hst in Hinv.
    apply (failures_trip (failureThreshold p0)); auto; lia.
  - intros Hst Hlen. rewrite Hst in Hinv.
    apply (successes_close (successThreshold p0)); auto; lia.
  - intros Hst. simpl. by rewrite RecordFailure_half_open.
Qed.
End Breaker.

Section BreakerExamples.
Import GoInt ethereum examples.

Lemma probing_provider_reachable : reachable provA probing_provider.
Proof.
  unfold probing_provider, failures. simpl foldl. repeat constructor.
Qed.

(** C3, counterexample: a provider that tripped after three failures and
    moved to HalfOpen has failure counter 3; the failure of the probe
    makes it 4, so not every breaker counter is reset. *)
Lemma breaker_failure_counter_not_reset :
  reachable provA probing_provider /\
  state probing_provider = StateHalfOpen /\
  failureCount (RecordFailure 101 probing_provider) = 4 /\
  ~ probing_failure_resets 101 probing_provider.
Proof.
  split; [apply probing_provider_reachable|].
  split; [reflexivity|]. split; [reflexivity|].
  intros H. destruct (H eq_refl) as (_ & Hfc & _). discriminate Hfc.
Qed.

Lemma breaker_transitions_witness :
  state (failures [1; 2; 3] provA) = StateUnhealthy /\
  state (successes [102] probing_provider) = StateHealthy /\
  state (RecordFailure 101 probing_provider) = StateUnhealthy.
Proof.
  pose proof probing_provider_reachable as Hr.
  split; [|split].
  - apply (breaker_transitions provA provA [1; 2; 3] 0);
      try reflexivity; try apply reach_new;
      vm_compute; intuition congruence.
  - apply (breaker_transitions provA probing_provider [102] 0);
      try reflexivity; try exact Hr; vm_compute; intuition congruence.
  - apply (breaker_transitions provA probing_provider [] 101);
      try reflexivity; try exact Hr; vm_compute; intuition congruence.
Defined.
End BreakerExamples.

(* ===================================================================== *)
(** * The provider pool *)
(* ===================================================================== *)

Section Pool.
Import GoInt ethereum.
Context {A : Type}.

(** [SelectProvider] waits on every pool: for the holder of the lock
    when the lock is taken, and otherwise for itself, since it asks for
    the read lock while it holds the write lock. *)
Lemma SelectProvider_waits now pool :
  (SelectProvider now pool).1 = Blocked /\
  providers (SelectProvider now pool).2 = providers pool /\
  current (SelectProvider now pool).2 = current pool /\
  mu (SelectProvider now pool).2
    = match mu pool with
      | sync.Unlocked => sync.WriteLocked
      | held => held
      end.
Proof.
  unfold SelectProvider, GetHealthyProviders.
  destruct pool as [ps m c]. by destruct m as [| |readers].
Qed.

(** The attempt loop ends where it selects its first provider. *)
Lemma attempt_loop_waits (env : CallEnv A) costHint n fuel attempt pool
    attempted called :
  attempt_loop env costHint n (S fuel) attempt pool attempted called
    = (PoolBlocked, (SelectProvider (select_time env attempt) pool).2,
       called).
Proof.
  cbn [attempt_loop].
  pose proof (SelectProvider_waits (select_time env attempt) pool)
    as [Hsel _].
  destruct (SelectProvider (select_time env attempt) pool) as [sel pool1].
  cbn [fst snd] in *. by subst sel.
Qed.

(** The three pool operations: without providers the loop is not
    entered, with providers it ends at its first selection. *)
Lemma pool_operation (env : CallEnv A) costHint pool :
  attempt_loop env costHint (length (providers pool))
    (length (providers pool) * 2) 0 pool ∅ []
  = match providers pool with
    | [] => (PoolAllFailed, pool, [])
    | _ :: _ =>
        (PoolBlocked, (SelectProvider (select_time env 0) pool).2, [])
    end.
Proof.
  destruct (providers pool) as [|p ps]; [done|].
  cbn [length]. change (S (length ps) * 2)%nat with (S (S (length ps * 2))).
  apply attempt_loop_waits.
Qed.

End Pool.

Section PoolExamples.
Import GoInt ethereum examples.

(** C5: the pool is claimed to attempt the call on the highest-weight
    provider as a last resort when none is selectable.  With both
    providers Unhealthy and their breaker timeout not elapsed, no pool
    operation attempts a call, although every call would have succeeded,
    and none returns: each one waits in its first [SelectProvider],
    which holds the lock of the pool as writer and asks for it again as
    reader. *)
Lemma last_resort_not_attempted :
  Weight <$> providers pool_tripped = [10; 1] /\
  state <$> providers pool_tripped = [StateUnhealthy; StateUnhealthy] /\
  mu pool_tripped = sync.Unlocked /\
  SelectProvider 10 pool_tripped
    = (Blocked, with_mu pool_tripped sync.WriteLocked) /\
  FilterLogs env_all_up pool_tripped 10 12
    = (PoolBlocked, with_mu pool_tripped sync.WriteLocked, []) /\
  BlockByNumber env_all_up pool_tripped
    = (PoolBlocked, with_mu pool_tripped sync.WriteLocked, []) /\
  HeaderByNumber env_all_up pool_tripped
    = (PoolBlocked, with_mu pool_tripped sync.WriteLocked, []).
Proof. vm_compute. repeat split. Qed.
End PoolExamples.

(* ===================================================================== *)
(** * The repository: cursor and transfers *)
(* ===================================================================== *)

Section Cursor.
Import GoInt repository.

Lemma find_last_foldl coll : forall best,
  match foldl (fun best d =>
           match best with
           | Some b =>
               if models.PBlockNumber b <? models.PBlockNumber d
               then Some d else Some b
           | None => Some d
           end) best coll with
  | Some r =>
      (forall d, d ∈ coll ->
         models.PBlockNumber d <= models.PBlockNumber r) /\
      (forall b, best = Some b ->
         models.PBlockNumber b <= models.PBlockNumber r)
  | None => best = None /\ coll = []
  end.
Proof.
  induction coll as [|d coll IH]; intros best; simpl.
  - destruct best; [|done]. split; [|by intros ? [= ->]].
    intros d Hd. by apply elem_of_nil in Hd.
  - set (best' := match best with Some b => _ | None => _ end).
    specialize (IH best'). destruct (foldl _ best' coll) as [r|].
    + destruct IH as [IH1 IH2].
      assert (Hd : models.PBlockNumber d <= models.PBlockNumber r /\
              forall b, best = Some b ->
                models.PBlockNumber b <= models.PBlockNumber r).
      { subst best'. destruct best as [b|].
        - destruct (Z.ltb_spec (models.PBlockNumber b)
                      (models.PBlockNumber d)).
          + specialize (IH2 d eq_refl). split; [done|].
            intros ? [= <-]. lia.
          + specialize (IH2 b eq_refl). split; [lia|]. by intros ? [= <-].
        - split; [by apply IH2|done]. }
      destruct Hd as [Hd1 Hd2]. split; [|exact Hd2].
      intros d' [->|Hin]%elem_of_cons; [exact Hd1|by apply IH1].
    + destruct IH as [IH _]. subst best'.
      by destruct best; [destruct (_ <? _)|].
Qed.

(** [find_last] returns a document with the greatest block number. *)
Lemma find_last_max coll :
  match find_last coll with
  | Some r =>
      forall d, d ∈ coll -> models.PBlockNumber d <= models.PBlockNumber r
  | None => coll = []
  end.
Proof.
  unfold find_last. pose proof (find_last_foldl coll None) as H.
  destruct (foldl _ None coll); apply H.
Qed.

Lemma upsert_block_elem n t coll :
  exists d, d ∈ upsert_block n t coll /\ models.PBlockNumber d = n.
Proof.
  unfold upsert_block. destruct (existsb _ coll) eqn:He.
  - apply existsb_exists in He as (d & Hd & Heq). apply Z.eqb_eq in Heq.
    exists (models.mkProcessedBlock n t). split; [|done].
    apply list_elem_of_fmap. exists d. rewrite Heq, Z.eqb_refl.
    split; [done|]. by apply list_elem_of_In.
  - exists (models.mkProcessedBlock n t). split; [|done].
    apply elem_of_app. right. by apply list_elem_of_singleton.
Qed.

(** Without a cache, with the cache disabled, or when the Redis read
    fails, the read is answered by MongoDB and returns at least the
    block that was written. *)
Lemma cursor_durable_read r envw env n w w1 v w2 :
  SetLastProcessedBlock r envw n w = (None, w1) ->
  (cache r = None \/ redis_up env = false \/
   cache r = Some {| cache.enabled := false |}) ->
  GetLastProcessedBlock r env w1 = (inl v, w2) ->
  n <= v.
Proof.
  intros Hset Hcache Hget.
  assert (Hin : exists d,
             d ∈ processedColl w1 /\ models.PBlockNumber d = n).
  { unfold SetLastProcessedBlock in Hset.
    destruct (mongo_up envw); simpl in Hset; [|done].
    destruct (cache r); injection Hset as <-; apply upsert_block_elem. }
  unfold GetLastProcessedBlock in Hget.
  assert (Hmiss :
    match cache r with
    | Some c =>
        match cache.GetLastProcessedBlock c (redis_up env) (redis w1) with
        | inl blockNum => Some blockNum
        | inr _ => None
        end
    | None => None
    end = None).
  { destruct Hcache as [->|[Hd| ->]]; [done| |done].
    destruct (cache r) as [c|]; [|done].
    unfold cache.GetLastProcessedBlock. rewrite Hd.
    by destruct (cache.enabled c). }
  rewrite Hmiss in Hget. destruct (mongo_up env); simpl in Hget; [|done].
  pose proof (find_last_max (processedColl w1)) as Hmax.
  destruct Hin as (d & Hd & <-).
  destruct (find_last (processedColl w1)) as [r0|].
  - injection Hget as <- _. by apply Hmax.
  - rewrite Hmax in Hd. by apply elem_of_nil in Hd.
Qed.

(** X15: with the cache enabled and both servers answering,
    [SetLastProcessedBlock] succeeds and the next
    [GetLastProcessedBlock] that reaches Redis returns the written
    block, whatever MongoDB holds, and leaves the stores as they are. *)
Lemma cursor_cached_read c envw env n w :
  enabled_cache c -> 0 <= n <= max_uint64 ->
  mongo_up envw = true -> redis_up envw = true -> redis_up env = true ->
  let r := {| cache := Some c |} in
  let w1 := (SetLastProcessedBlock r envw n w).2 in
  (SetLastProcessedBlock r envw n w).1 = None /\
  GetLastProcessedBlock r env w1 = (inl n, w1).
Proof.
  unfold enabled_cache. intros Hc Hn Hm Hr Hr'. cbn zeta.
  unfold SetLastProcessedBlock, cache.SetLastProcessedBlock.
  rewrite Hm, Hr. simpl. rewrite Hc. simpl. split; [done|].
  unfold GetLastProcessedBlock, cache.GetLastProcessedBlock. simpl.
  by rewrite Hr', Hc, lookup_insert_eq, ParseUint_FormatUint.
Qed.
End Cursor.

Section CursorExamples.
Import GoInt repository examples.

(** C1: a read after a successful write is claimed to return at least the
    written block, also when Redis is reachable and its key is absent or
    stale.  A write of block 100 whose Redis command fails succeeds (the
    block is in MongoDB); the next read reaches Redis, finds no key and
    returns 0.  After an earlier fully successful write of 50 the same
    read returns the stale 50. *)
Lemma cursor_read_below_write :
  (SetLastProcessedBlock repo_cached env_redis_down 100 world_empty).1
    = None /\
  models.PBlockNumber <$> processedColl world_after_write = [100] /\
  (GetLastProcessedBlock repo_cached env_up world_after_write).1 = inl 0 /\
  models.PBlockNumber <$> processedColl world_after_two_writes
    = [50; 100] /\
  (GetLastProcessedBlock repo_cached env_up world_after_two_writes).1
    = inl 50.
Proof. vm_compute. repeat split. Qed.
End CursorExamples.

Section Insert.
Import repository.

Lemma has_key_app t coll extra :
  has_key t coll = true -> has_key t (coll ++ extra) = true.
Proof. unfold has_key. rewrite existsb_app. by intros ->. Qed.

Lemma has_key_self t coll : has_key t (coll ++ [t]) = true.
Proof.
  unfold has_key. rewrite existsb_app. simpl.
  rewrite bool_decide_eq_true_2 by done. by rewrite orb_true_r.
Qed.

Lemma has_key_false_notin t coll :
  has_key t coll = false -> index_key t ∉ index_key <$> coll.
Proof.
  unfold has_key. intros H Hin.
  apply list_elem_of_fmap in Hin as (u & Hu & Hin).
  assert (existsb (fun u => bool_decide (index_key u = index_key t)) coll
          = true); [|congruence].
  apply existsb_exists. exists u. split; [by apply list_elem_of_In|].
  by apply bool_decide_eq_true_2.
Qed.

(** Without server faults: the collection grows by documents of the
    batch only, every document of the batch has its key stored
    afterwards, only duplicate-key errors are reported, the keys stay
    pairwise distinct, and a batch of stored keys changes nothing. *)
Lemma insert_unordered_clean doc_err docs : forall i coll,
  (forall j, doc_err j = None) ->
  let '(coll', es) := insert_unordered doc_err i docs coll in
  (exists added, coll' = coll ++ added /\ added ⊆ docs) /\
  Forall (fun d => has_key d coll' = true) docs /\
  Forall (fun e => mongo.Code e = 11000) es /\
  (NoDup (index_key <$> coll) -> NoDup (index_key <$> coll')) /\
  (Forall (fun d => has_key d coll = true) docs -> coll' = coll).
Proof.
  induction docs as [|d docs IH]; intros i coll Hd; simpl.
  - repeat split; try done. exists []. by rewrite app_nil_r.
  - rewrite Hd. destruct (has_key d coll) eqn:Hk.
    + specialize (IH (S i) coll Hd).
      destruct (insert_unordered doc_err (S i) docs coll) as [coll' es].
      destruct IH as ((added & -> & Hsub) & Hall & Hes & Hnd & Hid).
      repeat split; try done.
      * exists added. split; [done|].
        intros x Hx. apply elem_of_cons. right. by apply Hsub.
      * constructor; [by apply has_key_app|done].
      * by constructor.
      * intros H. apply Hid. by apply Forall_cons in H as [_ H'].
    + specialize (IH (S i) (coll ++ [d]) Hd).
      destruct (insert_unordered doc_err (S i) docs (coll ++ [d]))
        as [coll' es].
      destruct IH as ((added & -> & Hsub) & Hall & Hes & Hnd & Hid).
      repeat split; try done.
      * exists (d :: added). rewrite <- app_assoc. split; [done|].
        intros x [->|Hx]%elem_of_cons; apply elem_of_cons;
          [by left|right; by apply Hsub].
      * constructor; [|done]. apply has_key_app, has_key_self.
      * intros H. apply Hnd. rewrite fmap_app. simpl.
        apply NoDup_app. split; [done|]. split; [|apply NoDup_singleton].
        intros k Hin ->%list_elem_of_singleton.
        by apply (has_key_false_notin d coll).
      * intros H. apply Forall_cons in H as [H' _]. congruence.
Qed.

Lemma duplicate_only_is_duplicate es :
  es <> [] -> Forall (fun e => mongo.Code e = 11000) es ->
  mongo.IsDuplicateKeyError (mongo.BulkWriteException es None) = true.
Proof.
  intros Hne HF. unfold mongo.IsDuplicateKeyError, mongo.HasErrorCode.
  simpl. destruct es as [|e es]; [done|].
  apply Forall_cons in HF as [He _]. simpl. by rewrite He.
Qed.

(** Duplicate-key write errors are absorbed: the call succeeds and the
    documents that are no duplicates are stored. *)
Lemma InsertTransfers_absorbs_duplicates r env docs w :
  no_faults env ->
  let '(err, w') := InsertTransfers r env docs w in
  err = None /\
  (exists added,
     transfersColl w' = transfersColl w ++ added /\ added ⊆ docs) /\
  Forall (fun d => has_key d (transfersColl w') = true) docs /\
  (NoDup (index_key <$> transfersColl w) ->
   NoDup (index_key <$> transfersColl w')).
Proof.
  intros (Hc & Hd & Hw). unfold InsertTransfers.
  destruct docs as [|d docs].
  { repeat split; try done. exists []. by rewrite app_nil_r. }
  unfold BulkWrite. rewrite Hc, Hw.
  pose proof (insert_unordered_clean (doc_error env) (d :: docs) 0
                (transfersColl w) Hd) as H.
  destruct (insert_unordered (doc_error env) 0 (d :: docs) (transfersColl w))
    as [coll' es].
  destruct H as (Hadd & Hall & Hes & Hnd & _). simpl.
  destruct es as [|e es]; simpl; [done|].
  by rewrite duplicate_only_is_duplicate.
Qed.

(** Writing a batch whose keys are all stored already changes nothing. *)
Lemma InsertTransfers_idempotent r env docs w :
  no_faults env ->
  Forall (fun d => has_key d (transfersColl w) = true) docs ->
  InsertTransfers r env docs w = (None, w).
Proof.
  intros (Hc & Hd & Hw) Hall. unfold InsertTransfers.
  destruct docs as [|d docs]; [done|].
  unfold BulkWrite. rewrite Hc, Hw.
  pose proof (insert_unordered_clean (doc_error env) (d :: docs) 0
                (transfersColl w) Hd) as H.
  destruct (insert_unordered (doc_error env) 0 (d :: docs) (transfersColl w))
    as [coll' es].
  destruct H as (_ & _ & Hes & _ & Hid). rewrite (Hid Hall). simpl.
  destruct w as [tc pc rd]. simpl.
  destruct es as [|e es]; simpl; [done|].
  by rewrite duplicate_only_is_duplicate.
Qed.

(** X16: as long as the server raises no error of its own, writing a
    batch a second time returns nil and leaves the collection as the
    first write left it. *)
Lemma InsertTransfers_twice r env1 env2 docs w :
  no_faults env1 -> no_faults env2 ->
  let w1 := (InsertTransfers r env1 docs w).2 in
  InsertTransfers r env2 docs w1 = (None, w1).
Proof.
  intros H1 H2. cbn zeta. apply InsertTransfers_idempotent; [done|].
  pose proof (InsertTransfers_absorbs_duplicates r env1 docs w H1) as H.
  destruct (InsertTransfers r env1 docs w) as [err w1]. apply H.
Qed.

(** An error without any duplicate-key code is returned to the caller. *)
Lemma InsertTransfers_propagates r env docs w e coll' :
  docs <> [] ->
  BulkWrite env docs (transfersColl w) = (Some e, coll') ->
  mongo.IsDuplicateKeyError e = false ->
  (InsertTransfers r env docs w).1 = Some (ErrBulkWrite e).
Proof.
  intros Hne Hb He. unfold InsertTransfers. destruct docs; [done|].
  by rewrite Hb, He.
Qed.
End Insert.

Section InsertExamples.
Import repository examples.

(** C9: every write error other than a duplicate key is claimed to be
    propagated.  In a batch of two, the first document is a duplicate and
    the server rejects the second with code 121: the bulk write reports
    both errors, [InsertTransfers] returns no error, and the second
    document is not stored. *)
Lemma mixed_write_error_swallowed :
  BulkWrite env_second_rejected [sample_transfer 1; sample_transfer 2]
      (transfersColl world_one)
    = (Some (mongo.BulkWriteException
               [mongo.mkWriteError 0 11000 "E11000 duplicate key error";
                mongo.mkWriteError 1 121 ""] None),
       [sample_transfer 1]) /\
  InsertTransfers repo_plain env_second_rejected
      [sample_transfer 1; sample_transfer 2] world_one
    = (None, world_one) /\
  has_key (sample_transfer 2) (transfersColl world_one) = false.
Proof. vm_compute. repeat split. Qed.
End InsertExamples.

(* ===================================================================== *)
(** * The event stream *)
(* ===================================================================== *)

Section Stream.
Import stream.
Variable marshal : models.Transfer -> option (list byte).

Lemma Publish_no_clients s t :
  clients s = ∅ ->
  Publish marshal s (TransferPtr t) =
    if Z.of_nat (length (buffer s)) <? bufferSize s
    then {| clients := clients s; buffer := buffer s ++ [t];
            bufferSize := bufferSize s; next_chan := next_chan s |}
    else s.
Proof. intros H. unfold Publish. by rewrite H, map_size_empty. Qed.

Lemma publish_all_cons s t ts :
  publish_all marshal s (t :: ts)
    = publish_all marshal (Publish marshal s (TransferPtr t)) ts.
Proof. reflexivity. Qed.

(** With no client, publishing fills the buffer up to its size and
    leaves it alone afterwards. *)
Lemma publish_all_no_clients ts : forall s,
  clients s = ∅ -> 0 <= bufferSize s ->
  Z.of_nat (length (buffer s)) <= bufferSize s ->
  let s' := publish_all marshal s ts in
  clients s' = ∅ /\ bufferSize s' = bufferSize s /\
  next_chan s' = next_chan s /\
  buffer s' =
    buffer s ++ take (Z.to_nat (bufferSize s) - length (buffer s)) ts.
Proof.
  induction ts as [|t ts IH]; intros s Hc Hsz Hlen.
  - simpl. by rewrite take_nil, app_nil_r.
  - cbn zeta. rewrite publish_all_cons, Publish_no_clients by done.
    destruct (Z.ltb_spec (Z.of_nat (length (buffer s))) (bufferSize s))
      as [Hlt|Hge].
    + destruct (IH {| clients := clients s; buffer := buffer s ++ [t];
                      bufferSize := bufferSize s;
                      next_chan := next_chan s |})
        as (H1 & H2 & H3 & H4); simpl; try done.
      { rewrite length_app. simpl. lia. }
      rewrite H1, H2, H3, H4. simpl.
      repeat split; try done. rewrite <- app_assoc, length_app. simpl.
      replace (Z.to_nat (bufferSize s) - length (buffer s))%nat
        with (S (Z.to_nat (bufferSize s) - (length (buffer s) + 1)))%nat
        by lia.
      done.
    + destruct (IH s) as (H1 & H2 & H3 & H4); try done.
      rewrite H1, H2, H3, H4.
      repeat split; try done.
      by replace (Z.to_nat (bufferSize s) - length (buffer s))%nat
        with 0%nat by lia.
Qed.

(** The replay delivers everything that can be marshalled when the
    channel has room for the whole buffer. *)
Lemma replay_send_fits bs : forall c,
  Z.of_nat (length (queue c)) + Z.of_nat (length bs) <= capacity c ->
  replay_send marshal bs c =
    {| capacity := capacity c; queue := queue c ++ omap marshal bs |}.
Proof.
  induction bs as [|t bs IH]; intros c Hfit; simpl.
  - rewrite app_nil_r. by destruct c.
  - rewrite length_cons in Hfit. destruct (marshal t) as [data|].
    + unfold has_room.
      destruct (Z.ltb_spec (Z.of_nat (length (queue c))) (capacity c));
        [|lia].
      rewrite IH; simpl; [by rewrite <- app_assoc|].
      rewrite length_app. simpl. lia.
    + apply IH. lia.
Qed.

Lemma SubscribeAndReplay_pending s :
  Z.of_nat (length (buffer s)) <= bufferSize s ->
  let '(ch, s') := SubscribeAndReplay marshal s in
  pending ch s' = omap marshal (buffer s) /\ buffer s' = buffer s.
Proof.
  intros Hlen. unfold SubscribeAndReplay, Subscribe, replay, pending. simpl.
  rewrite lookup_alter_eq, lookup_insert_eq. simpl.
  rewrite replay_send_fits; simpl; [done|lia].
Qed.

(** C2, as amended: while no client is subscribed, a published record is
    appended to the replay buffer when the buffer holds fewer than
    [bufferSize] records and is dropped when the buffer is full; the
    buffer never exceeds [bufferSize]; after [k] such publishes it holds
    the first [min(k, bufferSize)] records in publish order, and these
    are what a subscriber that joins then receives. *)
Theorem replay_buffer_policy (size : Z) (s0 : Stream)
    (ts : list models.Transfer) :
  NewStream size = Some s0 ->
  let s := publish_all marshal s0 ts in
  buffer s = take (Z.to_nat size) ts /\
  Z.of_nat (length (buffer s)) <= size /\
  (forall t,
     buffer (Publish marshal s (TransferPtr t)) =
       if Z.of_nat (length (buffer s)) <? size
       then buffer s ++ [t] else buffer s) /\
  (let '(ch, s') := SubscribeAndReplay marshal s in
   pending ch s' = omap marshal (take (Z.to_nat size) ts)).
Proof.
  unfold NewStream. destruct (Z.ltb_spec size 0) as [|Hsz]; [done|].
  intros [= <-].
  pose proof (publish_all_no_clients ts
                {| clients := ∅; buffer := []; bufferSize := size;
                   next_chan := 0 |} eq_refl Hsz) as H.
  simpl in H. destruct (H Hsz) as (Hc & Hb & Hn & Hbuf). clear H.
  rewrite Nat.sub_0_r in Hbuf.
  cbn zeta. set (s := publish_all marshal _ ts) in *.
  assert (Hlen : Z.of_nat (length (buffer s)) <= size).
  { rewrite Hbuf, length_take. lia. }
  split; [exact Hbuf|]. split; [exact Hlen|]. split.
  - intros t. rewrite Publish_no_clients by done. rewrite Hb.
    by destruct (_ <? _).
  - pose proof (SubscribeAndReplay_pending s) as Hp. rewrite Hb in Hp.
    specialize (Hp Hlen). destruct (SubscribeAndReplay marshal s) as [ch s'].
    rewrite <- Hbuf. apply Hp.
Qed.

(** C10: when at least one client is subscribed, [Publish] leaves the
    replay buffer unchanged; when moreover every client channel is full,
    the whole stream is unchanged, so the record is lost and a later
    subscriber is replayed exactly what it would have been replayed
    without the publish. *)
Theorem publish_with_clients_keeps_buffer (s : Stream) (payload : Payload) :
  clients s <> ∅ ->
  buffer (Publish marshal s payload) = buffer s /\
  ((forall ch c, clients s !! ch = Some c -> has_room c = false) ->
   Publish marshal s payload = s /\
   SubscribeAndReplay marshal (Publish marshal s payload)
     = SubscribeAndReplay marshal s).
Proof.
  intros Hne. assert (Hsz : size (clients s) <> 0%nat).
  { by rewrite map_size_empty_iff. }
  assert (Hbuf : buffer (Publish marshal s payload) = buffer s).
  { unfold Publish. destruct payload as [t|]; [|done].
    rewrite bool_decide_eq_false_2 by done. by destruct (marshal t). }
  split; [done|]. intros Hfull.
  assert (Heq : Publish marshal s payload = s); [|by rewrite Heq].
  unfold Publish. destruct payload as [t|]; [|done].
  rewrite bool_decide_eq_false_2 by done.
  destruct (marshal t) as [data|]; [|done].
  destruct s as [cl buf bs nc]. simpl in *. f_equal.
  apply map_eq. intros ch. rewrite lookup_fmap.
  destruct (cl !! ch) as [c|] eqn:Hc; [|done]. simpl.
  unfold try_send. by rewrite (Hfull ch c Hc).
Qed.
End Stream.

Section StreamExamples.
Import stream examples.

(** C2, counterexample: with a buffer of size 2 and no client, three
    publishes leave the first two records in the buffer; the bounded ring
    of the specification would hold the last two.  A subscriber that
    joins is sent records 1 and 2, not 2 and 3. *)
Lemma replay_buffer_keeps_oldest :
  NewStream 2 = Some stream_two /\
  buffer (publish_all sample_marshal stream_two three)
    = [sample_transfer 1; sample_transfer 2] /\
  spec_ring 2 three = [sample_transfer 2; sample_transfer 3] /\
  buffer (publish_all sample_marshal stream_two three) <> spec_ring 2 three /\
  (let '(ch, s') :=
     SubscribeAndReplay sample_marshal
       (publish_all sample_marshal stream_two three) in
   pending ch s' = ["001"%byte] :: ["002"%byte] :: nil /\
   pending ch s' <> omap sample_marshal (spec_ring 2 three)).
Proof. vm_compute. repeat split; discriminate. Qed.

Lemma replay_buffer_policy_witness :
  buffer (publish_all sample_marshal stream_two three) = take 2 three.
Proof.
  destruct (replay_buffer_policy sample_marshal 2 stream_two three eq_refl)
    as [H _]. exact H.
Defined.

Lemma publish_with_clients_keeps_buffer_witness :
  buffer (Publish sample_marshal full_client_stream
            (TransferPtr (sample_transfer 2))) = [sample_transfer 1] /\
  Publish sample_marshal full_client_stream (TransferPtr (sample_transfer 2))
    = full_client_stream.
Proof.
  destruct (publish_with_clients_keeps_buffer sample_marshal
              full_client_stream (TransferPtr (sample_transfer 2)))
    as [Hb Hfull].
  - intros H. apply (f_equal (fun m => m !! 0%nat)) in H. discriminate H.
  - split; [exact Hb|]. apply Hfull.
    intros ch c Hc. unfold full_client_stream in Hc. simpl in Hc.
    destruct (decide (ch = 0%nat)) as [->|Hne].
    + rewrite lookup_singleton_eq in Hc. injection Hc as <-. reflexivity.
    + rewrite lookup_singleton_ne in Hc by done. discriminate.
Defined.
End StreamExamples.

(* ===================================================================== *)
(** * The adaptive batch size *)
(* ===================================================================== *)

Section Adaptive.
Import GoInt service.

(** What a success adjustment computes when doubling does not overflow. *)
Lemma success_spec s :
  0 <= currentBatchSize s -> currentBatchSize s * 2 <= max_uint64 ->
  let s' := adjustBatchSizeOnSuccess s in
  let sc := wrap_int64 (successCount s + 1) in
  same_config s s' /\ failureCount s' = 0 /\
  currentBatchSize s' =
    (if batchSuccessStreak s <=? sc
     then Z.min (currentBatchSize s * 2) (batchMaxSize s)
     else currentBatchSize s) /\
  successCount s' =
    (if (batchSuccessStreak s <=? sc)
        && negb (currentBatchSize s' =? currentBatchSize s)
     then 0 else sc).
Proof.
  intros H0 H2. cbn zeta. unfold adjustBatchSizeOnSuccess.
  rewrite (wrap_uint64_small (currentBatchSize s * 2))
    by (unfold is_uint64; lia).
  destruct (batchSuccessStreak s <=? _); [|by repeat split].
  destruct (Z.ltb_spec (batchMaxSize s) (currentBatchSize s * 2)).
  - rewrite Z.min_r by lia.
    destruct (Z.eqb_spec (batchMaxSize s) (currentBatchSize s)) as [He|Hne];
      simpl; repeat split; try done.
    + by rewrite Z.eqb_refl.
    + by rewrite (proj2 (Z.eqb_neq _ _) Hne).
  - rewrite Z.min_l by lia.
    destruct (Z.eqb_spec (currentBatchSize s * 2) (currentBatchSize s))
      as [He|Hne];
      simpl; repeat split; try done; try lia.
    + by rewrite Z.eqb_refl.
    + by rewrite (proj2 (Z.eqb_neq _ _) Hne).
Qed.

(** What a failure adjustment computes for a divisor of at least 1. *)
Lemma failure_spec s :
  1 <= batchFailureBackoff s <= max_int64 ->
  exists s',
    adjustBatchSizeOnFailure s = Some s' /\
    same_config s s' /\ successCount s' = 0 /\
    currentBatchSize s' =
      Z.max (currentBatchSize s / batchFailureBackoff s) (batchMinSize s) /\
    failureCount s' =
      (if currentBatchSize s' =? currentBatchSize s
       then wrap_int64 (failureCount s + 1) else 0).
Proof.
  intros Hd. unfold adjustBatchSizeOnFailure, uint64_of_int.
  rewrite wrap_uint64_small
    by (unfold is_uint64, max_int64, max_uint64 in *; lia).
  destruct (Z.eqb_spec (batchFailureBackoff s) 0); [lia|].
  set (q := currentBatchSize s / batchFailureBackoff s).
  assert (Hmax : (if q <? batchMinSize s then batchMinSize s else q)
                 = Z.max q (batchMinSize s)).
  { destruct (Z.ltb_spec q (batchMinSize s)); lia. }
  rewrite Hmax.
  destruct (Z.eqb_spec (Z.max q (batchMinSize s)) (currentBatchSize s))
    as [He|Hne];
    simpl; eexists; (split; [reflexivity|]); simpl; repeat split;
    try done.
  - by rewrite Z.eqb_refl.
  - by rewrite (proj2 (Z.eqb_neq _ _) Hne).
Qed.

Lemma bounded_tick_size lo hi s :
  bounded lo hi s -> lo <= tick_batch_size s <= hi.
Proof.
  intros (_ & _ & _ & _ & Hf & Hc). unfold tick_batch_size.
  fold (fallback_size s). by destruct (_ =? 0).
Qed.

Lemma bounded_success lo hi s :
  0 <= lo -> hi <= max_int64 ->
  bounded lo hi s -> bounded lo hi (adjustBatchSizeOnSuccess s).
Proof.
  intros Hlo Hhi (Ha & Hmin & Hmax & Hd & Hf & Hc).
  destruct (success_spec s) as ((C1 & C2 & C3 & C4 & C5 & C6) & _ & HB & _).
  { lia. } { unfold max_int64, max_uint64 in *. lia. }
  unfold bounded, fallback_size in *. rewrite C1, C2, C3, C4, C6, HB, Hmax.
  repeat split; try done; try lia; destruct (_ <=? _); lia.
Qed.

Lemma bounded_failure lo hi s :
  0 <= lo -> bounded lo hi s ->
  exists s', adjustBatchSizeOnFailure s = Some s' /\ bounded lo hi s'.
Proof.
  intros Hlo (Ha & Hmin & Hmax & Hd & Hf & Hc).
  destruct (failure_spec s Hd)
    as (s' & Hs' & (C1 & C2 & C3 & C4 & C5 & C6) & _ & HB & _).
  exists s'. split; [done|].
  unfold bounded, fallback_size in *. rewrite C1, C2, C3, C4, C6, HB, Hmin.
  repeat split; try done; try lia.
  assert (currentBatchSize s / batchFailureBackoff s <= currentBatchSize s).
  { apply Z.div_le_upper_bound; nia. }
  lia.
Qed.

Lemma bounded_processBlocks lo hi s env blk :
  0 <= lo -> hi <= max_int64 -> bounded lo hi s ->
  exists s' nb err,
    processBlocks s env blk = Some (s', nb, err) /\ bounded lo hi s'.
Proof.
  intros Hlo Hhi Hb. pose proof Hb as (Ha & _).
  unfold processBlocks, on_failure. rewrite Ha.
  destruct (latest env) as [l|]; [|by eauto].
  destruct (l <? blk); [by eauto|].
  destruct (bounded_failure lo hi s Hlo Hb) as (sf & Hsf & Hbf).
  destruct (fetched env) as [ts|].
  - destruct (_ && _).
    + rewrite Hsf. simpl. by eauto.
    + destruct (negb (cursor_ok env)); [by eauto|].
      eexists _, _, _. split; [done|]. by apply bounded_success.
  - rewrite Hsf. simpl. by eauto.
Qed.

Lemma bounded_run lo hi envs : forall s blk,
  0 <= lo -> hi <= max_int64 -> bounded lo hi s ->
  exists sizes s' blk',
    run s blk envs = Some (sizes, s', blk') /\
    Forall (fun b => lo <= b <= hi) sizes /\ bounded lo hi s'.
Proof.
  induction envs as [|env envs IH]; intros s blk Hlo Hhi Hb.
  - exists [], s, blk. split; [done|]. split; [constructor|done].
  - destruct (bounded_processBlocks lo hi s env blk Hlo Hhi Hb)
      as (s1 & nb & err & Hp & Hb1).
    simpl. rewrite Hp. simpl.
    destruct (IH s1 (match err with None => nb | Some _ => blk end)
                Hlo Hhi Hb1)
      as (sizes & s' & blk' & Hr & HF & Hb').
    rewrite Hr. simpl. eexists _, _, _. split; [done|]. split; [|done].
    constructor; [|done]. by apply bounded_tick_size.
Qed.

(** C6, as amended: with adaptive batching enabled, a minimum of at least
    0, a maximum below 2^63 and a failure divisor of at least 1, if the
    batch size of the first tick (the configured [blockBatchSize], or 10
    when that is 0, taken as it is) lies in [[min, max]], then every run
    of ticks completes and the batch size lies in [[min, max]] at every
    tick and after the last one. *)
Theorem adaptive_batch_bounds
    (startBlock blockBatchSize lo hi streak backoff : Z)
    (reset : bool) (envs : list TickEnv) (blk : Z) :
  let s0 := NewIngestionService startBlock blockBatchSize reset true
              lo hi streak backoff in
  0 <= lo -> hi <= max_int64 -> 1 <= backoff <= max_int64 ->
  lo <= tick_batch_size s0 <= hi ->
  exists sizes s' blk',
    run s0 blk envs = Some (sizes, s', blk') /\
    Forall (fun b => lo <= b <= hi) sizes /\
    lo <= tick_batch_size s' <= hi.
Proof.
  intros s0 Hlo Hhi Hd H0.
  assert (Hb : bounded lo hi s0).
  { unfold bounded, fallback_size. subst s0. unfold tick_batch_size in H0.
    simpl in *. repeat split; try done; try lia;
      destruct (Z.eqb_spec blockBatchSize 0); simpl in *; try lia;
      destruct (Z.eqb_spec blockBatchSize 0); lia. }
  destruct (bounded_run lo hi envs s0 blk Hlo Hhi Hb)
    as (sizes & s' & blk' & Hr & HF & Hb').
  exists sizes, s', blk'. repeat split; try done;
    by apply (bounded_tick_size lo hi).
Qed.

Lemma processBlocks_success s env fromBlock :
  adaptiveBatch s = true -> tick_succeeds env fromBlock ->
  exists nb,
    processBlocks s env fromBlock
      = Some (adjustBatchSizeOnSuccess s, nb, None).
Proof.
  intros Ha (l & ts & Hl & Hle & Hf & Hins & Hc).
  unfold processBlocks. rewrite Hl, Hf, Hc, Ha.
  destruct (Z.ltb_spec l fromBlock); [lia|].
  assert ((0 <? length ts)%nat && negb (insert_ok env) = false) as ->.
  { destruct Hins as [->| ->]; [done|]. by rewrite andb_false_r. }
  simpl. by eauto.
Qed.

Lemma processBlocks_failure s env fromBlock :
  adaptiveBatch s = true -> tick_adaptive_failure env fromBlock ->
  processBlocks s env fromBlock =
    s' ← adjustBatchSizeOnFailure s;
    Some (s', fromBlock,
          Some (match fetched env with
                | None => ErrFetch | Some _ => ErrInsert end)).
Proof.
  intros Ha (l & Hl & Hle & Hf).
  unfold processBlocks, on_failure. rewrite Hl, Ha.
  destruct (Z.ltb_spec l fromBlock); [lia|].
  destruct Hf as [->|(ts & -> & Hne & ->)]; [done|].
  by destruct ts.
Qed.
End Adaptive.

Section AdaptiveExamples.
Import GoInt service examples.

(** C6, counterexample: with [blockBatchSize] 10, minimum 20 and maximum
    100 the first tick uses batch size 10, below the minimum; clamping
    would give 20. *)
Lemma first_tick_not_clamped :
  adaptiveBatch service_min20 = true /\
  tick_batch_size service_min20 = 10 /\
  spec_initial_size 10 20 100 = 20 /\
  ~ (batchMinSize service_min20 <= tick_batch_size service_min20
       <= batchMaxSize service_min20).
Proof. vm_compute. repeat split; try done. intros [H _]. by apply H. Qed.

Lemma adaptive_batch_bounds_witness :
  exists sizes s' blk',
    run (NewIngestionService 0 4 false true 1 64 3 2) 1
      [tick_success; tick_fetch_failure] = Some (sizes, s', blk') /\
    Forall (fun b => 1 <= b <= 64) sizes /\
    1 <= tick_batch_size s' <= 64.
Proof.
  apply (adaptive_batch_bounds 0 4 1 64 3 2 false
           [tick_success; tick_fetch_failure] 1);
    vm_compute; intuition congruence.
Defined.

(** C7, as amended: with adaptive batching enabled, and as long as
    [B * 2] does not exceed the largest [uint64] and the success counter
    is below the largest [int64], a successful tick increments the
    success counter and zeroes the failure counter; once the counter
    reaches [successStreak] the batch size becomes
    [min(B * 2, maxSize)], and the success counter is zeroed when this
    changes the batch size and keeps its incremented value when the size
    stays the same (B already at [maxSize]); a tick that fails in the
    fetch or the insertion sets the batch size to
    [max(floor(B / failureDivisor), minSize)], for a divisor of at least
    1; a tick that fails reading the latest block number leaves the
    batch size and the counters as they are.  With min=1, max=64,
    streak=3, divisor=2, initial=4: three successes give 8, one failure
    gives 4, three more failures give 1. *)
Theorem adaptive_policy :
  (forall s env fromBlock,
     adaptiveBatch s = true ->
     0 <= currentBatchSize s -> currentBatchSize s * 2 <= max_uint64 ->
     min_int64 <= successCount s < max_int64 ->
     1 <= batchFailureBackoff s <= max_int64 ->
     (tick_succeeds env fromBlock ->
      exists s' nb,
        processBlocks s env fromBlock = Some (s', nb, None) /\
        failureCount s' = 0 /\
        (successCount s + 1 < batchSuccessStreak s ->
         currentBatchSize s' = currentBatchSize s /\
         successCount s' = successCount s + 1) /\
        (batchSuccessStreak s <= successCount s + 1 ->
         currentBatchSize s'
           = Z.min (currentBatchSize s * 2) (batchMaxSize s) /\
         successCount s'
           = if currentBatchSize s' =? currentBatchSize s
             then successCount s + 1 else 0)) /\
     (tick_adaptive_failure env fromBlock ->
      exists s' err,
        processBlocks s env fromBlock = Some (s', fromBlock, Some err) /\
        currentBatchSize s'
          = Z.max (currentBatchSize s / batchFailureBackoff s)
              (batchMinSize s)) /\
     (latest env = None ->
      processBlocks s env fromBlock
        = Some (s, fromBlock, Some ErrLatestBlock))) /\
  adaptive_scenario.
Proof.
  split; [|by vm_compute].
  intros s env fromBlock Ha H0 H2 Hsc Hd. split; [|split].
  - intros Hok. destruct (processBlocks_success s env fromBlock Ha Hok)
      as (nb & Hp).
    exists (adjustBatchSizeOnSuccess s), nb. split; [done|].
    destruct (success_spec s H0 H2) as (_ & Hfc & HB & HS).
    rewrite wrap_int64_small in HB, HS
      by (unfold is_int64, min_int64, max_int64 in *; lia).
    split; [done|]. split.
    + intros Hlt.
      destruct (Z.leb_spec (batchSuccessStreak s) (successCount s + 1));
        [lia|done].
    + intros Hge.
      destruct (Z.leb_spec (batchSuccessStreak s) (successCount s + 1));
        [|lia]. split; [done|]. rewrite HS. simpl.
      by destruct (_ =? _).
  - intros Hfail. rewrite (processBlocks_failure s env fromBlock Ha Hfail).
    destruct (failure_spec s Hd) as (s' & -> & _ & _ & HB & _).
    simpl. by eauto.
  - intros Hlatest. unfold processBlocks. by rewrite Hlatest.
Qed.

Lemma adaptive_policy_witness :
  exists s' nb,
    processBlocks service_at_max tick_success 1 = Some (s', nb, None) /\
    currentBatchSize s' = 64 /\ successCount s' = 3.
Proof.
  destruct adaptive_policy as [Hpol _].
  destruct (Hpol service_at_max tick_success 1) as [Hok _];
    try (vm_compute; intuition congruence).
  destruct Hok as (s' & nb & Hp & _ & _ & Hge).
  - exists 1000000, []. vm_compute. intuition congruence.
  - exists s', nb. split; [exact Hp|].
    destruct Hge as [HB HS]; [vm_compute; congruence|].
    change (currentBatchSize service_at_max) with 64 in *.
    change (batchMaxSize service_at_max) with 64 in *.
    change (successCount service_at_max) with 2 in *.
    rewrite HB in HS. split; [exact HB|exact HS].
Defined.

(** C7, counterexample, in four parts.  At batch size 64 = [maxSize]
    with two successes counted, the third success reaches the streak of
    3, the size stays 64 and the success counter is 3, not 0.  At batch
    size 4 with divisor 2 and minimum 1, a tick that fails because the
    cursor cannot be written, and one that fails because the latest
    block number cannot be read, both return an error and leave the
    batch size at 4, not at max(floor(4 / 2), 1) = 2.  At batch size
    2^63 with the largest [uint64] as maximum, a success that reaches
    the streak sets the batch size to 0, not to min(2^64, maxSize). *)
Lemma adaptive_policy_exceptions :
  ((exists blk,
      run (NewIngestionService 0 64 false true 1 64 3 2) 1
        [tick_success; tick_success]
        = Some ([64; 64], service_at_max, blk)) /\
   batchSuccessStreak service_at_max <= successCount service_at_max + 1 /\
   currentBatchSize service_at_max = batchMaxSize service_at_max /\
   currentBatchSize (adjustBatchSizeOnSuccess service_at_max) = 64 /\
   successCount (adjustBatchSizeOnSuccess service_at_max) = 3 /\
   successCount (adjustBatchSizeOnSuccess service_at_max) <> 0) /\
  (adaptiveBatch scenario_service = true /\
   currentBatchSize scenario_service = 4 /\
   Z.max (currentBatchSize scenario_service
            / batchFailureBackoff scenario_service)
     (batchMinSize scenario_service) = 2 /\
   processBlocks scenario_service tick_cursor_failure 1
     = Some (scenario_service, 1, Some ErrSetLastProcessed) /\
   processBlocks scenario_service tick_head_failure 1
     = Some (scenario_service, 1, Some ErrLatestBlock)) /\
  (adaptiveBatch service_huge = true /\
   currentBatchSize service_huge = 2 ^ 63 /\
   batchSuccessStreak service_huge <= successCount service_huge + 1 /\
   Z.min (currentBatchSize service_huge * 2) (batchMaxSize service_huge)
     = 2 ^ 64 - 1 /\
   currentBatchSize (adjustBatchSizeOnSuccess service_huge) = 0).
Proof.
  split; [|split].
  - split; [by eexists; vm_compute|].
    vm_compute. repeat split; congruence.
  - vm_compute. by repeat split.
  - vm_compute. by repeat split.
Qed.
End AdaptiveExamples.

(* ===================================================================== *)
(** * The parser: what a successful parse returns *)
(* ===================================================================== *)

Section ParserContract.
Import ethereum.
Variable keccak256 : list ascii -> list byte.

(** X1: [ParseTransferLog] returns an error exactly for a malformed log
    (not three topics, a first topic other than the Transfer signature,
    or data of a length other than 32).  For every other log it returns
    a transfer whose token, sender and recipient are the lower-case
    hexadecimal forms of the log address and of the low 20 bytes of the
    second and third topic, whose value string is the decimal form of
    the data read as a big-endian integer below 2^256, whose Decimal128
    value is that integer when it has at most 34 digits, and whose block
    number, transaction hash, indices and time stamps are those of the
    log and of the call. *)
Theorem ParseTransferLog_contract (now : Z) (log : types.Log)
    (blockTime : Z) :
  match ParseTransferLog keccak256 now log blockTime with
  | inr _ => malformed log
  | inl tr =>
      ~ malformed log /\
      (exists topic1 topic2,
         types.Topics log = [ERC20TransferEventSignature; topic1; topic2] /\
         models.From tr = hexutil.Encode (common.BytesToAddress topic1) /\
         models.To tr = hexutil.Encode (common.BytesToAddress topic2)) /\
      models.EventSignature tr = "Transfer" /\
      models.Token tr = hexutil.Encode (types.Address log) /\
      0 <= big.SetBytes (types.Data log) < 2 ^ 256 /\
      models.ValueString tr = big.String (big.SetBytes (types.Data log)) /\
      (big.SetBytes (types.Data log) <= primitive.maxS ->
       models.Value tr
         = primitive.mkDecimal128 (big.SetBytes (types.Data log)) 0) /\
      models.BlockNumber tr = types.BlockNumber log /\
      models.TxHash tr = hexutil.Encode (types.TxHash log) /\
      models.TxIndex tr = types.TxIndex log /\
      models.LogIndex tr = types.Index log /\
      models.Timestamp tr = blockTime /\
      models.CreatedAt tr = now
  end.
Proof.
  destruct (ParseTransferLog keccak256 now log blockTime) as [tr|e] eqn:Hp.
  - assert (Hm : ~ malformed log).
    { intros Hm.
      apply (ParseTransferLog_error_iff keccak256 now log blockTime) in Hm
        as [e He]. congruence. }
    split; [exact Hm|]. unfold malformed in Hm.
    destruct (types.Topics log) as [|t0 [|t1 [|t2 [|t3 ts]]]] eqn:Ht;
      try (exfalso; apply Hm; left; simpl; lia).
    destruct (decide (t0 = ERC20TransferEventSignature)) as [->|Hne];
      [|exfalso; apply Hm; right; left; simpl; congruence].
    destruct (decide (length (types.Data log) = 32%nat)) as [Hd|Hd];
      [|exfalso; apply Hm; by right; right].
    rewrite (ParseTransferLog_ok keccak256 now log blockTime t1 t2 Ht Hd)
      in Hp.
    injection Hp as <-. cbn [models.From models.To models.EventSignature
      models.Token models.ValueString models.Value models.BlockNumber
      models.TxHash models.TxIndex models.LogIndex models.Timestamp
      models.CreatedAt].
    pose proof (SetBytes_uint256 _ Hd) as Hrange.
    split; [by exists t1, t2|]. split; [done|]. split; [done|].
    split; [exact Hrange|]. split; [done|]. split; [|done].
    intros Hsmall.
    rewrite ParseDecimal128_String by apply Hrange.
    by rewrite reduce_small.
  - apply (ParseTransferLog_error_iff keccak256 now log blockTime).
    by exists e.
Qed.
End ParserContract.

(* ===================================================================== *)
(** * The circuit breaker: counters and recovery *)
(* ===================================================================== *)

Section BreakerCounters.
Import GoInt ethereum.

(** X2: in every state a provider can reach from a new one through its
    three methods, the thresholds are those it was created with; while
    it is Healthy its failure count is below the failure threshold, so a
    provider whose count reached the threshold is never reported
    Healthy; while it is Unhealthy its success count is zero. *)
Theorem breaker_counters_invariant (p0 p : Provider) :
  state p0 = StateHealthy -> failureCount p0 = 0 ->
  1 <= failureThreshold p0 <= max_int64 ->
  1 <= successThreshold p0 <= max_int64 ->
  reachable p0 p ->
  failureThreshold p = failureThreshold p0 /\
  successThreshold p = successThreshold p0 /\
  (state p = StateHealthy -> 0 <= failureCount p < failureThreshold p0) /\
  (state p = StateUnhealthy -> successCount p = 0) /\
  (state p = StateHalfOpen ->
   0 <= successCount p < Z.max (successThreshold p0) 2).
Proof.
  intros Hst Hfc HT HS Hr.
  destruct (reachable_inv p0 p) as (H1 & H2 & H3); try done; try lia.
  split; [done|]. split; [done|].
  destruct (state p); repeat split; try done; lia.
Qed.

(** X3: when a failure recorded at time [t] leaves the breaker
    Unhealthy, [IsHealthy] at time [t'] answers true exactly when more
    than the breaker timeout has passed since [t]; it then moves the
    breaker to HalfOpen with no probe counted, and leaves the provider
    as it is otherwise. *)
Theorem breaker_recovery_time (p : Provider) (t t' : Z) :
  state (RecordFailure t p) = StateUnhealthy ->
  let q := RecordFailure t p in
  ((IsHealthy t' q).1 = true <-> timeout p < t' - t) /\
  (timeout p < t' - t ->
   state (IsHealthy t' q).2 = StateHalfOpen /\
   halfOpenCalls (IsHealthy t' q).2 = 0) /\
  (t' - t <= timeout p -> (IsHealthy t' q).2 = q).
Proof.
  intros Hst. cbn zeta.
  assert (Hlf : lastFailureTime (RecordFailure t p) = t).
  { unfold RecordFailure. destruct (state p); try done;
      by destruct (_ <=? _). }
  assert (Hto : timeout (RecordFailure t p) = timeout p).
  { unfold RecordFailure. destruct (state p); try done;
      by destruct (_ <=? _). }
  unfold IsHealthy. rewrite Hst, Hlf, Hto.
  destruct (Z.ltb_spec (timeout p) (t' - t)); simpl.
  - split; [done|]. split; [done|]. lia.
  - split; [split; [done|lia]|]. split; [lia|done].
Qed.

Lemma failures_below T times : forall p,
  failureThreshold p = T -> T <= max_int64 ->
  state p = StateHealthy -> 0 <= failureCount p ->
  failureCount p + Z.of_nat (length times) < T ->
  state (failures times p) = StateHealthy /\
  failureCount (failures times p)
    = failureCount p + Z.of_nat (length times).
Proof.
  induction times as [|t times IH]; intros p HT Hmax Hst Hfc Hlen.
  - simpl. split; [done|lia].
  - rewrite length_cons in Hlen. unfold failures. simpl.
    rewrite RecordFailure_healthy by (done || lia). rewrite HT.
    destruct (Z.leb_spec T (failureCount p + 1)) as [Hge|Hlt]; [lia|].
    destruct (IH (with_breaker p StateHealthy (failureCount p + 1) 0 t
                    (lastSuccessTime p) (halfOpenCalls p)))
      as [H1 H2]; simpl; try done; try lia.
    unfold failures in *. rewrite H1, H2. simpl.
    split; [done|]. simpl length. lia.
Qed.

(** X4: only consecutive failures open the breaker.  After a success
    recorded on a Healthy provider, any run of fewer failures than the
    threshold leaves it Healthy, with exactly these failures counted,
    whatever the count was before the success. *)
Theorem breaker_success_restarts_count (p : Provider) (now : Z)
    (times : list Z) :
  state p = StateHealthy ->
  failureThreshold p <= max_int64 ->
  Z.of_nat (length times) < failureThreshold p ->
  state (failures times (RecordSuccess now p)) = StateHealthy /\
  failureCount (failures times (RecordSuccess now p))
    = Z.of_nat (length times).
Proof.
  intros Hst Hmax Hlen.
  assert (Hq : state (RecordSuccess now p) = StateHealthy /\
               failureCount (RecordSuccess now p) = 0 /\
               failureThreshold (RecordSuccess now p) = failureThreshold p).
  { unfold RecordSuccess. by rewrite Hst. }
  destruct Hq as (Hs & Hf & Ht).
  destruct (failures_below (failureThreshold p) times (RecordSuccess now p))
    as [H1 H2]; try done; try lia.
  split; [done|]. lia.
Qed.
End BreakerCounters.

Section BreakerCountersExamples.
Import GoInt ethereum examples.

Lemma breaker_counters_invariant_witness :
  failureThreshold probing_provider = 3 /\
  successThreshold probing_provider = 1 /\
  (state probing_provider = StateHalfOpen ->
   0 <= successCount probing_provider < 2).
Proof.
  destruct (breaker_counters_invariant provA probing_provider)
    as (HT & HS & _ & _ & Hhalf).
  - reflexivity.
  - reflexivity.
  - vm_compute. split; discriminate.
  - vm_compute. split; discriminate.
  - exact probing_provider_reachable.
  - split; [exact HT|]. split; [exact HS|]. exact Hhalf.
Defined.

(** Timeout 60, third failure at time 3: not selectable at 63, selectable
    at 64. *)
Lemma breaker_recovery_time_witness :
  (IsHealthy 63 (failures [1; 2; 3] provA)).1 <> true /\
  (IsHealthy 64 (failures [1; 2; 3] provA)).1 = true /\
  state (IsHealthy 64 (failures [1; 2; 3] provA)).2 = StateHalfOpen.
Proof.
  destruct (breaker_recovery_time (failures [1; 2] provA) 3 63)
    as (H63 & _ & _); [vm_compute; reflexivity|].
  destruct (breaker_recovery_time (failures [1; 2] provA) 3 64)
    as (H64 & Hopen & _); [vm_compute; reflexivity|].
  split; [|split].
  - intros H. apply H63 in H. vm_compute in H. discriminate H.
  - apply H64. vm_compute. reflexivity.
  - apply Hopen. vm_compute. reflexivity.
Defined.

(** Threshold 3: two failures, a success, two more failures. *)
Lemma breaker_success_restarts_count_witness :
  state (failures [6; 7] (RecordSuccess 5 (failures [1; 2] provA)))
    = StateHealthy /\
  failureCount (failures [6; 7] (RecordSuccess 5 (failures [1; 2] provA)))
    = 2.
Proof.
  apply (breaker_success_restarts_count (failures [1; 2] provA) 5 [6; 7]).
  - vm_compute. reflexivity.
  - vm_compute. discriminate.
  - vm_compute. reflexivity.
Defined.
End BreakerCountersExamples.

(* ===================================================================== *)
(** * The provider pool: order, rotation and number of attempts *)
(* ===================================================================== *)

Section PoolOrder.
Import GoInt ethereum.

Lemma insert_by_weight_perm p l : insert_by_weight p l ≡ₚ p :: l.
Proof.
  induction l as [|q l IH]; [done|]. simpl.
  destruct (Weight q <=? Weight p); [done|].
  rewrite IH. apply Permutation_swap.
Qed.

Lemma insert_by_weight_sorted p l :
  StronglySorted (fun a b => Weight b <= Weight a) l ->
  StronglySorted (fun a b => Weight b <= Weight a) (insert_by_weight p l).
Proof.
  induction 1 as [|q l Hs IH Hq]; simpl.
  - repeat constructor.
  - destruct (Z.leb_spec (Weight q) (Weight p)) as [Hle|Hgt].
    + constructor; [by constructor|].
      constructor; [done|].
      eapply Forall_impl; [exact Hq|]. simpl. intros x Hx. lia.
    + constructor; [done|].
      rewrite insert_by_weight_perm. constructor; [lia|done].
Qed.

Lemma sort_by_weight_perm ps : sort_by_weight ps ≡ₚ ps.
Proof.
  unfold sort_by_weight. induction ps as [|p ps IH]; [done|]. simpl.
  by rewrite insert_by_weight_perm, IH.
Qed.

Lemma sort_by_weight_sorted ps :
  StronglySorted (fun a b => Weight b <= Weight a) (sort_by_weight ps).
Proof.
  unfold sort_by_weight. induction ps as [|p ps IH]; [constructor|]. simpl.
  by apply insert_by_weight_sorted.
Qed.

(** X5: a new pool holds exactly the providers it was given, ordered by
    descending weight, and starts its rotation at zero. *)
Theorem NewProviderPool_sorted (ps : list Provider) :
  providers (NewProviderPool ps) ≡ₚ ps /\
  StronglySorted (fun a b => Weight b <= Weight a)
    (providers (NewProviderPool ps)) /\
  current (NewProviderPool ps) = 0.
Proof.
  unfold NewProviderPool. cbn [providers current].
  split; [apply sort_by_weight_perm|].
  split; [apply sort_by_weight_sorted|reflexivity].
Qed.

End PoolOrder.

Section PoolLock.
Import GoInt ethereum.
Context {A : Type}.

(** X6: [SelectProvider] returns on no pool.  It leaves providers and
    rotation counter as they are; called on a free lock it leaves the
    lock held by a writer that waits for a read lock on it, and from
    then on [GetHealthyProviders] and [SelectProvider] wait as well. *)
Theorem SelectProvider_never_returns (now : Z) (pool : ProviderPool) :
  let '(sel, pool') := SelectProvider now pool in
  sel = Blocked /\
  providers pool' = providers pool /\ current pool' = current pool /\
  (mu pool = sync.Unlocked ->
   mu pool' = sync.WriteLocked /\
   forall later,
     GetHealthyProviders later pool' = None /\
     SelectProvider later pool' = (Blocked, pool')).
Proof.
  unfold SelectProvider, GetHealthyProviders.
  destruct pool as [ps m c]. cbn [mu providers current with_mu].
  destruct m as [| |readers]; cbn; by repeat split.
Qed.

(** X7: [FilterLogs], [BlockByNumber] and [HeaderByNumber] never invoke
    a provider and never return an answer, whatever the breakers, the
    range and the providers' behaviour: on a pool without providers each
    returns the all-failed error at once, and on every other pool each
    waits in its first [SelectProvider] without end.  Providers and
    rotation counter of the pool stay as they are. *)
Theorem pool_operations_block (env : CallEnv A) (pool : ProviderPool)
    (fromBlock toBlock : Z) :
  Forall (fun r : PoolResult A * ProviderPool * list nat =>
            r.2 = [] /\
            providers r.1.2 = providers pool /\
            current r.1.2 = current pool /\
            (forall served v, r.1.1 <> PoolOk served v) /\
            r.1.1 = match providers pool with
                    | [] => PoolAllFailed
                    | _ :: _ => PoolBlocked
                    end /\
            (providers pool = [] -> r.1.2 = pool))
    [FilterLogs env pool fromBlock toBlock;
     BlockByNumber env pool; HeaderByNumber env pool].
Proof.
  assert (Hgen : forall costHint,
    let r := attempt_loop env costHint (length (providers pool))
               (length (providers pool) * 2) 0 pool ∅ [] in
    r.2 = [] /\
    providers r.1.2 = providers pool /\
    current r.1.2 = current pool /\
    (forall served v, r.1.1 <> PoolOk served v) /\
    r.1.1 = match providers pool with
            | [] => PoolAllFailed
            | _ :: _ => PoolBlocked
            end /\
    (providers pool = [] -> r.1.2 = pool)).
  { intros costHint. cbn zeta. rewrite pool_operation.
    destruct (SelectProvider_waits (select_time env 0) pool)
      as (_ & Hps & Hc & _).
    destruct (providers pool) as [|p ps] eqn:Hpool; cbn [fst snd].
    - by repeat split.
    - by repeat split. }
  constructor; [apply Hgen|]. constructor; [apply Hgen|].
  constructor; [apply Hgen|constructor].
Qed.

Lemma healthy_scan_spec now ps : forall i,
  (healthy_scan now i ps).2 = (fun p => (IsHealthy now p).2) <$> ps /\
  StronglySorted lt (healthy_scan now i ps).1 /\
  forall j, j ∈ (healthy_scan now i ps).1 <->
    exists k p, j = (i + k)%nat /\ ps !! k = Some p /\
                (IsHealthy now p).1 = true.
Proof.
  induction ps as [|p ps IH]; intros i.
  - cbn. split; [done|]. split; [constructor|].
    intros j. split; [by intros H%elem_of_nil|]. by intros (k & q & _ & H & _).
  - cbn [healthy_scan]. destruct (IsHealthy now p) as [h p'] eqn:Hp.
    destruct (IH (S i)) as (Hps & Hsort & Hin).
    destruct (healthy_scan now (S i) ps) as [idxs rest]. cbn [fst snd] in *.
    assert (Hlow : Forall (lt i) idxs).
    { apply Forall_forall. intros j Hj. apply Hin in Hj as (k & _ & -> & _).
      lia. }
    split; [by rewrite fmap_cons, Hp, Hps|]. split.
    + destruct h; [by constructor|done].
    + intros j. split.
      * intros Hj.
        assert (Hcase : (h = true /\ j = i) \/ j ∈ idxs).
        { destruct h; [|by right].
          apply elem_of_cons in Hj as [->|Hj]; [by left|by right]. }
        destruct Hcase as [[-> ->]|Hj'].
        -- exists 0%nat, p. split; [lia|]. split; [done|]. by rewrite Hp.
        -- apply Hin in Hj' as (k & q & -> & Hk & Hq).
           exists (S k), q. split; [lia|done].
      * intros (k & q & -> & Hk & Hq). destruct k as [|k].
        -- cbn in Hk. injection Hk as <-. rewrite Hp in Hq. cbn in Hq.
           subst h. rewrite Nat.add_0_r. by left.
        -- cbn in Hk.
           assert (Hj : (i + S k)%nat ∈ idxs).
           { apply Hin. exists k, q. split; [lia|done]. }
           destruct h; [by right|done].
Qed.

Lemma healthy_scan_tripped now ps : forall i,
  Forall (fun p => state p = StateUnhealthy /\
                   (timeout p <? now - lastFailureTime p) = false) ps ->
  healthy_scan now i ps = ([], ps).
Proof.
  induction ps as [|p ps IH]; intros i H; [done|].
  apply Forall_cons in H as [[Hst Ht] H]. simpl.
  unfold IsHealthy. rewrite Hst, Ht. by rewrite (IH (S i)).
Qed.

(** X8: called while the lock of the pool is free, [GetHealthyProviders]
    returns and leaves the lock free.  It returns, in ascending order,
    exactly the positions of the providers whose [IsHealthy] answers
    true at that time, and every provider of the pool is afterwards as
    its [IsHealthy] call left it; the rotation counter is unchanged.  In
    particular it returns nothing when every breaker is open with its
    timeout not elapsed, and then changes nothing. *)
Theorem GetHealthyProviders_positions (now : Z) (pool : ProviderPool) :
  mu pool = sync.Unlocked ->
  exists healthy pool',
    GetHealthyProviders now pool = Some (healthy, pool') /\
    mu pool' = sync.Unlocked /\ current pool' = current pool /\
    providers pool' = (fun p => (IsHealthy now p).2) <$> providers pool /\
    StronglySorted lt healthy /\
    (forall i, i ∈ healthy <->
       exists p, providers pool !! i = Some p /\
                 (IsHealthy now p).1 = true) /\
    (all_tripped now pool -> healthy = [] /\ pool' = pool).
Proof.
  intros Hmu. unfold GetHealthyProviders. rewrite Hmu. cbn [sync.RLock].
  destruct (healthy_scan_spec now (providers pool) 0) as (Hps & Hsort & Hin).
  destruct (healthy_scan now 0 (providers pool)) as [idxs ps'] eqn:Hscan.
  cbn [fst snd] in *. exists idxs, {| providers := ps'; mu := sync.Unlocked;
                                      current := current pool |}.
  split; [done|]. split; [done|]. split; [done|]. split; [done|].
  split; [done|]. split.
  - intros i. rewrite Hin. split.
    + intros (k & p & -> & Hk & Hp). by exists p.
    + intros (p & Hk & Hp). by exists i, p.
  - intros Htrip.
    rewrite (healthy_scan_tripped now (providers pool) 0 Htrip) in Hscan.
    injection Hscan as <- <-. split; [done|].
    destruct pool as [ps m c]. cbn in *. by subst m.
Qed.
End PoolLock.

Section PoolLockExamples.
Import GoInt ethereum examples.

(** Two providers with open breakers: none is healthy at time 10. *)
Lemma GetHealthyProviders_positions_witness :
  exists healthy pool',
    GetHealthyProviders 10 pool_tripped = Some (healthy, pool') /\
    healthy = [] /\ pool' = pool_tripped.
Proof.
  destruct (GetHealthyProviders_positions 10 pool_tripped eq_refl)
    as (healthy & pool' & Hget & _ & _ & _ & _ & _ & Htrip).
  exists healthy, pool'. split; [exact Hget|]. apply Htrip.
  repeat constructor.
Defined.
End PoolLockExamples.

(* ===================================================================== *)
(** * The cache of block time stamps *)
(* ===================================================================== *)

Section HeaderCache.
Import headercache.

(** X9: after [Set] stored a time stamp for a block at time [t0], [Get]
    for that block answers with the stamp as long as the clock has not
    passed [t0] plus the time-to-live, and answers not found (starting
    the removal of the entry) once it has; for every other block the
    answer is the one the cache gave before. *)
Theorem header_cache_set_get (c : BlockHeaderCache)
    (t0 now bn bn' stamp : Z) :
  Get now bn' (Set_ t0 bn stamp c) =
    if bool_decide (bn' = bn)
    then (if t0 + ttl c <? now then (None, true) else (Some stamp, false))
    else Get now bn' c.
Proof.
  unfold Get, Set_. simpl. case_bool_decide as Hb.
  - subst. by rewrite lookup_insert_eq.
  - by rewrite lookup_insert_ne.
Qed.

Lemma Get_Some now bn c stamp started :
  Get now bn c = (Some stamp, started) ->
  started = false /\
  exists h, cache c !! bn = Some h /\ timestamp h = stamp /\
            now <= expiresAt h.
Proof.
  unfold Get. destruct (cache c !! bn) as [h|]; [|done].
  destruct (Z.ltb_spec (expiresAt h) now); [done|].
  intros [= <- <-]. split; [done|]. by exists h.
Qed.

(** X10: a [Get] together with the removal it starts keeps the
    time-to-live, changes the cache only when it answers not found, and
    then only at the block asked for; a stamp it answers with is the one
    of an entry that has not expired; after an answer of not found the
    block is absent, so that no later [Get] finds it until it is set
    again; the cache never grows. *)
Theorem header_cache_expiry (c : BlockHeaderCache) (now bn : Z) :
  let '(r, c') := GetAndExpire now bn c in
  ttl c' = ttl c /\
  (forall stamp, r = Some stamp ->
     c' = c /\
     exists h, cache c !! bn = Some h /\ timestamp h = stamp /\
               now <= expiresAt h) /\
  (r = None -> forall t, (Get t bn c').1 = None) /\
  (forall bn', bn' <> bn -> cache c' !! bn' = cache c !! bn') /\
  (Size c' <= Size c)%nat.
Proof.
  unfold GetAndExpire. destruct (Get now bn c) as [r started] eqn:HG.
  unfold Get in HG. destruct (cache c !! bn) as [h|] eqn:Hh.
  - destruct (Z.ltb_spec (expiresAt h) now); injection HG as <- <-.
    + split; [done|]. split; [done|]. split; [|split].
      * intros _ t. unfold Get, Delete. simpl. by rewrite lookup_delete_eq.
      * intros bn' Hne. unfold Delete. simpl. by rewrite lookup_delete_ne.
      * unfold Size, Delete. simpl.
        rewrite map_size_delete, Hh. lia.
    + split; [done|]. split; [|split; [done|split; [done|lia]]].
      intros stamp [= <-]. split; [done|]. by exists h.
  - injection HG as <- <-. split; [done|]. split; [done|].
    split; [|split; [done|lia]].
    intros _ t. unfold Get. by rewrite Hh.
Qed.
End HeaderCache.

(* ===================================================================== *)
(** * The fetcher *)
(* ===================================================================== *)

Section Fetcher.
Import GoInt fetcher.
Variable keccak256 : list ascii -> list byte.
Variable env : FetchEnv.


Lemma first_index_elem log logs :
  log ∈ logs -> is_Some (first_index (types.BlockNumber log) logs).
Proof.
  induction logs as [|l logs IH]; intros Hin.
  - by apply elem_of_nil in Hin.
  - simpl. case_bool_decide as Hb; [by eexists|].
    apply elem_of_cons in Hin as [->|Hin]; [done|].
    destruct (IH Hin) as [j ->]. by eexists.
Qed.

Lemma first_index_lookup bn logs j :
  first_index bn logs = Some j ->
  exists log, logs !! j = Some log /\ types.BlockNumber log = bn.
Proof.
  revert j. induction logs as [|l logs IH]; intros j; simpl; [done|].
  case_bool_decide as Hb.
  - intros [= <-]. by exists l.
  - destruct (first_index bn logs) as [k|]; [|done]. intros [= <-].
    by apply IH.
Qed.

Lemma Get_None_fresh c now bn :
  (headercache.Get now bn c).1 = None <-> ~ fresh c now bn.
Proof.
  unfold headercache.Get, fresh.
  destruct (headercache.cache c !! bn) as [h|]; simpl.
  - destruct (Z.ltb_spec (headercache.expiresAt h) now); simpl; split;
      try done.
    + intros _ (h' & [= <-] & Hle). lia.
    + intros Hnf. exfalso. apply Hnf. by exists h.
  - split; [|done]. by intros _ (h & ? & _).
Qed.

(** The first loop, for any state it is started in. *)
Lemma scan_blocks_spec c logs : forall i U T B E T' B' E',
  scan_blocks env c i logs U T B E = (T', B', E') ->
  exists newB newE,
    B' = B ++ newB /\ E' = E ++ newE /\ NoDup newB /\
    (forall bn, bn ∈ newB -> bn ∉ U) /\
    (forall bn, bn ∈ newE -> bn ∈ newB) /\
    (forall bn, bn ∈ U -> T' !! bn = T !! bn) /\
    (forall bn, bn ∉ U ->
       match first_index bn logs with
       | None => T' !! bn = T !! bn /\ bn ∉ newB
       | Some j =>
           match headercache.Get (lookup_clock env (i + j)) bn c with
           | (Some s, _) => T' !! bn = Some s /\ bn ∉ newB
           | (None, started) =>
               T' !! bn = T !! bn /\ bn ∈ newB /\
               (bn ∈ newE <-> started = true)
           end
       end).
Proof.
  induction logs as [|log logs IH]; intros i U T B E T' B' E' H.
  - simpl in H. injection H as <- <- <-. exists [], [].
    rewrite !app_nil_r.
    split; [done|]. split; [done|]. split; [apply NoDup_nil_2|].
    split; [intros bn Hbn; by apply elem_of_nil in Hbn|].
    split; [intros bn Hbn; by apply elem_of_nil in Hbn|].
    split; [done|].
    intros bn _. simpl. split; [done|]. apply not_elem_of_nil.
  - simpl in H. case_bool_decide as HU.
    + apply IH in H as (newB & newE & -> & -> & Hnd & Hdis & HE & HT & Hnew).
      exists newB, newE. repeat split; try done.
      intros bn Hbn. simpl.
      rewrite bool_decide_eq_false_2
        by (intros Heq; apply Hbn; by rewrite <- Heq).
      specialize (Hnew bn Hbn).
      destruct (first_index bn logs) as [j|]; simpl; [|done].
      by replace (i + S j)%nat with (S i + j)%nat by lia.
    + destruct (headercache.Get (lookup_clock env i) (types.BlockNumber log) c)
        as [[s|] started] eqn:HG.
      * apply IH in H
          as (newB & newE & -> & -> & Hnd & Hdis & HE & HT & Hnew).
        exists newB, newE. repeat split; try done.
        { intros bn Hbn HbU. apply (Hdis bn Hbn). set_solver. }
        { intros bn HbU. rewrite HT by set_solver.
          apply lookup_insert_ne. intros Heq. apply HU. by rewrite Heq. }
        intros bn Hbn. simpl. case_bool_decide as Hb.
        -- subst bn. rewrite Nat.add_0_r, HG.
           rewrite HT by set_solver. rewrite lookup_insert_eq.
           split; [done|]. intros Hin. apply (Hdis _ Hin). set_solver.
        -- assert (Hbn' : bn ∉ {[types.BlockNumber log]} ∪ U).
           { intros [Hx|Hx]%elem_of_union; [|done].
             apply elem_of_singleton in Hx. congruence. }
           specialize (Hnew bn Hbn').
           destruct (first_index bn logs) as [j|]; simpl.
           ++ replace (i + S j)%nat with (S i + j)%nat by lia.
              destruct (headercache.Get _ bn c) as [[s'|] st'];
                [done|].
              by rewrite lookup_insert_ne in Hnew by done.
           ++ by rewrite lookup_insert_ne in Hnew by done.
      * apply IH in H
          as (newB & newE & -> & -> & Hnd & Hdis & HE & HT & Hnew).
        exists (types.BlockNumber log :: newB),
               ((if started then [types.BlockNumber log] else []) ++ newE).
        assert (Hfresh : types.BlockNumber log ∉ newB).
        { intros Hin. apply (Hdis _ Hin). set_solver. }
        split; [by rewrite <- app_assoc|]. split.
        { destruct started; by rewrite <- ?app_assoc, ?app_nil_r. }
        split; [by apply NoDup_cons|]. split.
        { intros bn [->|Hin]%elem_of_cons; [done|].
          intros HbU. apply (Hdis bn Hin). set_solver. }
        split.
        { intros bn [Hin|Hin]%elem_of_app.
          - destruct started; [|by apply elem_of_nil in Hin].
            apply list_elem_of_singleton in Hin as ->. apply elem_of_cons.
            by left.
          - apply elem_of_cons. right. by apply HE. }
        split; [intros bn HbU; apply HT; set_solver|].
        intros bn Hbn. simpl. case_bool_decide as Hb.
        -- subst bn. rewrite Nat.add_0_r, HG.
           split; [apply HT; set_solver|]. split; [by left|].
           split.
           ++ intros [Hin|Hin]%elem_of_app.
              ** by destruct started; [|apply elem_of_nil in Hin].
              ** exfalso. by apply Hfresh, HE.
           ++ intros ->. apply elem_of_app. left. by left.
        -- assert (Hbn' : bn ∉ {[types.BlockNumber log]} ∪ U).
           { intros [Hx|Hx]%elem_of_union; [|done].
             apply elem_of_singleton in Hx. congruence. }
           specialize (Hnew bn Hbn').
           destruct (first_index bn logs) as [j|]; simpl.
           ++ replace (i + S j)%nat with (S i + j)%nat by lia.
              destruct (headercache.Get _ bn c) as [[s'|] st'].
              ** destruct Hnew as [H1 H2]. split; [done|].
                 intros [?|?]%elem_of_cons; done.
              ** destruct Hnew as (H1 & H2 & H3). split; [done|].
                 split; [by right|]. rewrite <- H3. split.
                 --- intros [Hin|Hin]%elem_of_app; [|done].
                     destruct started; [|by apply elem_of_nil in Hin].
                     by apply list_elem_of_singleton in Hin.
                 --- intros Hin. apply elem_of_app. by right.
           ++ destruct Hnew as [H1 H2]. split; [done|].
              intros [?|?]%elem_of_cons; done.
Qed.

(** The header requests. *)
Lemma fetch_headers_spec B : forall c T,
  match fetch_headers env B c T with
  | None => exists bn, bn ∈ B /\ block_time env bn = None
  | Some (c', T') =>
      headercache.ttl c' = headercache.ttl c /\
      (forall bn, bn ∈ B -> is_Some (block_time env bn)) /\
      (forall bn, bn ∈ B ->
         T' !! bn = wrap_int64 <$> block_time env bn /\
         headercache.cache c' !! bn =
           (fun t => headercache.mkCachedHeader (wrap_int64 t)
                       (store_clock env bn + headercache.ttl c))
             <$> block_time env bn) /\
      (forall bn, bn ∉ B ->
         T' !! bn = T !! bn /\
         headercache.cache c' !! bn = headercache.cache c !! bn)
  end.
Proof.
  induction B as [|b B IH]; intros c T; simpl.
  - split; [done|].
    split; [intros bn Hbn; by apply elem_of_nil in Hbn|].
    split; [intros bn Hbn; by apply elem_of_nil in Hbn|done].
  - destruct (block_time env b) as [t|] eqn:Hb.
    2:{ exists b. split; [by left|done]. }
    specialize (IH (headercache.Set_ (store_clock env b) b (wrap_int64 t) c)
                  (<[b := wrap_int64 t]> T)).
    destruct (fetch_headers env B _ _) as [[c' T']|].
    2:{ destruct IH as (bn & Hin & Hn). exists bn. split; [by right|done]. }
    destruct IH as (Httl & Hall & Hin & Hout). simpl in *.
    split; [done|]. split.
    { intros bn [->|H]%elem_of_cons; [by rewrite Hb|by apply Hall]. }
    split.
    + intros bn Hbn. destruct (decide (bn ∈ B)) as [HB|HB].
      * apply Hin, HB.
      * apply elem_of_cons in Hbn as [->|?]; [|done].
        destruct (Hout b HB) as [-> ->].
        by rewrite !lookup_insert_eq, Hb.
    + intros bn Hbn. apply not_elem_of_cons in Hbn as [Hne HB].
      destruct (Hout bn HB) as [-> ->].
      by rewrite !lookup_insert_ne.
Qed.

Lemma run_deletes_spec blocks : forall c,
  headercache.ttl (run_deletes blocks c) = headercache.ttl c /\
  forall bn,
    headercache.cache (run_deletes blocks c) !! bn =
      if bool_decide (bn ∈ blocks) then None
      else headercache.cache c !! bn.
Proof.
  induction blocks as [|b blocks IH]; intros c.
  - split; [done|]. intros bn. rewrite bool_decide_eq_false_2; [done|].
    apply not_elem_of_nil.
  - change (run_deletes (b :: blocks) c)
      with (run_deletes blocks (headercache.Delete b c)).
    destruct (IH (headercache.Delete b c)) as [-> IH2]. split; [done|].
    intros bn. rewrite IH2. unfold headercache.Delete.
    cbn [headercache.cache].
    destruct (decide (bn = b)) as [->|Hne].
    + rewrite (bool_decide_eq_true_2 (b ∈ b :: blocks)) by by left.
      case_bool_decide; [done|]. apply lookup_delete_eq.
    + rewrite lookup_delete_ne by done.
      destruct (decide (bn ∈ blocks)) as [Hin|Hout].
      * rewrite !bool_decide_eq_true_2; [done|by right|done].
      * rewrite !bool_decide_eq_false_2; [done| |done].
        by intros [?|?]%elem_of_cons.
Qed.

(** The last loop, when every log has a time stamp. *)
Lemma parse_logs_spec (stamps : gmap Z Z) (st : Z -> option Z) logs :
  forall i,
  (forall log, log ∈ logs ->
     stamps !! types.BlockNumber log = st (types.BlockNumber log) /\ is_Some (st (types.BlockNumber log))) ->
  parse_logs keccak256 env i logs stamps =
    Some (omap (fun il : nat * types.Log =>
                  stamp ← st (types.BlockNumber il.2);
                  match ethereum.ParseTransferLog keccak256
                          (parse_clock env il.1) il.2 stamp with
                  | inl transfer => Some transfer
                  | inr _ => None
                  end)
            (imap (fun j => pair (i + j)%nat) logs)).
Proof.
  induction logs as [|log logs IH]; intros i Hall; [done|].
  simpl. destruct (Hall log) as [Hs [s Hst]]; [by left|].
  rewrite Hs, Hst. simpl.
  rewrite (IH (S i)) by (intros l Hl; apply Hall; by right). simpl.
  rewrite Nat.add_0_r.
  assert (Himap : imap ((fun j => pair (i + j)%nat) ∘ S) logs
                  = imap (fun j => pair (S i + j)%nat) logs).
  { apply imap_ext. intros j x _. simpl. f_equal. lia. }
  rewrite Himap.
  by destruct (ethereum.ParseTransferLog _ _ _ _).
Qed.

Lemma parse_logs_missing (stamps : gmap Z Z) logs : forall i,
  parse_logs keccak256 env i logs stamps = None ->
  exists log, log ∈ logs /\ stamps !! types.BlockNumber log = None.
Proof.
  induction logs as [|log logs IH]; intros i; simpl; [done|].
  destruct (stamps !! types.BlockNumber log) as [s|] eqn:Hs.
  - destruct (parse_logs keccak256 env (S i) logs stamps) eqn:Hp; simpl.
    + by destruct (ethereum.ParseTransferLog _ _ _ _).
    + intros _. destruct (IH (S i) Hp) as (l & Hl & Hn).
      exists l. split; [by right|done].
  - intros _. exists log. split; [by left|done].
Qed.

(** How a call unfolds once the logs are known. *)
Lemma fetch_stamps f logs T B E :
  scan_blocks env (cache f) 0 logs ∅ ∅ [] [] = (T, B, E) ->
  NoDup B /\
  (forall bn, bn ∈ E -> bn ∈ B) /\
  (forall bn, bn ∈ B <->
     exists j, first_index bn logs = Some j /\
       ~ fresh (cache f) (lookup_clock env j) bn) /\
  (forall bn, bn ∈ E <->
     exists j, first_index bn logs = Some j /\
       headercache.Get (lookup_clock env j) bn (cache f) = (None, true)) /\
  (forall bn, bn ∈ B -> T !! bn = None) /\
  (forall log, log ∈ logs ->
     stamp_of env (cache f) logs (types.BlockNumber log) =
       if bool_decide (types.BlockNumber log ∈ B)
       then wrap_int64 <$> block_time env (types.BlockNumber log)
       else T !! types.BlockNumber log) /\
  (forall log, log ∈ logs -> types.BlockNumber log ∉ B -> is_Some (T !! types.BlockNumber log)).
Proof.
  intros H. apply scan_blocks_spec in H
    as (newB & newE & -> & -> & Hnd & _ & HE & _ & Hnew).
  simpl. split; [done|]. split; [done|].
  assert (Hcase : forall bn,
    match first_index bn logs with
    | None => (bn ∉ newB) /\ (bn ∉ newE)
    | Some j =>
        match headercache.Get (lookup_clock env j) bn (cache f) with
        | (Some s, _) => (bn ∉ newB) /\ (bn ∉ newE)
        | (None, started) => bn ∈ newB /\ (bn ∈ newE <-> started = true)
        end
    end).
  { intros bn. specialize (Hnew bn (not_elem_of_empty bn)).
    destruct (first_index bn logs) as [j|].
    - simpl in Hnew.
      destruct (headercache.Get _ bn (cache f)) as [[s|] st].
      + destruct Hnew as [_ H2]. split; [done|]. intros Hin. by apply H2, HE.
      + by destruct Hnew as (_ & H2 & H3).
    - destruct Hnew as [_ H2]. split; [done|]. intros Hin. by apply H2, HE. }
  split; [|split; [|split; [|split]]].
  - intros bn. specialize (Hcase bn). split.
    + intros Hin. destruct (first_index bn logs) as [j|]; [|by destruct Hcase].
      exists j. split; [done|]. apply Get_None_fresh.
      by destruct (headercache.Get _ bn (cache f)) as [[s|] st];
        [destruct Hcase|].
    + intros (j & Hj & Hf). rewrite Hj in Hcase.
      apply Get_None_fresh in Hf.
      destruct (headercache.Get _ bn (cache f)) as [[s|] st];
        [done|by destruct Hcase].
  - intros bn. specialize (Hcase bn). split.
    + intros Hin. destruct (first_index bn logs) as [j|]; [|by destruct Hcase].
      exists j. split; [done|].
      destruct (headercache.Get _ bn (cache f)) as [[s|] st];
        [by destruct Hcase|].
      destruct Hcase as [_ Hst]. by rewrite (proj1 Hst Hin).
    + intros (j & Hj & HG). rewrite Hj, HG in Hcase. by apply Hcase.
  - intros bn Hin. specialize (Hnew bn (not_elem_of_empty bn)).
    destruct (first_index bn logs) as [j|]; simpl in Hnew.
    + destruct (headercache.Get _ bn (cache f)) as [[s|] st];
        by destruct Hnew.
    + by destruct Hnew.
  - intros log Hlog. unfold stamp_of.
    destruct (first_index_elem log logs Hlog) as [j Hj].
    specialize (Hnew (types.BlockNumber log) (not_elem_of_empty _)).
    rewrite Hj in *. simpl in *.
    destruct (headercache.Get _ (types.BlockNumber log) (cache f)) as [[s|] st].
    + destruct Hnew as [-> Hout]. by rewrite bool_decide_eq_false_2.
    + destruct Hnew as (_ & Hin & _). by rewrite bool_decide_eq_true_2.
  - intros log Hlog Hout.
    destruct (first_index_elem log logs Hlog) as [j Hj].
    specialize (Hnew (types.BlockNumber log) (not_elem_of_empty _)).
    rewrite Hj in *. simpl in *.
    destruct (headercache.Get _ (types.BlockNumber log) (cache f)) as [[s|] st].
    + destruct Hnew as [-> _]. by eexists.
    + by destruct Hnew as (_ & Hin & _).
Qed.


Lemma Get_started c now bn :
  (headercache.Get now bn c).1 = None ->
  (headercache.Get now bn c).2 = true <->
  is_Some (headercache.cache c !! bn).
Proof.
  unfold headercache.Get.
  destruct (headercache.cache c !! bn) as [h|]; simpl.
  - destruct (_ <? _); simpl; [|done]. intros _. split; [by eexists|done].
  - intros _. split; [done|]. by intros [? ?].
Qed.

(** The outcome of a call, case by case. *)
Lemma FetchTransferLogs_cases f fromBlock toBlock :
  let R := FetchTransferLogs keccak256 env f fromBlock toBlock in
  match filter_logs env fromBlock toBlock with
  | None => R = FetchFailed ErrFilterLogs
  | Some logs =>
      ((exists log, log ∈ logs /\
          stamp_of env (cache f) logs (types.BlockNumber log) = None) /\
       R = FetchFailed ErrGetBlock) \/
      ((forall log, log ∈ logs ->
          is_Some (stamp_of env (cache f) logs (types.BlockNumber log))) /\
       exists f' requested,
         R = FetchOk (expected_transfers keccak256 env (cache f) logs)
               f' requested /\
         NoDup requested /\
         (forall bn, bn ∈ requested <->
            exists j, first_index bn logs = Some j /\
              ~ fresh (cache f) (lookup_clock env j) bn) /\
         headercache.ttl (cache f') = headercache.ttl (cache f) /\
         (forall bn,
            headercache.cache (cache f') !! bn =
              if bool_decide (bn ∈ requested) then
                if delete_late env bn
                   && bool_decide
                        (is_Some (headercache.cache (cache f) !! bn))
                then None
                else
                  (fun t => headercache.mkCachedHeader (wrap_int64 t)
                     (store_clock env bn + headercache.ttl (cache f)))
                    <$> block_time env bn
              else headercache.cache (cache f) !! bn))
  end.
Proof.
  cbn zeta. unfold FetchTransferLogs.
  destruct (filter_logs env fromBlock toBlock) as [logs|]; [|done].
  destruct logs as [|l0 ls].
  { right. split; [intros log Hl; by apply elem_of_nil in Hl|].
    exists f, []. split; [done|]. split; [apply NoDup_nil_2|].
    split; [|split; [done|]].
    - intros bn. split; [intros H; by apply elem_of_nil in H|].
      by intros (j & Hj & _).
    - intros bn. rewrite bool_decide_eq_false_2; [done|].
      apply not_elem_of_nil. }
  set (logs := l0 :: ls).
  destruct (scan_blocks env (cache f) 0 logs ∅ ∅ [] []) as [[T B] E] eqn:Hs.
  destruct (fetch_stamps f logs T B E Hs)
    as (Hnd & HEB & HB & HE & HTB & Hst & HTs).
  set (early := filter (fun bn => delete_late env bn = false) E).
  set (late := filter (fun bn => delete_late env bn = true) E).
  pose proof (fetch_headers_spec B (run_deletes early (cache f)) T) as Hf.
  destruct (run_deletes_spec early (cache f)) as [Hettl Hearly].
  destruct (fetch_headers env B (run_deletes early (cache f)) T)
    as [[c' stamps]|].
  - destruct Hf as (Httl & Hall & Hin & Hout). right.
    assert (Hstamps : forall log, log ∈ logs ->
      stamps !! types.BlockNumber log
        = stamp_of env (cache f) logs (types.BlockNumber log) /\
      is_Some (stamp_of env (cache f) logs (types.BlockNumber log))).
    { intros log Hlog. rewrite (Hst log Hlog).
      case_bool_decide as HinB.
      - destruct (Hin _ HinB) as [-> _]. split; [done|].
        destruct (Hall _ HinB) as [t ->]. by eexists.
      - destruct (Hout _ HinB) as [-> _]. split; [done|].
        by apply HTs. }
    split; [intros log Hlog; by apply Hstamps|].
    rewrite (parse_logs_spec stamps (stamp_of env (cache f) logs) logs 0
               Hstamps).
    destruct (run_deletes_spec late c') as [Hlttl Hlate].
    eexists _, B. split; [reflexivity|]. split; [done|]. split; [done|].
    simpl. split; [by rewrite Hlttl, Httl, Hettl|].
    intros bn. rewrite Hlate.
    destruct (decide (bn ∈ B)) as [HinB|HoutB].
    + rewrite (bool_decide_eq_true_2 (bn ∈ B)) by done.
      destruct (Hin _ HinB) as [_ Hc']. rewrite Hc', Hettl.
      assert (HEiff : bn ∈ E <->
                is_Some (headercache.cache (cache f) !! bn)).
      { apply HB in HinB as (j & Hj & Hnf). rewrite HE.
        apply Get_None_fresh in Hnf. pose proof (Get_started _ _ _ Hnf) as Hs'.
        split.
        - intros (j' & Hj' & HG). rewrite Hj in Hj'. injection Hj' as <-.
          apply Hs'. by rewrite HG.
        - intros Hsome. exists j. split; [done|].
          apply Hs' in Hsome.
          destruct (headercache.Get _ bn (cache f)) as [r st].
          simpl in *. by subst. }
      destruct (delete_late env bn) eqn:Hdl; simpl.
      * destruct (decide (is_Some (headercache.cache (cache f) !! bn)))
          as [Hsome|Hnone].
        -- rewrite (bool_decide_eq_true_2 (is_Some _)) by done.
           rewrite bool_decide_eq_true_2; [done|].
           apply list_elem_of_filter. split; [done|]. by apply HEiff.
        -- rewrite (bool_decide_eq_false_2 (is_Some _)) by done.
           rewrite bool_decide_eq_false_2; [done|].
           intros [_ HinE]%list_elem_of_filter. by apply Hnone, HEiff.
      * rewrite bool_decide_eq_false_2; [done|].
        intros [Hd _]%list_elem_of_filter. congruence.
    + rewrite (bool_decide_eq_false_2 (bn ∈ B)) by done.
      assert (HoutE : bn ∉ E) by (intros HinE; by apply HoutB, HEB).
      rewrite bool_decide_eq_false_2
        by (intros [_ ?]%list_elem_of_filter; done).
      destruct (Hout _ HoutB) as [_ ->]. rewrite Hearly.
      rewrite bool_decide_eq_false_2; [done|].
      by intros [_ ?]%list_elem_of_filter.
  - left. split; [|done]. destruct Hf as (bn & HinB & Hbt).
    pose proof HinB as HinB'. apply HB in HinB' as (j & Hj & Hnf).
    destruct (first_index_lookup bn logs j Hj) as (log & Hlog & Hbn).
    exists log. split; [by eapply list_elem_of_lookup_2|].
    rewrite (Hst log) by by eapply list_elem_of_lookup_2.
    rewrite Hbn, bool_decide_eq_true_2 by done. by rewrite Hbt.
Qed.

(** X11: a successful call returns, log by log in the order of the
    logs, the transfer the parser makes of each log of the range with
    the time stamp of its block, leaving out the logs the parser
    refuses.  The time stamp of a block is the cached one when the cache
    entry is usable at the lookup made at the block's first log, and the
    time of the fetched header otherwise. *)
Theorem FetchTransferLogs_result f fromBlock toBlock transfers f' requested :
  FetchTransferLogs keccak256 env f fromBlock toBlock
    = FetchOk transfers f' requested ->
  exists logs,
    filter_logs env fromBlock toBlock = Some logs /\
    transfers = expected_transfers keccak256 env (cache f) logs.
Proof.
  intros HR. pose proof (FetchTransferLogs_cases f fromBlock toBlock) as H.
  cbn zeta in H. rewrite HR in H.
  destruct (filter_logs env fromBlock toBlock) as [logs|]; [|done].
  exists logs. split; [done|].
  destruct H as [[_ ?]|(_ & f2 & r2 & Heq & _)]; [done|].
  by injection Heq as -> _ _.
Qed.

(** X12: the call fails with the [FilterLogs] error exactly when
    [FilterLogs] fails, and with the header error exactly when some log
    lies in a block that has no usable cache entry and whose header
    request fails.  The error for a log without time stamp is never
    returned. *)
Theorem FetchTransferLogs_failure f fromBlock toBlock :
  let R := FetchTransferLogs keccak256 env f fromBlock toBlock in
  (R = FetchFailed ErrFilterLogs <->
     filter_logs env fromBlock toBlock = None) /\
  (R = FetchFailed ErrGetBlock <->
     exists logs log,
       filter_logs env fromBlock toBlock = Some logs /\ log ∈ logs /\
       stamp_of env (cache f) logs (types.BlockNumber log) = None) /\
  R <> FetchFailed ErrMissingTimestamp.
Proof.
  pose proof (FetchTransferLogs_cases f fromBlock toBlock) as H.
  cbn zeta in *.
  destruct (filter_logs env fromBlock toBlock) as [logs|].
  - destruct H as [[(log & Hlog & Hn) ->]|(Hall & f2 & r2 & -> & _)].
    + split; [done|]. split; [|done]. split; [|done].
      intros _. by exists logs, log.
    + split; [done|]. split; [|done]. split; [done|].
      intros (logs' & log & [= <-] & Hlog & Hn).
      destruct (Hall log Hlog) as [s Hs]. congruence.
  - rewrite H. split; [done|]. split; [|done]. split; [done|].
    by intros (logs & log & ? & _).
Qed.

(** X13: a successful call requests each header at most once, and
    requests exactly the headers of the blocks that have a log in the
    range and no usable cache entry at the lookup. *)
Theorem FetchTransferLogs_requests f fromBlock toBlock transfers f' requested
    logs :
  FetchTransferLogs keccak256 env f fromBlock toBlock
    = FetchOk transfers f' requested ->
  filter_logs env fromBlock toBlock = Some logs ->
  NoDup requested /\
  (forall bn, bn ∈ requested <->
     exists j, first_index bn logs = Some j /\
       ~ fresh (cache f) (lookup_clock env j) bn).
Proof.
  intros HR Hl. pose proof (FetchTransferLogs_cases f fromBlock toBlock) as H.
  cbn zeta in H. rewrite HR, Hl in H.
  destruct H as [[_ ?]|(_ & f2 & r2 & Heq & Hnd & Hiff & _)]; [done|].
  by injection Heq as _ _ ->.
Qed.

(** X14: after a successful call the cache has the same time-to-live;
    every block whose header was requested holds the header's time
    stamp, expiring one time-to-live after it was stored, unless the
    removal of its expired old entry ran after the store, in which case
    the block is absent; every other block is as before. *)
Theorem FetchTransferLogs_cache f fromBlock toBlock transfers f' requested :
  FetchTransferLogs keccak256 env f fromBlock toBlock
    = FetchOk transfers f' requested ->
  headercache.ttl (cache f') = headercache.ttl (cache f) /\
  forall bn,
    headercache.cache (cache f') !! bn =
      if bool_decide (bn ∈ requested) then
        if delete_late env bn
           && bool_decide (is_Some (headercache.cache (cache f) !! bn))
        then None
        else
          (fun t => headercache.mkCachedHeader (wrap_int64 t)
             (store_clock env bn + headercache.ttl (cache f)))
            <$> block_time env bn
      else headercache.cache (cache f) !! bn.
Proof.
  intros HR. pose proof (FetchTransferLogs_cases f fromBlock toBlock) as H.
  cbn zeta in H. rewrite HR in H.
  destruct (filter_logs env fromBlock toBlock) as [logs|]; [|done].
  destruct H as [[_ ?]|(_ & f2 & r2 & Heq & _ & _ & Httl & Hc)]; [done|].
  by injection Heq as _ -> ->.
Qed.
End Fetcher.

Section FetcherExamples.
Import GoInt fetcher examples.

(** Block 7 is cached, block 8 is not: the three transfers carry the
    times of their blocks. *)
Lemma FetchTransferLogs_result_witness :
  exists logs,
    filter_logs fetch_env 7 8 = Some logs /\
    transfers_of (FetchTransferLogs no_hash fetch_env warm_fetcher 7 8)
      = expected_transfers no_hash fetch_env (cache warm_fetcher) logs.
Proof.
  apply (FetchTransferLogs_result no_hash fetch_env warm_fetcher 7 8
           (transfers_of (FetchTransferLogs no_hash fetch_env warm_fetcher 7 8))
           (fetcher_of warm_fetcher
              (FetchTransferLogs no_hash fetch_env warm_fetcher 7 8))
           (requested_of
              (FetchTransferLogs no_hash fetch_env warm_fetcher 7 8))).
  vm_compute. reflexivity.
Defined.

(** Only the header of block 8 is requested. *)
Lemma FetchTransferLogs_requests_witness :
  NoDup [8] /\
  (forall bn, bn ∈ [8] <->
     exists j,
       first_index bn
         [sample_log_at 7 1; sample_log_at 8 2; sample_log_at 7 3] = Some j /\
       ~ fresh (cache warm_fetcher) (lookup_clock fetch_env j) bn).
Proof.
  apply (FetchTransferLogs_requests no_hash fetch_env warm_fetcher 7 8
           (transfers_of (FetchTransferLogs no_hash fetch_env warm_fetcher 7 8))
           (fetcher_of warm_fetcher
              (FetchTransferLogs no_hash fetch_env warm_fetcher 7 8))
           [8] [sample_log_at 7 1; sample_log_at 8 2; sample_log_at 7 3]).
  - vm_compute. reflexivity.
  - reflexivity.
Defined.

(** Afterwards block 8 is cached as well, block 7 is as before. *)
Lemma FetchTransferLogs_cache_witness :
  let f' := fetcher_of warm_fetcher
              (FetchTransferLogs no_hash fetch_env warm_fetcher 7 8) in
  headercache.cache (cache f') !! 8
    = Some (headercache.mkCachedHeader 1700000012 400) /\
  headercache.cache (cache f') !! 7
    = headercache.cache (cache warm_fetcher) !! 7.
Proof.
  cbn zeta.
  destruct (FetchTransferLogs_cache no_hash fetch_env warm_fetcher 7 8
              (transfers_of
                 (FetchTransferLogs no_hash fetch_env warm_fetcher 7 8))
              (fetcher_of warm_fetcher
                 (FetchTransferLogs no_hash fetch_env warm_fetcher 7 8))
              [8]) as [_ Hc].
  - vm_compute. reflexivity.
  - split.
    + rewrite (Hc 8). vm_compute. reflexivity.
    + rewrite (Hc 7). vm_compute. reflexivity.
Defined.
End FetcherExamples.

(* ===================================================================== *)
(** * The repository: batches of insertions *)
(* ===================================================================== *)

Section InsertBatches.
Import repository.

(** X17: as long as the server raises no error of its own, any run of
    [InsertTransfers] calls returns nil every time and keeps the keys
    (tx_hash, log_index) of the collection pairwise distinct; the
    documents stored before stay in place, and the key of every document
    of every batch is stored afterwards. *)
Theorem insert_batches_index_unique (r : MongoRepository)
    (calls : list (BulkEnv * list models.Transfer)) (w : World) :
  Forall (fun call => no_faults call.1) calls ->
  NoDup (index_key <$> transfersColl w) ->
  let '(errs, w') := insert_batches r calls w in
  Forall (fun err => err = None) errs /\
  NoDup (index_key <$> transfersColl w') /\
  (exists added, transfersColl w' = transfersColl w ++ added) /\
  Forall (fun call =>
            Forall (fun d => has_key d (transfersColl w') = true) call.2)
    calls.
Proof.
  revert w. induction calls as [|[env docs] calls IH]; intros w Hall Hnd.
  - simpl. split; [constructor|]. split; [done|].
    split; [|constructor]. exists []. by rewrite app_nil_r.
  - apply Forall_cons in Hall as [Henv Hall]. cbn [insert_batches fst snd].
    pose proof (InsertTransfers_absorbs_duplicates r env docs w Henv) as H1.
    destruct (InsertTransfers r env docs w) as [err w1].
    destruct H1 as (-> & (added1 & Hadd1 & _) & Hkeys1 & Hnd1).
    specialize (IH w1 Hall (Hnd1 Hnd)).
    destruct (insert_batches r calls w1) as [errs w2].
    destruct IH as (Herrs & Hnd2 & (added2 & Hadd2) & Hkeys2).
    split; [by constructor|]. split; [done|]. split.
    + exists (added1 ++ added2). by rewrite Hadd2, Hadd1, app_assoc.
    + constructor; [|done]. cbn [snd].
      eapply Forall_impl; [exact Hkeys1|]. intros d Hd. cbn beta in *.
      rewrite Hadd2. by apply has_key_app.
Qed.
End InsertBatches.

Section RepositoryExamples.
Import GoInt repository examples.

(** The cache is enabled and both servers answer. *)
Lemma cursor_cached_read_witness :
  (SetLastProcessedBlock repo_cached env_up 100 world_empty).1 = None /\
  GetLastProcessedBlock repo_cached env_up
    (SetLastProcessedBlock repo_cached env_up 100 world_empty).2
    = (inl 100,
       (SetLastProcessedBlock repo_cached env_up 100 world_empty).2).
Proof.
  apply (cursor_cached_read {| cache.enabled := true |} env_up env_up 100
           world_empty).
  - reflexivity.
  - vm_compute. split; discriminate.
  - reflexivity.
  - reflexivity.
  - reflexivity.
Defined.

Lemma env_no_faults_ok : no_faults env_no_faults.
Proof. split; [reflexivity|]. split; [intros i; reflexivity|reflexivity]. Qed.

(** The batch of three transfers, written twice. *)
Lemma InsertTransfers_twice_witness :
  InsertTransfers repo_plain env_no_faults three
    (InsertTransfers repo_plain env_no_faults three world_one).2
  = (None, (InsertTransfers repo_plain env_no_faults three world_one).2).
Proof.
  apply (InsertTransfers_twice repo_plain env_no_faults env_no_faults three
           world_one).
  - exact env_no_faults_ok.
  - exact env_no_faults_ok.
Defined.

(** Two overlapping batches on a collection that holds transfer 1. *)
Lemma insert_batches_index_unique_witness :
  let '(errs, w') :=
    insert_batches repo_plain
      [(env_no_faults, three);
       (env_no_faults, [sample_transfer 2; sample_transfer 4])] world_one in
  Forall (fun err => err = None) errs /\
  NoDup (index_key <$> transfersColl w') /\
  (exists added, transfersColl w' = transfersColl world_one ++ added) /\
  Forall (fun call =>
            Forall (fun d => has_key d (transfersColl w') = true) call.2)
    [(env_no_faults, three);
     (env_no_faults, [sample_transfer 2; sample_transfer 4])].
Proof.
  apply (insert_batches_index_unique repo_plain
           [(env_no_faults, three);
            (env_no_faults, [sample_transfer 2; sample_transfer 4])]
           world_one).
  - repeat constructor; apply env_no_faults_ok.
  - apply NoDup_singleton.
Defined.
End RepositoryExamples.

(* ===================================================================== *)
(** * The repository: queries *)
(* ===================================================================== *)

Section Query.
Import repository.

Lemma forallb_Permutation {X} (f : X -> bool) l1 l2 :
  l1 ≡ₚ l2 -> forallb f l1 = forallb f l2.
Proof.
  induction 1 as [|x l1 l2 _ IH|x y l|l1 l2 l3 _ IH1 _ IH2]; simpl.
  - done.
  - by rewrite IH.
  - by rewrite !andb_assoc, (andb_comm (f y)).
  - by rewrite IH1.
Qed.

Lemma matches_insert (m : gmap string bson.Cond) k c t :
  m !! k = None ->
  matches (<[k := c]> m) t = cond_holds t (k, c) && matches m t.
Proof.
  intros H. unfold matches.
  by rewrite (forallb_Permutation _ _ _ (map_to_list_insert m k c H)).
Qed.

Lemma ops_insert (ops : gmap string Z) k b v :
  ops !! k = None ->
  forallb (op_holds v) (map_to_list (<[k := b]> ops))
    = op_holds v (k, b) && forallb (op_holds v) (map_to_list ops).
Proof.
  intros H.
  by rewrite (forallb_Permutation _ _ _ (map_to_list_insert ops k b H)).
Qed.

Lemma matches_empty t : matches ∅ t = true.
Proof. reflexivity. Qed.

(** The readings of the conditions [buildFilter] can produce. *)
Lemma cond_eq t k s :
  cond_holds t (k, bson.Eq s) = bool_decide (field_string t k = Some s).
Proof. done. Qed.

Lemma cond_gte t k v a :
  field_number t k = Some v ->
  cond_holds t (k, bson.Ops {["$gte" := a]}) = (a <=? v).
Proof.
  intros H. unfold cond_holds. simpl. rewrite H.
  by rewrite map_to_list_singleton; simpl; rewrite andb_true_r.
Qed.

Lemma cond_lte t k v b :
  field_number t k = Some v ->
  cond_holds t (k, bson.Ops {["$lte" := b]}) = (v <=? b).
Proof.
  intros H. unfold cond_holds. simpl. rewrite H.
  by rewrite map_to_list_singleton; simpl; rewrite andb_true_r.
Qed.

Lemma cond_between t k v a b :
  field_number t k = Some v ->
  cond_holds t (k, bson.Ops (<["$lte" := b]> {["$gte" := a]}))
    = (v <=? b) && (a <=? v).
Proof.
  intros H. unfold cond_holds. simpl. rewrite H.
  rewrite ops_insert by done.
  by rewrite map_to_list_singleton; simpl; rewrite andb_true_r.
Qed.

Lemma with_lte_fresh key b (m : gmap string bson.Cond) :
  m !! key = None ->
  with_lte key b m = <[key := bson.Ops {["$lte" := b]}]> m.
Proof. intros H. unfold with_lte. by rewrite H. Qed.

Lemma with_lte_after_gte key a b (m : gmap string bson.Cond) :
  with_lte key b (<[key := bson.Ops {["$gte" := a]}]> m)
    = <[key := bson.Ops (<["$lte" := b]> {["$gte" := a]})]> m.
Proof.
  unfold with_lte. rewrite lookup_insert_eq. apply insert_insert_eq.
Qed.

Lemma address_filter_lookup tk fr to k :
  k <> "token" -> k <> "from" -> k <> "to" ->
  address_filter tk fr to !! k = None.
Proof.
  intros H1 H2 H3. unfold address_filter.
  repeat case_bool_decide;
    repeat (rewrite lookup_insert_ne by done); apply lookup_empty.
Qed.

Lemma address_filter_matches tk fr to t :
  matches (address_filter tk fr to) t =
    (bool_decide (tk = "") || bool_decide (models.Token t = tk))
    && (bool_decide (fr = "") || bool_decide (models.From t = fr))
    && (bool_decide (to = "") || bool_decide (models.To t = to)).
Proof.
  assert (Hs : forall (a b : string),
            bool_decide (Some a = Some b) = bool_decide (a = b)).
  { intros a b. apply bool_decide_ext. split; [by intros [= ->]|by intros ->]. }
  unfold address_filter.
  destruct (decide (tk = "")) as [Ht|Ht], (decide (fr = "")) as [Hf|Hf],
    (decide (to = "")) as [Ho|Ho];
    rewrite ?(bool_decide_eq_false_2 (tk <> "")) by (intros ?; done);
    rewrite ?(bool_decide_eq_false_2 (fr <> "")) by (intros ?; done);
    rewrite ?(bool_decide_eq_false_2 (to <> "")) by (intros ?; done);
    rewrite ?(bool_decide_eq_true_2 (tk <> "")) by done;
    rewrite ?(bool_decide_eq_true_2 (fr <> "")) by done;
    rewrite ?(bool_decide_eq_true_2 (to <> "")) by done;
    rewrite ?(bool_decide_eq_true_2 (tk = "")) by done;
    rewrite ?(bool_decide_eq_true_2 (fr = "")) by done;
    rewrite ?(bool_decide_eq_true_2 (to = "")) by done;
    rewrite ?(bool_decide_eq_false_2 (tk = "")) by done;
    rewrite ?(bool_decide_eq_false_2 (fr = "")) by done;
    rewrite ?(bool_decide_eq_false_2 (to = "")) by done;
    repeat (rewrite matches_insert
              by (repeat (rewrite lookup_insert_ne by done);
                  apply lookup_empty));
    rewrite ?cond_eq, matches_empty; simpl;
    change (field_string t "token") with (Some (models.Token t));
    change (field_string t "from") with (Some (models.From t));
    change (field_string t "to") with (Some (models.To t));
    rewrite ?Hs, ?andb_true_r; try done;
    repeat match goal with
           | |- context [bool_decide ?P] => destruct (bool_decide P)
           end; done.
Qed.

Lemma field_block t : field_number t "block_number" = Some (models.BlockNumber t).
Proof. reflexivity. Qed.

Lemma field_time t : field_number t "timestamp" = Some (models.Timestamp t).
Proof. reflexivity. Qed.

Ltac fresh_key :=
  repeat (rewrite lookup_insert_ne by done);
  first [apply address_filter_lookup; done | apply lookup_empty].

(** The filter asks exactly what the parameters say. *)
Lemma matches_satisfies (params : models.TransferQueryParams)
    (t : models.Transfer) :
  matches (buildFilter params) t = true <-> satisfies params t.
Proof.
  destruct params as [tk fr to sb eb st et lim off].
  unfold buildFilter, satisfies.
  cbn [models.QToken models.QFrom models.QTo models.StartBlock
       models.EndBlock models.StartTime models.EndTime].
  change (if bool_decide (to <> "") then _ else _)
    with (address_filter tk fr to).
  assert (Hopt : forall (o : option Z) (P : Z -> Prop),
            (forall b, o = Some b -> P b)
            <-> match o with Some b => P b | None => True end).
  { intros [b|] P; split; try done.
    - intros H. by apply H.
    - by intros H b' [= <-]. }
  rewrite !Hopt.
  destruct sb as [sb|], eb as [eb|], st as [st|], et as [et|];
    rewrite ?with_lte_after_gte;
    rewrite ?(with_lte_fresh "block_number") by fresh_key;
    rewrite ?with_lte_after_gte;
    rewrite ?(with_lte_fresh "timestamp") by fresh_key;
    repeat (rewrite matches_insert by fresh_key);
    rewrite ?(cond_between t _ _ _ _ (field_block t)),
            ?(cond_between t _ _ _ _ (field_time t)),
            ?(cond_gte t _ _ _ (field_block t)),
            ?(cond_gte t _ _ _ (field_time t)),
            ?(cond_lte t _ _ _ (field_block t)),
            ?(cond_lte t _ _ _ (field_time t)),
            address_filter_matches;
    rewrite ?andb_true_iff, ?orb_true_iff, ?bool_decide_eq_true, ?Z.leb_le;
    tauto.
Qed.

(** X18: the filter [buildFilter] makes of the query parameters is
    matched by exactly the transfers that agree with every non-empty
    address parameter and lie within every given block and time bound,
    bounds included; the limit and the offset have no part in it. *)
Theorem buildFilter_matches (params : models.TransferQueryParams) :
  (forall t, matches (buildFilter params) t = true <-> satisfies params t) /\
  (forall limit offset,
     buildFilter (page_of params limit offset) = buildFilter params).
Proof.
  split; [intros t; apply matches_satisfies|].
  intros limit offset. reflexivity.
Qed.

Lemma StronglySorted_page {X} (R : relation X) (l : list X) n m :
  StronglySorted R l -> StronglySorted R (take n (drop m l)).
Proof.
  intros H. rewrite <- (take_drop m l) in H.
  apply StronglySorted_app_1_r in H.
  rewrite <- (take_drop n (drop m l)) in H.
  by apply StronglySorted_app_1_l in H.
Qed.

(** How a query unfolds when its commands succeed. *)
Lemma QueryTransfers_inl r env params w page total :
  QueryTransfers r env params w = inl (page, total) ->
  let found := List.filter (matches (buildFilter params)) (transfersColl w) in
  let sorted := merge_sort precedes found in
  0 <= models.Offset params /\
  total = Z.of_nat (length found) /\
  page = (if models.Limit params =? 0
          then drop (Z.to_nat (models.Offset params)) sorted
          else take (if 0 <? models.Limit params
                     then Z.to_nat (models.Limit params)
                     else Nat.min (Z.to_nat (Z.abs (models.Limit params)))
                            (single_batch env))
                 (drop (Z.to_nat (models.Offset params)) sorted)).
Proof.
  unfold QueryTransfers. destruct (count_up env); [|done]. simpl.
  destruct (find_up env); [|done]. simpl.
  destruct (Z.ltb_spec (models.Offset params) 0); [done|].
  destruct (decode_ok env); [|done]. simpl.
  intros [= <- <-]. destruct (_ =? 0); [done|]. by destruct (0 <? _).
Qed.

(** The documents a query finds, in the order of the sort. *)
Lemma sorted_found params w :
  let found := List.filter (matches (buildFilter params)) (transfersColl w) in
  let sorted := merge_sort precedes found in
  (forall t, t ∈ sorted <-> t ∈ transfersColl w /\ satisfies params t) /\
  StronglySorted precedes sorted /\
  length sorted = length found.
Proof.
  cbn zeta.
  set (found := List.filter (matches (buildFilter params)) (transfersColl w)).
  assert (Hperm : merge_sort precedes found ≡ₚ found)
    by apply merge_sort_Permutation.
  split; [|split].
  - intros t. rewrite Hperm. unfold found.
    by rewrite !list_elem_of_In, filter_In, matches_satisfies.
  - apply StronglySorted_merge_sort; apply _.
  - by rewrite Hperm.
Qed.

Lemma page_elem {X} (l : list X) (limit : Z) (n m : nat) (x : X) :
  x ∈ (if limit =? 0 then drop m l else take n (drop m l)) -> x ∈ l.
Proof.
  intros Hx. destruct (limit =? 0).
  - eapply elem_of_sublist; [exact Hx|apply sublist_drop].
  - eapply elem_of_sublist; [|apply sublist_drop].
    eapply elem_of_sublist; [exact Hx|apply sublist_take].
Qed.

Lemma page_sorted {X} (R : relation X) (l : list X) (limit : Z) (n m : nat) :
  StronglySorted R l ->
  StronglySorted R (if limit =? 0 then drop m l else take n (drop m l)).
Proof.
  intros Hs. destruct (limit =? 0); [|by apply StronglySorted_page].
  rewrite <- (take_drop m l) in Hs. by apply StronglySorted_app_1_r in Hs.
Qed.


(** X20: paging loses and repeats nothing.  For a positive limit, the
    page at an offset followed by the page at offset plus limit is the
    page of twice the limit at the offset, and the three queries report
    the same total.  (The collection is the same for the three queries,
    and transfers that agree on both sort keys keep one order.) *)
Theorem QueryTransfers_pages r env params w (limit offset : Z)
    page1 page2 both n1 n2 n :
  0 < limit ->
  QueryTransfers r env (page_of params limit offset) w = inl (page1, n1) ->
  QueryTransfers r env (page_of params limit (offset + limit)) w
    = inl (page2, n2) ->
  QueryTransfers r env (page_of params (2 * limit) offset) w
    = inl (both, n) ->
  page1 ++ page2 = both /\ n1 = n /\ n2 = n.
Proof.
  intros Hl H1 H2 H12.
  apply QueryTransfers_inl in H1 as (Ho1 & -> & ->).
  apply QueryTransfers_inl in H2 as (_ & -> & ->).
  apply QueryTransfers_inl in H12 as (_ & -> & ->).
  cbn zeta. simpl in *.
  change (buildFilter (page_of params ?l ?o)) with (buildFilter params).
  split; [|done].
  destruct (Z.eqb_spec limit 0); [lia|].
  destruct (Z.eqb_spec (2 * limit) 0); [lia|].
  destruct (Z.ltb_spec 0 limit); [|lia].
  destruct (Z.ltb_spec 0 (2 * limit)); [|lia].
  set (sorted := merge_sort precedes _).
  replace (Z.to_nat (offset + limit))
    with (Z.to_nat offset + Z.to_nat limit)%nat by lia.
  replace (Z.to_nat (2 * limit))
    with (Z.to_nat limit + Z.to_nat limit)%nat by lia.
  rewrite <- drop_drop. apply take_take_drop.
Qed.
End Query.

Section QueryExamples.
Import GoInt repository examples.


(** Pages of one transfer at offsets 0 and 1, and the page of two. *)
Lemma QueryTransfers_pages_witness :
  [sample_transfer 1] ++ [sample_transfer 2]
    = [sample_transfer 1; sample_transfer 2] /\ 3 = 3 /\ 3 = 3.
Proof.
  apply (QueryTransfers_pages repo_plain query_up (all_transfers 0 0)
           world_three 1 0 [sample_transfer 1] [sample_transfer 2]
           [sample_transfer 1; sample_transfer 2] 3 3 3).
  - lia.
  - vm_compute. reflexivity.
  - vm_compute. reflexivity.
  - vm_compute. reflexivity.
Defined.
End QueryExamples.

(* ===================================================================== *)
(** * The read API: GET /api/v1/transfers *)
(* ===================================================================== *)

Section Handler.
Import repository handler.
Variable parse_time : string -> option Z.

Lemma effective_limit_range limit :
  1 <= transfer_service.effective_limit limit <= 1000 /\
  (1 <= limit <= 1000 -> transfer_service.effective_limit limit = limit).
Proof.
  unfold transfer_service.effective_limit.
  destruct (Z.leb_spec limit 0).
  - destruct (Z.ltb_spec 1000 100); lia.
  - destruct (Z.ltb_spec 1000 limit); lia.
Qed.

(** X21: a 200 answer of [GetTransfers] reports the limit and the
    offset of the query string (100 and 0 when absent or not a number),
    not the limit that was applied: the applied limit is 100 for a limit
    of zero or less and 1000 for a limit above 1000.  The data hold at
    most 1000 transfers, as many as the total leaves after the offset up
    to the applied limit, each of them stored and asked for by the
    parameters, by descending block number and then ascending log
    index. *)
Theorem GetTransfers_response r env (q : gmap string string) w
    data total limit offset :
  GetTransfers parse_time r env q w = StatusOK data total limit offset ->
  limit = default 100 (strconv.Atoi (Query q "limit")) /\
  offset = default 0 (strconv.Atoi (Query q "offset")) /\
  0 <= offset /\
  Z.of_nat (length data)
    = Z.min (transfer_service.effective_limit limit)
        (Z.max 0 (total - offset)) /\
  Z.of_nat (length data) <= 1000 /\
  (forall t, t ∈ data ->
     t ∈ transfersColl w /\ satisfies (query_params parse_time q) t) /\
  StronglySorted precedes data.
Proof.
  unfold GetTransfers, transfer_service.QueryTransfers.
  set (params := query_params parse_time q).
  destruct (QueryTransfers r env _ w) as [[page n]|e] eqn:HQ; [|done].
  intros [= <- <- <- <-].
  apply QueryTransfers_inl in HQ as (Hoff & Htot & Hpage).
  destruct (sorted_found params w) as (Hfound & Hsort & Hlen).
  cbn zeta in *.
  cbn [models.Limit models.Offset transfer_service.with_limit] in Hoff, Hpage.
  change (buildFilter (transfer_service.with_limit params _))
    with (buildFilter params) in *.
  set (found := List.filter (matches (buildFilter params)) (transfersColl w))
    in *.
  set (sorted := merge_sort precedes found) in *.
  destruct (effective_limit_range (models.Limit params)) as [Hr _].
  split; [done|]. split; [done|]. split; [done|].
  assert (Hdata : Z.of_nat (length page)
            = Z.min (transfer_service.effective_limit (models.Limit params))
                (Z.max 0 (n - models.Offset params))).
  { subst page n. rewrite <- Hlen.
    destruct (Z.eqb_spec (transfer_service.effective_limit
                (models.Limit params)) 0) as [|_]; [lia|].
    destruct (Z.ltb_spec 0 (transfer_service.effective_limit
                (models.Limit params))); [|lia].
    rewrite length_take, length_drop. lia. }
  split; [exact Hdata|]. split; [lia|]. split.
  - intros t Ht. apply Hfound. subst page. by eapply page_elem.
  - subst page. by apply page_sorted.
Qed.
End Handler.

Section HandlerExamples.
Import repository handler examples.

(** [?limit=2] on three stored transfers. *)
Lemma GetTransfers_response_witness :
  Z.of_nat (length [sample_transfer 1; sample_transfer 2])
    = Z.min (transfer_service.effective_limit 2) (Z.max 0 (3 - 0)) /\
  StronglySorted precedes [sample_transfer 1; sample_transfer 2].
Proof.
  destruct (GetTransfers_response no_time repo_plain query_up query_limit_2
              world_three [sample_transfer 1; sample_transfer 2] 3 2 0)
    as (_ & _ & _ & Hlen & _ & _ & Hsort).
  - vm_compute. reflexivity.
  - split; [exact Hlen|exact Hsort].
Defined.
End HandlerExamples.

(* ===================================================================== *)
(** * The event stream: the background cleanup *)
(* ===================================================================== *)

Section StreamCleanup.
Import stream.
Variable marshal : models.Transfer -> option (list byte).

(** X22: a tick of the background cleanup keeps the clients and the
    buffer size and removes records only from the front of the buffer,
    so the newest records stay; it removes any only when no client is
    subscribed and the buffer is more than half full, and then removes
    half of the buffered records, rounded down. *)
Theorem cleanup_tick_keeps_newest (s : Stream) :
  let s' := StartBackgroundCleanup_tick s in
  clients s' = clients s /\ bufferSize s' = bufferSize s /\
  exists dropped,
    buffer s = dropped ++ buffer s' /\
    (dropped <> [] ->
     clients s = ∅ /\ Z.quot (bufferSize s) 2 < Z.of_nat (length (buffer s)) /\
     length dropped = (length (buffer s) / 2)%nat).
Proof.
  cbn zeta. unfold StartBackgroundCleanup_tick, ClientCount.
  assert (Hid : exists dropped : list models.Transfer,
            buffer s = dropped ++ buffer s /\
            (dropped <> [] ->
             clients s = ∅ /\
             Z.quot (bufferSize s) 2 < Z.of_nat (length (buffer s)) /\
             length dropped = (length (buffer s) / 2)%nat))
    by (by exists []).
  destruct (bool_decide (size (clients s) = 0%nat)) eqn:Hc;
    [|by rewrite andb_false_l].
  apply bool_decide_eq_true_1 in Hc. rewrite andb_true_l.
  destruct (0 <? length (buffer s))%nat; [|done].
  destruct (Z.ltb_spec (Z.quot (bufferSize s) 2)
              (Z.of_nat (length (buffer s)))); [|done].
  cbn [clients bufferSize buffer]. split; [done|]. split; [done|].
  exists (take (length (buffer s) / 2) (buffer s)).
  split; [by rewrite take_drop|]. intros _.
  split; [by apply map_size_empty_iff|]. split; [done|].
  rewrite length_take. apply Nat.min_l.
  apply Nat.Div0.div_le_upper_bound. lia.
Qed.

(** X23: with no client and a full buffer of size at least two, a
    published transfer is dropped; after one tick of the cleanup the
    same publish appends it to the newer half of the buffer. *)
Theorem cleanup_tick_makes_room (s : Stream) (t : models.Transfer) :
  clients s = ∅ -> 2 <= bufferSize s ->
  Z.of_nat (length (buffer s)) = bufferSize s ->
  buffer (Publish marshal s (TransferPtr t)) = buffer s /\
  buffer (Publish marshal (StartBackgroundCleanup_tick s) (TransferPtr t))
    = drop (length (buffer s) / 2) (buffer s) ++ [t].
Proof.
  intros Hc Hsz Hfull.
  assert (Hhalf : Z.quot (bufferSize s) 2 = Z.of_nat (length (buffer s) / 2)).
  { rewrite <- Hfull, Z.quot_div_nonneg by lia.
    by rewrite Nat2Z.inj_div. }
  split.
  - rewrite Publish_no_clients by done.
    destruct (Z.ltb_spec (Z.of_nat (length (buffer s))) (bufferSize s));
      [lia|done].
  - unfold StartBackgroundCleanup_tick, ClientCount.
    rewrite Hc, map_size_empty. rewrite bool_decide_eq_true_2 by done.
    destruct (Nat.ltb_spec 0 (length (buffer s))); [|lia].
    rewrite andb_true_l.
    assert (Hdiv : (length (buffer s) / 2 < length (buffer s))%nat).
    { apply Nat.div_lt; lia. }
    destruct (Z.ltb_spec (Z.quot (bufferSize s) 2)
                (Z.of_nat (length (buffer s)))); [|lia].
    rewrite Publish_no_clients by done. cbn [clients bufferSize buffer].
    rewrite length_drop.
    destruct (Z.ltb_spec (Z.of_nat (length (buffer s) - length (buffer s) / 2))
                (bufferSize s)); [done|].
    assert (0 < length (buffer s) / 2)%nat; [|lia].
    apply Nat.div_str_pos. lia.
Qed.
End StreamCleanup.

Section StreamCleanupExamples.
Import stream examples.

(** Size 2, transfers 1 and 2 buffered: transfer 3 is dropped before the
    cleanup and buffered after it. *)
Lemma cleanup_tick_makes_room_witness :
  buffer (Publish sample_marshal full_stream (TransferPtr (sample_transfer 3)))
    = [sample_transfer 1; sample_transfer 2] /\
  buffer (Publish sample_marshal (StartBackgroundCleanup_tick full_stream)
            (TransferPtr (sample_transfer 3)))
    = [sample_transfer 2; sample_transfer 3].
Proof.
  apply (cleanup_tick_makes_room sample_marshal full_stream
           (sample_transfer 3)).
  - reflexivity.
  - vm_compute. discriminate.
  - reflexivity.
Defined.
End StreamCleanupExamples.

(* ===================================================================== *)
(** * The ingestion loop: progress and restart *)
(* ===================================================================== *)

Section Ticks.
Import GoInt service.

(** X24: a tick that returns an error leaves the current block where it
    was.  A tick without error stays at the current block when the chain
    head is behind it, and otherwise continues right after the last
    block of its range: the current block plus the batch size, or the
    block after the chain head when the head comes first. *)
Theorem tick_progress (s : IngestionService) (env : TickEnv)
    (fromBlock : Z) s' nb err :
  processBlocks s env fromBlock = Some (s', nb, err) ->
  (err <> None -> nb = fromBlock) /\
  (err = None ->
   forall l, latest env = Some l ->
     0 <= fromBlock -> l < max_uint64 -> 1 <= tick_batch_size s ->
     fromBlock + tick_batch_size s <= 2 ^ 64 ->
     nb = if l <? fromBlock then fromBlock
          else Z.min (fromBlock + tick_batch_size s) (l + 1)).
Proof.
  unfold processBlocks, tick_to_block.
  destruct (latest env) as [l|]; [|by intros [= <- <- <-]].
  destruct (Z.ltb_spec l fromBlock).
  { intros [= <- <- <-]. split; [done|]. intros _ l' [= <-] _ _ _ _.
    by destruct (Z.ltb_spec l fromBlock); [|lia]. }
  destruct (fetched env) as [ts|].
  2:{ destruct (on_failure s); simpl; [|done]. by intros [= <- <- <-]. }
  destruct (_ && _).
  { destruct (on_failure s); simpl; [|done]. by intros [= <- <- <-]. }
  destruct (negb (cursor_ok env)); [by intros [= <- <- <-]|].
  intros [= <- <- <-]. split; [done|].
  intros _ l' [= <-] H0 Hl Hb Hfit.
  destruct (Z.ltb_spec l fromBlock); [lia|].
  rewrite (wrap_uint64_small (fromBlock + tick_batch_size s - 1))
    by (unfold is_uint64, max_uint64 in *; lia).
  destruct (Z.ltb_spec l (fromBlock + tick_batch_size s - 1));
    rewrite wrap_uint64_small by (unfold is_uint64, max_uint64 in *; lia);
    lia.
Qed.

(** X25: when the cursor was written for block [n] and a later start
    of the service reads it from MongoDB (no cache, the cache disabled,
    or the Redis read failing) without a reset, ingestion resumes at the
    block after a stored cursor that is at least [n], hence after [n]:
    no block up to [n] is processed again. *)
Theorem Start_block_resumes (s : IngestionService)
    (r : repository.MongoRepository) (envw env : repository.CursorEnv)
    (n : Z) (w w1 w2 : repository.World) (b : Z) :
  1 <= n ->
  repository.SetLastProcessedBlock r envw n w = (None, w1) ->
  (repository.cache r = None \/ repository.redis_up env = false \/
   repository.cache r = Some {| cache.enabled := false |}) ->
  resetStartBlock s = false ->
  Start_block s r env w1 = (inl b, w2) ->
  exists v, n <= v /\ b = wrap_uint64 (v + 1) /\
    (v < max_uint64 -> n < b).
Proof.
  intros Hn Hset Hcache Hreset. unfold Start_block. rewrite Hreset.
  destruct (repository.GetLastProcessedBlock r env w1) as [[v|e] w'] eqn:HG;
    [|done].
  pose proof (cursor_durable_read r envw env n w w1 v w' Hset Hcache HG) as Hv.
  destruct (Z.ltb_spec 0 v); [|lia]. intros [= <- <-].
  exists v. split; [done|]. split; [done|].
  intros Hmax. rewrite wrap_uint64_small
    by (unfold is_uint64, max_uint64 in *; lia). lia.
Qed.
End Ticks.

Section TicksExamples.
Import GoInt service examples.

(** Batch size 4 at block 1, the chain head far ahead: the next block
    is 5. *)
Lemma tick_progress_witness :
  5 = (if 1000000 <? 1 then 1
       else Z.min (1 + tick_batch_size scenario_service) (1000000 + 1)).
Proof.
  destruct (tick_progress scenario_service tick_success 1
              (with_adaptive scenario_service 4 1 0) 5 None) as [_ H].
  - vm_compute. reflexivity.
  - apply (H eq_refl 1000000 eq_refl).
    + lia.
    + vm_compute. reflexivity.
    + vm_compute. discriminate.
    + vm_compute. discriminate.
Defined.

(** The cursor 100 was written while Redis was down; the service resumes
    at block 101. *)
Lemma Start_block_resumes_witness :
  exists v, 100 <= v /\ 101 = wrap_uint64 (v + 1) /\
    (v < max_uint64 -> 100 < 101).
Proof.
  apply (Start_block_resumes scenario_service repo_cached env_redis_down
           env_redis_down 100 world_empty world_after_write
           world_after_write 101).
  - lia.
  - vm_compute. reflexivity.
  - right. left. reflexivity.
  - reflexivity.
  - vm_compute. reflexivity.
Defined.
End TicksExamples.

(* ===================================================================== *)
(** * Configuration and start-up *)
(* ===================================================================== *)

Section Numbers.
Import GoInt.

Lemma ParseUint_range s n :
  strconv.ParseUint s = Some n -> 0 <= n <= max_uint64.
Proof.
  unfold strconv.ParseUint. destruct s; [done|].
  destruct (NilEmpty.uint_of_string _) as [d|]; [|done].
  destruct (Z.leb_spec (Z.of_N (N.of_uint d)) max_uint64); [|done].
  intros [= <-]. lia.
Qed.

Lemma digits_nonneg s n : strconv.digits s = Some n -> 0 <= n.
Proof.
  unfold strconv.digits. destruct s; [done|].
  destruct (NilEmpty.uint_of_string _) as [d|]; [|done].
  intros [= <-]. lia.
Qed.

Lemma Atoi_range s n : strconv.Atoi s = Some n -> is_int64 n.
Proof.
  unfold strconv.Atoi, is_int64, min_int64, max_int64.
  assert (Hplain : forall s',
    (n' ← strconv.digits s';
     if n' <=? 2 ^ 63 - 1 then Some n' else None) = Some n ->
    - 2 ^ 63 <= n <= 2 ^ 63 - 1).
  { intros s'. destruct (strconv.digits s') as [m|] eqn:Hm; [|done]. simpl.
    apply digits_nonneg in Hm.
    destruct (Z.leb_spec m (2 ^ 63 - 1)); [|done]. intros [= <-]. lia. }
  destruct s as [|c s]; [done|].
  destruct (Ascii.ascii_dec c "-") as [->|Hm].
  - destruct (strconv.digits s) as [m|] eqn:Hd; [|done]. simpl.
    apply digits_nonneg in Hd.
    destruct (Z.leb_spec m (2 ^ 63)); [|done]. intros [= <-]. lia.
  - destruct (Ascii.ascii_dec c "+") as [->|Hp].
    + apply Hplain.
    + intros H. apply (Hplain (String c s)).
      destruct c as [[] [] [] [] [] [] [] []]; try done.
Qed.
End Numbers.

Section Config.
Import GoInt config.

Lemma bind_inl {A B} (x : A + LoadError) (k : A -> B + LoadError) b :
  bind x k = inl b -> exists a, x = inl a /\ k a = inl b.
Proof. destruct x as [a|e]; [|done]. intros H. by exists a. Qed.

Lemma parsed_inl {A} e (o : option A) a : parsed e o = inl a -> o = Some a.
Proof. destruct o; [|done]. by intros [= ->]. Qed.

(** What a loaded configuration says about ingestion. *)
Lemma Load_inl env cfg :
  Load env = inl cfg ->
  let i := Ingestion cfg in
  0 <= StartBlock i <= max_uint64 /\
  1 <= BlockBatchSize i <= 100 /\
  0 <= BatchMinSize i <= max_uint64 /\
  0 <= BatchMaxSize i <= max_uint64 /\
  is_int64 (BatchSuccessStreak i) /\ is_int64 (BatchFailureBackoff i) /\
  (AdaptiveBatch i = false ->
   BatchMinSize i = BlockBatchSize i /\ BatchMaxSize i = BlockBatchSize i) /\
  (AdaptiveBatch i = true ->
   BatchMinSize i
     = default 1 (strconv.ParseUint (getEnv env "BATCH_MIN_SIZE" "1")) /\
   BatchMaxSize i
     = default 100 (strconv.ParseUint (getEnv env "BATCH_MAX_SIZE" "100"))) /\
  (RPCConfig (Ethereum cfg) <> "" \/ RPCURL (Ethereum cfg) <> "").
Proof.
  unfold Load. intros H.
  apply bind_inl in H as (sb & Hsb%parsed_inl%ParseUint_range & H).
  apply bind_inl in H as (pi & _ & H).
  apply bind_inl in H as (bbs & Hbbs%parsed_inl%ParseUint_range & H).
  apply bind_inl in H as (mn & Hmn%parsed_inl & H).
  apply bind_inl in H as (mx & Hmx%parsed_inl & H).
  apply bind_inl in H as (ss & Hss%parsed_inl%Atoi_range & H).
  apply bind_inl in H as (fb & Hfb%parsed_inl%Atoi_range & H).
  pose proof (ParseUint_range _ _ Hmn) as Hmn'.
  pose proof (ParseUint_range _ _ Hmx) as Hmx'.
  set (b1 := if bbs =? 0 then 10 else bbs) in *.
  set (b2 := if 100 <? b1 then 100 else b1) in *.
  assert (Hb2 : 1 <= b2 <= 100).
  { subst b1 b2. destruct (Z.eqb_spec bbs 0).
    - destruct (Z.ltb_spec 100 10); lia.
    - destruct (Z.ltb_spec 100 bbs); lia. }
  destruct (bool_decide _ && bool_decide _) eqn:Hrpc; [done|].
  injection H as <-. cbn zeta.
  cbn [Ingestion Ethereum StartBlock BlockBatchSize BatchMinSize BatchMaxSize
       BatchSuccessStreak BatchFailureBackoff AdaptiveBatch RPCConfig RPCURL]
    in *.
  rewrite Hmn, Hmx. simpl default.
  assert (b2 <= max_uint64) by (unfold max_uint64; lia).
  split; [done|]. split; [done|].
  split; [destruct (flag _); lia|]. split; [destruct (flag _); lia|].
  split; [done|]. split; [done|].
  split; [by intros ->|]. split; [by intros ->|].
  apply andb_false_iff in Hrpc as [Hr|Hr]; apply bool_decide_eq_false in Hr;
    [by left|by right].
Qed.

(** X26: a configuration that [Load] returns has a block batch size
    between 1 and 100 and names an RPC endpoint or a provider file; with
    adaptive batching switched off the minimum and the maximum batch
    size both equal the block batch size, and with [BATCH_MIN_SIZE] and
    [BATCH_MAX_SIZE] unset the block batch size lies between them. *)
Theorem Load_ingestion env cfg :
  Load env = inl cfg ->
  let i := Ingestion cfg in
  1 <= BlockBatchSize i <= 100 /\
  (AdaptiveBatch i = false ->
   BatchMinSize i = BlockBatchSize i /\ BatchMaxSize i = BlockBatchSize i) /\
  (env !! "BATCH_MIN_SIZE" = None -> env !! "BATCH_MAX_SIZE" = None ->
   BatchMinSize i <= BlockBatchSize i <= BatchMaxSize i) /\
  (RPCConfig (Ethereum cfg) <> "" \/ RPCURL (Ethereum cfg) <> "").
Proof.
  intros H. pose proof (Load_inl env cfg H) as
    (_ & Hb & _ & _ & _ & _ & Hoff & Hon & Hrpc). cbn zeta in *.
  split; [done|]. split; [done|]. split; [|done].
  intros Hmin Hmax.
  destruct (AdaptiveBatch (Ingestion cfg)) eqn:Ha.
  - destruct (Hon eq_refl) as [-> ->]. unfold getEnv.
    rewrite Hmin, Hmax. change (default 1 _) with 1.
    change (default 100 _) with 100. lia.
  - destruct (Hoff eq_refl) as [-> ->]. lia.
Qed.
End Config.

Section MainService.
Import GoInt config service.



End MainService.

Section Providers.
Import GoInt config.
Variable dial : string -> bool.

Lemma create_providers_loaded cbConfig configs providers :
  ethereum.FailureThreshold cbConfig <> 0 ->
  create_providers dial cbConfig configs = inl providers ->
  Forall (loaded dial) providers /\
  ethereum.Name <$> providers
    = Name <$> filter (fun c => URL c <> "") configs.
Proof.
  intros Hcb. revert providers.
  induction configs as [|c configs IH]; intros providers; simpl.
  - intros [= <-]. by split; [constructor|].
  - case_bool_decide as Hu.
    + intros H. destruct (IH _ H) as [HF Hn]. split; [done|].
      by rewrite filter_cons_False by (intros ?; done).
    + destruct (dial (URL c)) eqn:Hd; simpl; [|done].
      destruct (create_providers dial cbConfig configs) as [ps|]; [|done].
      intros [= <-]. destruct (IH ps eq_refl) as [HF Hn].
      split.
      * constructor; [|done]. unfold loaded. simpl.
        repeat split; try done.
        -- by destruct (Z.eqb_spec (Weight c) 0).
        -- by destruct (Z.eqb_spec (MaxRange c) 0).
        -- by destruct (Z.eqb_spec (Timeout c) 0).
      * rewrite filter_cons_True by done. rewrite !fmap_cons.
        by rewrite Hn.
Qed.

(** X28: the providers [LoadProvidersFromYAML] returns are never
    empty; each has a URL that was dialled, non-zero weight, range and
    timeout, and a closed breaker with zero counters and a non-zero
    failure threshold.  From a parsed file they are the entries with a
    URL, in file order; without a readable file there is the single
    provider [default]. *)
Theorem LoadProvidersFromYAML_providers (file : FileOutcome)
    (fallbackURL : string) (providers : list ethereum.Provider) :
  LoadProvidersFromYAML dial file fallbackURL = inl providers ->
  providers <> [] /\ Forall (loaded dial) providers /\
  match file with
  | Parsed config =>
      ethereum.Name <$> providers
        = Name <$> filter (fun c => URL c <> "") (Providers config)
  | _ => ethereum.Name <$> providers = ["default"]
  end.
Proof.
  unfold LoadProvidersFromYAML. destruct file as [| |config].
  - case_bool_decide as Hf; [done|].
    destruct (dial fallbackURL) eqn:Hd; simpl; [|done].
    intros [= <-]. split; [done|]. split; [|done].
    constructor; [|constructor]. unfold loaded. by simpl.
  - done.
  - destruct (Providers config) as [|c cs] eqn:Hps; [done|].
    set (cbConfig := if FailureThreshold (CircuitBreaker config) =? 0
                     then _ else _).
    assert (Hcb : ethereum.FailureThreshold cbConfig <> 0).
    { unfold cbConfig.
      by destruct (Z.eqb_spec (FailureThreshold (CircuitBreaker config)) 0). }
    destruct (create_providers dial cbConfig (c :: cs)) as [ps|] eqn:Hc;
      [|done].
    destruct ps as [|p ps]; [done|]. intros [= <-].
    destruct (create_providers_loaded _ _ _ Hcb Hc) as [HF Hn].
    by repeat split.
Qed.

(** The providers of a loaded file are Healthy, and there is one. *)
Lemma LoadProvidersFromYAML_healthy file fallbackURL providers :
  LoadProvidersFromYAML dial file fallbackURL = inl providers ->
  providers <> [] /\
  Forall (fun p => ethereum.state p = ethereum.StateHealthy) providers.
Proof.
  unfold LoadProvidersFromYAML. destruct file as [| |config].
  - case_bool_decide as Hf; [done|].
    destruct (dial fallbackURL); simpl; [|done].
    intros [= <-]. split; [done|]. by repeat constructor.
  - done.
  - destruct (Providers config) as [|c cs]; [done|].
    set (cbConfig := if FailureThreshold (CircuitBreaker config) =? 0
                     then _ else _).
    assert (Hcb : ethereum.FailureThreshold cbConfig <> 0).
    { unfold cbConfig.
      by destruct (Z.eqb_spec (FailureThreshold (CircuitBreaker config)) 0). }
    destruct (create_providers dial cbConfig (c :: cs)) as [ps|] eqn:Hc;
      [|done].
    destruct ps as [|p ps]; [done|]. intros [= <-].
    destruct (create_providers_loaded _ _ _ Hcb Hc) as [HF _].
    split; [done|]. eapply Forall_impl; [exact HF|].
    intros p' Hp'. apply Hp'.
Qed.

(** X29: the pool [main] builds from the provider file holds exactly
    the providers the file gave, each as the loader created it, ordered
    so that the provider at the first position has the greatest weight;
    its lock is free and its rotation starts at zero. *)
Theorem main_pool_order (file : FileOutcome) (cfg : Config)
    (pool : ethereum.ProviderPool) :
  main.provider_pool dial file cfg = Some (inl pool) ->
  exists loaded_providers p,
    LoadProvidersFromYAML dial file (RPCURL (Ethereum cfg))
      = inl loaded_providers /\
    ethereum.providers pool ≡ₚ loaded_providers /\
    Forall (loaded dial) (ethereum.providers pool) /\
    ethereum.providers pool !! 0%nat = Some p /\
    (forall q, q ∈ ethereum.providers pool ->
       ethereum.Weight q <= ethereum.Weight p) /\
    ethereum.mu pool = sync.Unlocked /\ ethereum.current pool = 0.
Proof.
  unfold main.provider_pool. case_bool_decide as Hc; [|done].
  destruct (LoadProvidersFromYAML dial file _) as [ps|] eqn:HL; [|done].
  intros [= <-].
  pose proof (LoadProvidersFromYAML_healthy _ _ _ HL) as (Hne & _).
  assert (HF : Forall (loaded dial) ps).
  { unfold LoadProvidersFromYAML in HL. destruct file as [| |config].
    - case_bool_decide as Hf; [done|].
      destruct (dial (RPCURL (Ethereum cfg))) eqn:Hd; simpl in HL; [|done].
      injection HL as <-. constructor; [|constructor]. unfold loaded.
      by simpl.
    - done.
    - destruct (Providers config) as [|c cs]; [done|].
      set (cbConfig := if FailureThreshold (CircuitBreaker config) =? 0
                       then _ else _) in HL.
      assert (Hcb : ethereum.FailureThreshold cbConfig <> 0).
      { unfold cbConfig.
        by destruct (Z.eqb_spec (FailureThreshold (CircuitBreaker config))
                       0). }
      destruct (create_providers dial cbConfig (c :: cs)) as [qs|] eqn:Hcp;
        [|done].
      destruct qs as [|q qs]; [done|]. injection HL as <-.
      by destruct (create_providers_loaded _ _ _ Hcb Hcp). }
  unfold ethereum.NewProviderPool.
  cbn [ethereum.providers ethereum.mu ethereum.current].
  pose proof (sort_by_weight_perm ps) as Hperm.
  pose proof (sort_by_weight_sorted ps) as Hsort.
  destruct (ethereum.sort_by_weight ps) as [|p rest] eqn:Hps.
  { apply Permutation_nil_l in Hperm. by subst ps. }
  exists ps, p. split; [done|]. split; [done|].
  split; [by rewrite Hperm|]. split; [done|]. split; [|done].
  intros q [->|Hq]%elem_of_cons; [lia|].
  apply StronglySorted_inv in Hsort as [_ Hfa].
  rewrite Forall_forall in Hfa. by apply Hfa.
Qed.
End Providers.

Section ConfigExamples.
Import GoInt config service examples.

(** Only the RPC variables are set: every other value is the default. *)
Lemma Load_ingestion_witness :
  1 <= BlockBatchSize (Ingestion default_config) <= 100 /\
  (BatchMinSize (Ingestion default_config)
     <= BlockBatchSize (Ingestion default_config)
     <= BatchMaxSize (Ingestion default_config)).
Proof.
  destruct (Load_ingestion process_env default_config)
    as (Hsize & _ & Hbounds & _).
  - vm_compute. reflexivity.
  - split; [exact Hsize|]. apply Hbounds; reflexivity.
Defined.


(** The entry without URL is left out; zero fields take the defaults. *)
Lemma LoadProvidersFromYAML_providers_witness :
  file_providers <> [] /\ Forall (loaded dial_ok) file_providers /\
  ethereum.Name <$> file_providers = ["small"; "large"].
Proof.
  apply (LoadProvidersFromYAML_providers dial_ok providers_file ""
           file_providers).
  vm_compute. reflexivity.
Defined.

(** The provider [large] comes first. *)
Lemma main_pool_order_witness :
  exists loaded_providers p,
    LoadProvidersFromYAML dial_ok providers_file
      (RPCURL (Ethereum default_config)) = inl loaded_providers /\
    ethereum.providers (ethereum.NewProviderPool file_providers)
      ≡ₚ loaded_providers /\
    Forall (loaded dial_ok)
      (ethereum.providers (ethereum.NewProviderPool file_providers)) /\
    ethereum.providers (ethereum.NewProviderPool file_providers) !! 0%nat
      = Some p /\
    (forall q, q ∈ ethereum.providers (ethereum.NewProviderPool file_providers)
       -> ethereum.Weight q <= ethereum.Weight p) /\
    ethereum.mu (ethereum.NewProviderPool file_providers) = sync.Unlocked /\
    ethereum.current (ethereum.NewProviderPool file_providers) = 0.
Proof.
  apply (main_pool_order dial_ok providers_file default_config
           (ethereum.NewProviderPool file_providers)).
  vm_compute. reflexivity.
Defined.
End ConfigExamples.

(* ===================================================================== *)
(** * The event stream: delivery to a subscribed client *)
(* ===================================================================== *)

Section StreamDelivery.
Import stream.
Variable marshal : models.Transfer -> option (list byte).

(** X30: while a client is subscribed and does not receive, publishing
    transfers appends their JSON forms to the client's channel in the
    order of publication until the channel is full and drops the rest of
    them for this client; a transfer that cannot be marshalled is
    skipped.  The client stays subscribed with the same capacity, and
    the replay buffer is not touched. *)
Theorem publish_all_delivers (ts : list models.Transfer) (s : Stream)
    (ch : nat) (c : Chan) :
  clients s !! ch = Some c ->
  clients (publish_all marshal s ts) !! ch =
    Some {| capacity := capacity c;
            queue := queue c ++
                     take (Z.to_nat (capacity c - Z.of_nat (length (queue c))))
                       (omap marshal ts) |} /\
  buffer (publish_all marshal s ts) = buffer s.
Proof.
  revert s c. induction ts as [|t ts IH]; intros s c Hc.
  - simpl. rewrite take_nil, app_nil_r. by destruct c.
  - assert (Hne : size (clients s) <> 0%nat).
    { intros H0. apply map_size_empty_iff in H0. rewrite H0 in Hc.
      by rewrite lookup_empty in Hc. }
    rewrite publish_all_cons. unfold Publish.
    rewrite bool_decide_eq_false_2 by done.
    change (omap marshal (t :: ts))
      with (match marshal t with
            | Some data => data :: omap marshal ts
            | None => omap marshal ts
            end).
    destruct (marshal t) as [data|]; [|by apply IH].
    set (s1 := {| clients := try_send data <$> clients s;
                  buffer := buffer s; bufferSize := bufferSize s;
                  next_chan := next_chan s |}).
    assert (Hc1 : clients s1 !! ch = Some (try_send data c)).
    { unfold s1. cbn [clients]. by rewrite lookup_fmap, Hc. }
    destruct (IH s1 _ Hc1) as [Hq Hb]. rewrite Hq, Hb.
    split; [|done]. f_equal. unfold try_send, has_room.
    destruct (Z.ltb_spec (Z.of_nat (length (queue c))) (capacity c)).
    + cbn [capacity queue]. f_equal. rewrite length_app, <- app_assoc.
      f_equal. cbn [length].
      replace (Z.to_nat (capacity c - Z.of_nat (length (queue c))))
        with (S (Z.to_nat (capacity c
                             - Z.of_nat (length (queue c) + 1)))) by lia.
      done.
    + f_equal. f_equal.
      replace (Z.to_nat (capacity c - Z.of_nat (length (queue c))))
        with 0%nat by lia.
      done.
Qed.
End StreamDelivery.

Section StreamDeliveryExamples.
Import stream examples.

(** A new client of capacity 2 and three transfers: it is sent the first
    two. *)
Lemma publish_all_delivers_witness :
  clients (publish_all sample_marshal (Subscribe stream_two).2 three) !! 0%nat
    = Some (mkChan 2 [["001"%byte]; ["002"%byte]]) /\
  buffer (publish_all sample_marshal (Subscribe stream_two).2 three) = [].
Proof.
  apply (publish_all_delivers sample_marshal three (Subscribe stream_two).2
           0%nat (mkChan 2 [])).
  reflexivity.
Defined.
End StreamDeliveryExamples.
